(** * ASE file-format adapters: Gaussian input files and CRYSTAL input files

    A shallow embedding of [ase/io/gaussian.py] and
    [ase/calculators/crystal.py].

    Conventions of the embedding.
    - A Python [str] is a [string]; the text is ASCII, a character with a
      code above 127 is an ordinary symbol (neither a letter, a digit nor
      white space).
    - A Python [int] is a [Z].  A Python [float] is a rational [Q]: the
      embedding follows the arithmetic and the decimal formatting of finite
      numbers and does not follow binary rounding, infinities or NaN: a
      function that would go on with an infinity or a NaN read from a text
      returns [Err NonFinite], and the sums numpy computes in floating
      point are given as parameters.  Equality of floats is [Qeq].
    - A Python [dict] is an association list kept in insertion order.
    - A raising function returns [Err e]; the exception classes are the
      constructors of [exn].
    - A file system is a finite map from paths to texts; the text written
      to an open file reaches it when the file is closed. *)

From stdpp Require Import gmap.
From Stdlib Require Import String Ascii List ZArith QArith Lia Bool.
Import ListNotations.
Close Scope Q_scope.
Close Scope Z_scope.
Open Scope nat_scope.
Open Scope list_scope.
Open Scope string_scope.
Arguments String.append !s1 s2 : simpl nomatch.
Arguments String.length !s : simpl nomatch.

(** ** Exceptions and results *)

Inductive exn : Type :=
| IOError | ValueError | IndexError | KeyError | AttributeError
| TypeError | InputError | FileNotFoundError
| NonFinite.

(** [NonFinite] is no exception of Python: it marks the point where the
    program goes on with an infinite float or a NaN (after [float('inf')]
    or [float('nan')]), which the embedding has no value for; the embedding
    does not follow the run further. *)

Inductive res (A : Type) : Type :=
| Ok (a : A)
| Err (e : exn).
Arguments Ok {A} a.
Arguments Err {A} e.

Definition bind {A B} (r : res A) (k : A -> res B) : res B :=
  match r with
  | Ok a => k a
  | Err e => Err e
  end.

Notation "x <- r ;; k" := (bind r (fun x => k))
  (at level 62, r at next level, right associativity).

(** ** Text *)

Module Text.

Definition chr (n : nat) : ascii := ascii_of_nat n.
Definition ord (c : ascii) : nat := nat_of_ascii c.

Definition NL : ascii := chr 10.
Definition nl : string := String NL "".

Definition in_range (lo hi : nat) (c : ascii) : bool :=
  (lo <=? ord c)%nat && (ord c <=? hi)%nat.

(** [str.isspace] on ASCII: tab, newline, vertical tab, form feed, carriage
    return, the four separators 28..31 and the blank. *)
Definition is_space (c : ascii) : bool :=
  in_range 9 13 c || in_range 28 31 c || (ord c =? 32)%nat.

Definition is_digit (c : ascii) : bool := in_range 48 57 c.
Definition is_upper (c : ascii) : bool := in_range 65 90 c.
Definition is_lower (c : ascii) : bool := in_range 97 122 c.
Definition is_alpha (c : ascii) : bool := is_upper c || is_lower c.

(** [\w] of [re]: letters, digits and the underscore. *)
Definition is_word (c : ascii) : bool :=
  is_alpha c || is_digit c || (ord c =? 95)%nat.

Definition lower_char (c : ascii) : ascii :=
  if is_upper c then chr (ord c + 32) else c.
Definition upper_char (c : ascii) : ascii :=
  if is_lower c then chr (ord c - 32) else c.

Fixpoint smap (f : ascii -> ascii) (s : string) : string :=
  match s with
  | EmptyString => EmptyString
  | String c s' => String (f c) (smap f s')
  end.

Definition lower : string -> string := smap lower_char.
Definition upper : string -> string := smap upper_char.

Fixpoint forallb_s (p : ascii -> bool) (s : string) : bool :=
  match s with
  | EmptyString => true
  | String c s' => p c && forallb_s p s'
  end.

Fixpoint existsb_s (p : ascii -> bool) (s : string) : bool :=
  match s with
  | EmptyString => false
  | String c s' => p c || existsb_s p s'
  end.

(** [c in chars] for a set of characters given as a string. *)
Definition mem (chars : string) (c : ascii) : bool :=
  existsb_s (Ascii.eqb c) chars.

Definition is_empty (s : string) : bool :=
  match s with
  | EmptyString => true
  | _ => false
  end.

(** [s[:n]] and [s[n:]] for [n >= 0]. *)
Fixpoint take (n : nat) (s : string) : string :=
  match n, s with
  | S k, String c s' => String c (take k s')
  | _, _ => EmptyString
  end.

Fixpoint drop (n : nat) (s : string) : string :=
  match n, s with
  | S k, String _ s' => drop k s'
  | _, _ => s
  end.

(** The longest prefix of characters satisfying [p], and what follows it. *)
Fixpoint span (p : ascii -> bool) (s : string) : string * string :=
  match s with
  | EmptyString => (EmptyString, EmptyString)
  | String c s' =>
      if p c then let '(a, b) := span p s' in (String c a, b)
      else (EmptyString, s)
  end.

Fixpoint lstrip (p : ascii -> bool) (s : string) : string :=
  match s with
  | EmptyString => EmptyString
  | String c s' => if p c then lstrip p s' else s
  end.

Fixpoint rstrip (p : ascii -> bool) (s : string) : string :=
  match s with
  | EmptyString => EmptyString
  | String c s' =>
      let r := rstrip p s' in
      if is_empty r && p c then EmptyString else String c r
  end.

(** [s.strip(chars)] and [s.strip()]. *)
Definition strip_set (p : ascii -> bool) (s : string) : string :=
  rstrip p (lstrip p s).
Definition strip_chars (chars : string) : string -> string :=
  strip_set (mem chars).
Definition strip : string -> string := strip_set is_space.

(** [re.split] on a class of single characters: the fields between the
    separators, empty ones included. *)
Fixpoint fields (sep : ascii -> bool) (s : string) : list string :=
  match s with
  | EmptyString => [EmptyString]
  | String c s' =>
      if sep c then EmptyString :: fields sep s'
      else match fields sep s' with
           | [] => [String c EmptyString]
           | f :: fs => String c f :: fs
           end
  end.

Definition nonempty (s : string) : bool := negb (is_empty s).

(** The maximal runs of characters outside [sep]: [s.split()] for white
    space, [re.finditer('[^...]+', s)] for a class. *)
Definition tokens (sep : ascii -> bool) (s : string) : list string :=
  filter nonempty (fields sep s).

Definition split_ws : string -> list string := tokens is_space.

(** [s.split(c)]. *)
Definition split_char (c : ascii) : string -> list string :=
  fields (Ascii.eqb c).

(** The runs of [tokens] with the index at which each starts. *)
Fixpoint fields_at (sep : ascii -> bool) (i : nat) (s : string)
  : list (nat * string) :=
  match s with
  | EmptyString => [(i, EmptyString)]
  | String c s' =>
      if sep c then (i, EmptyString) :: fields_at sep (S i) s'
      else match fields_at sep (S i) s' with
           | [] => [(i, String c EmptyString)]
           | (_, f) :: fs => (i, String c f) :: fs
           end
  end.

Definition tokens_at (sep : ascii -> bool) (s : string)
  : list (nat * string) :=
  filter (fun x => nonempty (snd x)) (fields_at sep 0 s).

Fixpoint prefixb (p s : string) : bool :=
  match p, s with
  | EmptyString, _ => true
  | String a p', String b s' => Ascii.eqb a b && prefixb p' s'
  | _, _ => false
  end.

(** [sub in s]. *)
Fixpoint contains (sub s : string) : bool :=
  prefixb sub s ||
  match s with
  | EmptyString => false
  | String _ s' => contains sub s'
  end.

(** [s.replace(old, new)] for a non-empty [old]: the occurrences are taken
    from the left and do not overlap; [skip] counts the characters of an
    occurrence still to be passed over. *)
Fixpoint replace_from (old new : string) (skip : nat) (s : string) : string :=
  match s with
  | EmptyString => EmptyString
  | String c s' =>
      match skip with
      | S k => replace_from old new k s'
      | O =>
          if prefixb old s
          then new ++ replace_from old new (String.length old - 1) s'
          else String c (replace_from old new 0 s')
      end
  end.

Definition replace (old new s : string) : string :=
  if is_empty old then s else replace_from old new 0 s.

(** [sep.join(l)]. *)
Fixpoint join (sep : string) (l : list string) : string :=
  match l with
  | [] => EmptyString
  | [x] => x
  | x :: l' => x ++ sep ++ join sep l'
  end.

(** ['{:<ns}'] and ['{:>n}']: padding with blanks up to a width. *)
Fixpoint blanks (n : nat) : string :=
  match n with
  | O => EmptyString
  | S k => String " " (blanks k)
  end.

Definition ljust (n : nat) (s : string) : string :=
  s ++ blanks (n - String.length s).
Definition rjust (n : nat) (s : string) : string :=
  blanks (n - String.length s) ++ s.

(** The lines a text file yields when it is iterated: every line keeps its
    newline, a last line without one is yielded as it is. *)
Fixpoint lines_of (s : string) : list string :=
  match s with
  | EmptyString => []
  | String c s' =>
      if Ascii.eqb c NL then nl :: lines_of s'
      else match lines_of s' with
           | [] => [String c EmptyString]
           | l :: ls => String c l :: ls
           end
  end.

End Text.

(** ** Numbers and their text *)

Module Num.
Import Text.

Definition digit_val (c : ascii) : Z := Z.of_nat (ord c - 48).
Definition digit_char (d : Z) : ascii := chr (48 + Z.to_nat d).

(** The value of a string of decimal digits, most significant first. *)
Fixpoint digits_val_from (acc : Z) (s : string) : Z :=
  match s with
  | EmptyString => acc
  | String c s' => digits_val_from (acc * 10 + digit_val c)%Z s'
  end.
Definition digits_val : string -> Z := digits_val_from 0%Z.

(** The [w] least significant decimal digits of [n >= 0]. *)
Fixpoint fixed_digits (w : nat) (n : Z) : string :=
  match w with
  | O => EmptyString
  | S k => fixed_digits k (n / 10)%Z ++ String (digit_char (n mod 10)%Z) ""
  end.

(** The number of decimal digits of [n >= 0] (one for zero). *)
Fixpoint ndigits_fuel (fuel : nat) (n : Z) : nat :=
  match fuel with
  | O => 1
  | S f => if (n <? 10)%Z then 1 else S (ndigits_fuel f (n / 10)%Z)
  end.
Definition ndigits (n : Z) : nat := ndigits_fuel (Z.to_nat (Z.log2 n)) n.

(** [str(n)] for an [int]. *)
Definition str_nat (n : Z) : string := fixed_digits (ndigits n) n.
Definition str_int (n : Z) : string :=
  if (n <? 0)%Z then String "-" (str_nat (- n)) else str_nat n.

Definition all_digits (s : string) : bool := nonempty s && forallb_s is_digit s.

(** [s.isnumeric()]. *)
Definition isnumeric : string -> bool := all_digits.

(** An optional sign in front of [s]: whether it is a minus, and the rest. *)
Definition split_sign (s : string) : bool * string :=
  match s with
  | String "-" s' => (true, s')
  | String "+" s' => (false, s')
  | _ => (false, s)
  end.

(** The same when only the rest matters. *)
Definition split_sign_any (s : string) : bool * string := split_sign s.

(** A [digitpart] of a numeric literal: digits, with single underscores
    allowed between two digits.  The result is the digits read, without
    the underscores, and what follows them. *)
Definition starts_with_digit (s : string) : bool :=
  match s with
  | String d _ => is_digit d
  | EmptyString => false
  end.

Fixpoint digitpart_from (after_digit : bool) (s : string) : string * string :=
  match s with
  | EmptyString => (EmptyString, EmptyString)
  | String c s' =>
      if is_digit c then
        let '(a, b) := digitpart_from true s' in (String c a, b)
      else if after_digit && Ascii.eqb c "_" && starts_with_digit s' then
        digitpart_from false s'
      else (EmptyString, s)
  end.

Definition span_digitpart : string -> string * string := digitpart_from false.

(** The digits of a text that is one [digitpart]. *)
Definition digits_of (s : string) : option string :=
  let '(ds, r) := span_digitpart s in
  if nonempty ds && is_empty r then Some ds else None.

(** [int(s)]: white space around, an optional sign, a [digitpart]. *)
Definition int_of_string (s : string) : res Z :=
  let '(neg, d) := split_sign (strip s) in
  match digits_of d with
  | Some ds => Ok (if neg then - digits_val ds else digits_val ds)%Z
  | None => Err ValueError
  end.

Definition pow10 (k : nat) : Z := (10 ^ Z.of_nat k)%Z.

(** [m * 10^e] as a rational. *)
Definition scale10 (m : Z) (e : Z) : Q :=
  if (0 <=? e)%Z then inject_Z (m * 10 ^ e)
  else Qmake m (Z.to_pos (10 ^ (- e))).

(** The exponent part of a float literal: empty, or [e] or [E] followed by
    an optional sign and a [digitpart]. *)
Definition exponent_of (s : string) : res Z :=
  match s with
  | EmptyString => Ok 0%Z
  | String c s' =>
      if mem "eE" c then
        let '(neg, d) := split_sign s' in
        match digits_of d with
        | Some ds => Ok (if neg then - digits_val ds else digits_val ds)%Z
        | None => Err ValueError
        end
      else Err ValueError
  end.

(** The texts [float] reads as an infinity or a NaN, after the sign and
    whatever the case of the letters. *)
Definition nonfinite_text (s : string) : bool :=
  let t := lower s in
  String.eqb t "inf" || String.eqb t "infinity" || String.eqb t "nan".

(** [float(s)]: white space around, an optional sign, then [inf],
    [infinity] or [nan], or digits with an optional point (at least one
    digit) and an optional exponent. *)
Definition float_of_string (s : string) : res Q :=
  let '(neg, s1) := split_sign (strip s) in
  if nonfinite_text s1 then Err NonFinite
  else
    let '(ip, r1) := span_digitpart s1 in
    let '(fp, r2) :=
      match r1 with
      | String "." r => span_digitpart r
      | _ => (EmptyString, r1)
      end in
    if is_empty ip && is_empty fp then Err ValueError
    else
      e <- exponent_of r2 ;;
      let m := digits_val (ip ++ fp) in
      Ok (scale10 (if neg then - m else m)%Z
            (e - Z.of_nat (String.length fp))).

(** Rounding to the nearest integer, ties to the even one. *)
Definition round_half_even (x : Q) : Z :=
  let n := Qnum x in
  let d := Zpos (Qden x) in
  let f := (n / d)%Z in
  match (2 * (n mod d) ?= d)%Z with
  | Lt => f
  | Gt => (f + 1)%Z
  | Eq => if Z.even f then f else (f + 1)%Z
  end.

(** ['{:.pf}'.format(x)] and ['%.pf' % x]: [p] digits after the point. *)
Definition fmt_f (p : nat) (x : Q) : string :=
  let n := Z.abs (round_half_even (x * inject_Z (pow10 p))) in
  let sign := if (Qnum x <? 0)%Z then "-" else "" in
  let frac :=
    match p with
    | O => ""
    | _ => String "." (fixed_digits p (n mod pow10 p)%Z)
    end in
  sign ++ str_nat (n / pow10 p)%Z ++ frac.

(** ['{:w.pf}'] and ['%w.pf']: the same, right-aligned in [w] columns. *)
Definition fmt_wf (w p : nat) (x : Q) : string := rjust w (fmt_f p x).

Definition Qsum (l : list Q) : Q := fold_left Qplus l 0%Q.

End Num.

(** ** The structure record of the toolkit

    [ase.Atoms] is given; the embedding keeps the fields the two adapters
    read.  [masses] is [None] while the masses array has not been set (a
    mass is then the standard mass of the element). *)

Definition vec3 : Type := Q * Q * Q.

Record Atoms : Type := mkAtoms {
  symbols : list string;
  positions : list vec3;
  cell : vec3 * vec3 * vec3;
  pbc : bool * bool * bool;
  initial_charges : list Q;
  initial_magmoms : list Q;
  masses : option (list Q)
}.

(** The three entries of an array of length three, and the assignment
    [a[i] = x], which raises [IndexError] for [i >= 3]. *)
Definition rows {A} (t : A * A * A) : list A :=
  let '(a, b, c) := t in [a; b; c].

Definition set_row {A} (i : nat) (x : A) (t : A * A * A) : res (A * A * A) :=
  let '(a, b, c) := t in
  match i with
  | 0 => Ok (x, b, c)
  | 1 => Ok (a, x, c)
  | 2 => Ok (a, b, x)
  | _ => Err IndexError
  end.

Definition Qnonzero (x : Q) : bool := negb (Qeq_bool x 0%Q).

(** A file system: the text of every file, by path. *)
Abbreviation filesys := (gmap string string).

Fixpoint ends_with (c : ascii) (s : string) : bool :=
  match s with
  | EmptyString => false
  | String a EmptyString => Ascii.eqb a c
  | String _ s' => ends_with c s'
  end.

(** [os.path.join(a, b)]. *)
Definition path_join (a b : string) : string :=
  if Text.prefixb "/" b then b
  else if Text.is_empty a then b
  else if ends_with "/" a then a ++ b
  else a ++ "/" ++ b.

(** Stateful code that can raise: the state reached is kept when an
    exception is raised. *)
Definition M (S A : Type) : Type := S -> S * res A.

Definition ret {S A} (a : A) : M S A := fun s => (s, Ok a).
Definition raise {S A} (e : exn) : M S A := fun s => (s, Err e).
Definition mbind {S A B} (m : M S A) (k : A -> M S B) : M S B :=
  fun s => match m s with
           | (s', Ok a) => k a s'
           | (s', Err e) => (s', Err e)
           end.
Definition get {S} : M S S := fun s => (s, Ok s).
Definition modify {S} (f : S -> S) : M S unit := fun s => (f s, Ok tt).
Definition lift {S A} (r : res A) : M S A := fun s => (s, r).

Notation "x <~ m ;; k" := (mbind m (fun x => k))
  (at level 62, m at next level, right associativity).
Notation "m ;;; k" := (mbind m (fun _ => k))
  (at level 62, right associativity).

Fixpoint for_each {S A} (l : list A) (body : A -> M S unit) : M S unit :=
  match l with
  | [] => ret tt
  | x :: l' => body x ;;; for_each l' body
  end.

Definition when {S} (b : bool) (m : M S unit) : M S unit :=
  if b then m else ret tt.

(** * The CRYSTAL calculator ([ase/calculators/crystal.py]) *)

Module Crystal.
Import Text Num.

Inductive xc_t : Type :=
| XcStr (s : string)
| XcPair (x c : string).

Inductive otherkey : Type :=
| KeyStr (s : string)
| KeyList (l : list string).

(** The forms of [kpts]: a density, an explicit list of points, a tuple of
    integers and strings. *)
Inductive kelem : Type :=
| KInt (n : Z)
| KStr (s : string).

Inductive kpts_t : Type :=
| KFloat (d : Q)
| KList (pts : list vec3)
| KTuple (l : list kelem).

Record Parameters : Type := mkParameters {
  xc : xc_t;
  spinpol : bool;
  guess : bool;
  kpts : option kpts_t;
  isp : Z;
  basis : string;
  smearing : option (string * Q);
  otherkeys : list otherkey
}.

Definition default_parameters : Parameters :=
  {| xc := XcStr "HF"; spinpol := false; guess := true; kpts := None;
     isp := 1%Z; basis := "custom"; smearing := None; otherkeys := [] |}.

Definition set_spinpol (b : bool) (p : Parameters) : Parameters :=
  {| xc := xc p; spinpol := b; guess := guess p; kpts := kpts p;
     isp := isp p; basis := basis p; smearing := smearing p;
     otherkeys := otherkeys p |}.

Record PointChargePotential : Type := mkPCP {
  mmcharges : option (list Q);
  pc_directory : string;
  mmpositions : option (list vec3)
}.

Record CRYSTAL : Type := mkCRYSTAL {
  parameters : Parameters;
  pcpot : option PointChargePotential;
  atoms : option Atoms;
  self_kpts : option kpts_t;
  directory : string
}.

(** A file object open for writing: the number that tells it from the
    other file objects, and the path it was opened on. *)
Record file : Type := mkFile {
  fileno : nat;
  name : string
}.

(** The calculator, the files on disk, and for every file object the text
    written through it.  That text is buffered: it reaches the disk when
    the file object is closed, so a run that an exception stops before
    [close] leaves on disk what [open] left there.  (CPython empties a
    buffer that fills up before [close]; this is not followed, and of the
    disk file of a file object that is not closed nothing is stated unless
    the text written is a few lines.) *)
Record world : Type := mkWorld {
  calc : CRYSTAL;
  fs : filesys;
  written : gmap nat string
}.

Definition set_parameters (p : Parameters) (w : world) : world :=
  {| calc := {| parameters := p; pcpot := pcpot (calc w);
                atoms := atoms (calc w); self_kpts := self_kpts (calc w);
                directory := directory (calc w) |};
     fs := fs w; written := written w |}.

Definition set_self_kpts (k : option kpts_t) (w : world) : world :=
  {| calc := {| parameters := parameters (calc w); pcpot := pcpot (calc w);
                atoms := atoms (calc w); self_kpts := k;
                directory := directory (calc w) |};
     fs := fs w; written := written w |}.

Definition set_pcpot (pc : option PointChargePotential) (c : CRYSTAL)
  : CRYSTAL :=
  {| parameters := parameters c; pcpot := pc; atoms := atoms c;
     self_kpts := self_kpts c; directory := directory c |}.

(** The text written through the file object [f] so far. *)
Definition text_of (w : world) (f : file) : string :=
  default "" (written w !! fileno f).

(** [open(path, 'w')]: the file on disk is created or emptied, and a new
    file object is returned. *)
Definition open_w (path : string) : M world file :=
  fun w =>
    let n := fresh (dom (written w)) in
    ({| calc := calc w; fs := <[path := ""]> (fs w);
        written := <[n := ""]> (written w) |},
     Ok {| fileno := n; name := path |}).

(** [f.write(text)]. *)
Definition write (f : file) (text : string) : M world unit :=
  modify (fun w =>
    {| calc := calc w; fs := fs w;
       written := <[fileno f := text_of w f ++ text]> (written w) |}).

(** The disk file that held [old] after [text] is written at its start:
    a file opened with ['w'] is written from its first byte on, whatever
    has reached the disk file through another file object since. *)
Definition overlay (text old : string) : string :=
  text ++ drop (String.length text) old.

(** [f.close()]: the text written through [f] reaches the disk. *)
Definition close (f : file) : M world unit :=
  modify (fun w =>
    {| calc := calc w;
       fs := <[name f := overlay (text_of w f) (default "" (fs w !! name f))]>
               (fs w);
       written := written w |}).

(** [open(path).readlines()]. *)
Definition readlines (path : string) : M world (list string) :=
  fun w => match fs w !! path with
           | Some text => (w, Ok (lines_of text))
           | None => (w, Err FileNotFoundError)
           end.

Definition isfile (path : string) : M world bool :=
  fun w => (w, Ok (bool_decide (is_Some (fs w !! path)))).

(** [embed]: the potential takes the directory of the calculator. *)
Definition embed (mmcharges : option (list Q)) (c : CRYSTAL) : CRYSTAL :=
  set_pcpot (Some {| mmcharges := mmcharges; pc_directory := directory c;
                     mmpositions := None |}) c.

Definition set_positions (pos : list vec3) (pc : PointChargePotential)
  : PointChargePotential :=
  {| mmcharges := mmcharges pc; pc_directory := pc_directory pc;
     mmpositions := Some pos |}.

(** The calculator after [pc = calc.embed(charges)] and
    [pc.set_positions(pos)]. *)
Definition embed_at (charges : option (list Q)) (pos : list vec3)
    (c : CRYSTAL) : CRYSTAL :=
  set_pcpot (option_map (set_positions pos) (pcpot (embed charges c)))
            (embed charges c).

Definition charge_line (pc : vec3 * Q) : string :=
  let '((x, y, z), q) := pc in
  fmt_wf 12 6 x ++ " " ++ fmt_wf 12 6 y ++ " " ++ fmt_wf 12 6 z ++ " "
  ++ fmt_wf 12 6 q ++ " " ++ nl.

Definition write_mmcharges (pc : PointChargePotential) (filename : string)
  : M world unit :=
  match mmcharges pc with
  | None => ret tt
  | Some charges =>
      charge_file <~ open_w (path_join (pc_directory pc) filename) ;;
      write charge_file
        (str_int (Z.of_nat (List.length charges)) ++ " " ++ nl) ;;;
      match mmpositions pc with
      | None => raise TypeError
      | Some pos =>
          for_each (combine pos charges)
            (fun pcq => write charge_file (charge_line pcq)) ;;;
          close charge_file
      end
  end.

Section WriteCrystalIn.

(** [ase.units.Hartree] and [str] of a float are given. *)
Variable Hartree : Q.
Variable repr_float : Q -> string.

Definition xc_keywords (name : string) : string :=
  if String.eqb name "LDA"
  then "EXCHANGE" ++ nl ++ "LDA" ++ nl ++ "CORRELAT" ++ nl ++ "VWN"
  else if String.eqb name "PBE" then "PBEXC"
  else name.

Definition kelem_str (k : kelem) : string :=
  match k with
  | KInt n => str_int n
  | KStr s => s
  end.

Definition is_kstr (k : kelem) : bool :=
  match k with
  | KStr _ => true
  | KInt _ => false
  end.

(** [max(t)] for a non-empty tuple: an integer and a string do not
    compare. *)
Fixpoint kints (l : list kelem) : res (list Z) :=
  match l with
  | [] => Ok []
  | KInt n :: l' => r <- kints l' ;; Ok (n :: r)
  | KStr _ :: _ => Err TypeError
  end.

Definition kmax (l : list kelem) : res Z :=
  r <- kints l ;;
  match r with
  | [] => Err ValueError
  | n :: r' => Ok (fold_left Z.max r' n)
  end.

(** [t[i]] for [i >= 0]. *)
Definition kget (l : list kelem) (i : nat) : res kelem :=
  match nth_error l i with
  | Some k => Ok k
  | None => Err IndexError
  end.

Definition any3 (b : bool * bool * bool) : bool :=
  let '(b0, b1, b2) := b in b0 || b1 || b2.

(** The basis-set block. *)
Definition write_basis (out : file) (p : Parameters) (dir : string)
  : M world unit :=
  if String.eqb (basis p) "custom" then
    write out ("END " ++ nl) ;;;
    basis_ <~ readlines (path_join dir "basis") ;;
    for_each basis_ (fun line => write out line) ;;;
    write out ("99 0 " ++ nl) ;;;
    write out ("END " ++ nl)
  else
    write out ("BASISSET " ++ nl) ;;;
    write out (upper (basis p) ++ nl).

(** The Hamiltonian block; [sp] is [p.spinpol]. *)
Definition write_hamiltonian (out : file) (x : xc_t) (sp : bool)
  : M world unit :=
  match x with
  | XcStr name =>
      if String.eqb name "HF" then
        if sp then write out ("UHF " ++ nl) else write out ("RHF " ++ nl)
      else if String.eqb name "MP2" then
        write out ("MP2 " ++ nl) ;;;
        write out ("ENDMP2 " ++ nl)
      else
        write out ("DFT " ++ nl) ;;;
        write out (upper (xc_keywords name) ++ nl) ;;;
        when sp (write out ("SPIN " ++ nl)) ;;;
        write out ("END " ++ nl)
  | XcPair x c =>
      write out ("DFT " ++ nl) ;;;
      write out ("EXCHANGE " ++ nl) ;;;
      write out (x ++ " " ++ nl) ;;;
      write out ("CORRELAT " ++ nl) ;;;
      write out (c ++ " " ++ nl) ;;;
      when sp (write out ("SPIN " ++ nl)) ;;;
      write out ("END " ++ nl)
  end.

Definition write_smearing (out : file) (sm : option (string * Q))
  : M world unit :=
  match sm with
  | None => ret tt
  | Some (kind, width) =>
      if negb (String.eqb kind "Fermi-Dirac") then raise ValueError
      else
        write out ("SMEAR " ++ nl) ;;;
        write out (repr_float (width / Hartree)%Q ++ " " ++ nl)
  end.

Definition write_otherkeys (out : file) (keys : list otherkey)
  : M world unit :=
  for_each keys (fun keyword =>
    match keyword with
    | KeyStr k => write out (upper k ++ nl)
    | KeyList l => for_each l (fun key => write out (upper key ++ nl))
    end).

(** The lines of the [SHRINK] section after its keyword. *)
Definition write_shrink_values (out : file) (isp_ : Z)
    (ispbc : bool * bool * bool) (k : list kelem) : M world unit :=
  m <~ lift (kmax k) ;;
  write out ("0 " ++ str_int (isp_ * m) ++ " " ++ nl) ;;;
  let '(pbc0, pbc1, pbc2) := ispbc in
  if pbc2 then
    k0 <~ lift (kget k 0) ;;
    k1 <~ lift (kget k 1) ;;
    k2 <~ lift (kget k 2) ;;
    write out (kelem_str k0 ++ " " ++ kelem_str k1 ++ " " ++ kelem_str k2
               ++ " " ++ nl)
  else if pbc1 then
    k0 <~ lift (kget k 0) ;;
    k1 <~ lift (kget k 1) ;;
    write out (kelem_str k0 ++ " " ++ kelem_str k1 ++ " 1 " ++ nl)
  else if pbc0 then
    k0 <~ lift (kget k 0) ;;
    write out (kelem_str k0 ++ " 1 1 " ++ nl)
  else ret tt.

(** The k-point block for a tuple [k]: the [SHRINK] section. *)
Definition write_shrink (out : file) (isp_ : Z) (ispbc : bool * bool * bool)
    (k : list kelem) : M world unit :=
  last_ <~ lift (match List.last (map Some k) None with
                 | Some x => Ok x
                 | None => Err IndexError
                 end) ;;
  if is_kstr last_ then raise ValueError
  else
    write out ("SHRINK  " ++ nl) ;;;
    write_shrink_values out isp_ ispbc k.

(** The value [self.kpts] takes: gamma is the default of a periodic
    system, a system without periodicity has no k-points. *)
Definition effective_kpts (k : option kpts_t) (ispbc : bool * bool * bool)
  : option kpts_t :=
  if any3 ispbc then
    match k with
    | None => Some (KTuple [KInt 1; KInt 1; KInt 1])
    | Some k' => Some k'
    end
  else None.

Definition write_kpts (out : file) (isp_ : Z) (ispbc : bool * bool * bool)
    (k : option kpts_t) : M world unit :=
  match k with
  | None => ret tt
  | Some (KFloat _) => raise ValueError
  | Some (KList _) => raise ValueError
  | Some (KTuple l) => write_shrink out isp_ ispbc l
  end.

(** [p.spinpol = True] on the parameters of the calculator. *)
Definition spin_on (w : world) : world :=
  set_parameters (set_spinpol true (parameters (calc w))) w.

Definition magnetic (a : Atoms) : bool :=
  existsb Qnonzero (initial_magmoms a).

(** Block 1 (a single point with gradients); the file object of the input
    file is returned. *)
Definition write_geometry_block (filename : string) : M world file :=
  outfile <~ open_w filename ;;
  write outfile ("Single point + Gradient crystal calculation " ++ nl) ;;;
  write outfile ("EXTERNAL " ++ nl) ;;;
  w <~ get ;;
  match pcpot (calc w) with
  | Some pc =>
      write outfile ("POINTCHG " ++ nl) ;;;
      write_mmcharges pc "POINTCHG.INP" ;;;
      ret outfile
  | None => ret outfile
  end.

(** Block 2 (the basis sets, from a file). *)
Definition write_basis_block (outfile : file) : M world unit :=
  w <~ get ;;
  write_basis outfile (parameters (calc w)) (directory (calc w)).

(** Block 3 up to the list of other keywords. *)
Definition write_parameter_block (outfile : file) : M world unit :=
  w <~ get ;;
  match atoms (calc w) with
  | None => raise AttributeError
  | Some at_ =>
      when (magnetic at_) (modify spin_on) ;;;
      w1 <~ get ;;
      let p := parameters (calc w1) in
      write_hamiltonian outfile (xc p) (spinpol p) ;;;
      when (guess p)
           (b <~ isfile "fort.20" ;;
            when b (write outfile ("GUESSP " ++ nl))) ;;;
      write_smearing outfile (smearing p) ;;;
      write_otherkeys outfile (otherkeys p)
  end.

Definition write_blocks (filename : string) : M world file :=
  outfile <~ write_geometry_block filename ;;
  write_basis_block outfile ;;;
  write_parameter_block outfile ;;;
  ret outfile.

(** The k-point block: [self.kpts] is set, then checked and written. *)
Definition write_kpoints (outfile : file) : M world unit :=
  w <~ get ;;
  match atoms (calc w) with
  | None => raise AttributeError
  | Some at_ =>
      let p := parameters (calc w) in
      let k := effective_kpts (kpts p) (pbc at_) in
      modify (set_self_kpts k) ;;;
      write_kpts outfile (isp p) (pbc at_) k
  end.

Definition write_crystal_in (filename : string) : M world unit :=
  outfile <~ write_blocks filename ;;
  write_kpoints outfile ;;;
  write outfile ("GRADCAL " ++ nl) ;;;
  write outfile ("END " ++ nl) ;;;
  close outfile.

End WriteCrystalIn.

End Crystal.

(** * Gaussian input files ([ase/io/gaussian.py]) *)

Module Gaussian.
Import Text Num.

(** ** Parameter values and dictionaries *)

Inductive num : Type :=
| NInt (z : Z)
| NFloat (q : Q).

(** The values found in a parameters dictionary: [None], a [bool], a
    [str], a number, a list of optional numbers (a nuclear property or the
    isotope masses), a list of strings. *)
Inductive pval : Type :=
| PNone
| PBool (b : bool)
| PStr (s : string)
| PNum (n : num)
| PList (l : list (option num))
| PStrs (l : list string).

Definition dict : Type := list (string * pval).

Fixpoint dict_get (k : string) (d : dict) : option pval :=
  match d with
  | [] => None
  | (k', v) :: d' => if String.eqb k k' then Some v else dict_get k d'
  end.

(** [d[k] = v]: an existing key keeps its place, a new one goes last. *)
Fixpoint dict_set (k : string) (v : pval) (d : dict) : dict :=
  match d with
  | [] => [(k, v)]
  | (k', v') :: d' =>
      if String.eqb k k' then (k, v) :: d' else (k', v') :: dict_set k v d'
  end.

Fixpoint dict_del (k : string) (d : dict) : dict :=
  match d with
  | [] => []
  | (k', v') :: d' =>
      if String.eqb k k' then d' else (k', v') :: dict_del k d'
  end.

(** [d.pop(k, None)]: the value, and the dictionary without the key. *)
Definition dict_pop (k : string) (d : dict) : option pval * dict :=
  (dict_get k d, dict_del k d).

Definition dict_has (k : string) (d : dict) : bool :=
  match dict_get k d with
  | Some _ => true
  | None => false
  end.

(** [d.update(e)]. *)
Definition dict_update (d e : dict) : dict :=
  fold_left (fun acc kv => dict_set (fst kv) (snd kv) acc) e d.

(** The truth value of a parameter. *)
Definition truthy (v : pval) : bool :=
  match v with
  | PNone => false
  | PBool b => b
  | PStr s => nonempty s
  | PNum (NInt z) => negb (z =? 0)%Z
  | PNum (NFloat q) => Qnonzero q
  | PList l => negb (Nat.eqb (List.length l) 0)
  | PStrs l => negb (Nat.eqb (List.length l) 0)
  end.

(** ** The regular expressions of the reader *)

(** [_re_link0]: white space, [%], a keyword, an optional [=] and an
    optional value; keyword and value hold none of [=)(!].  The result is
    the pair of groups 1 and 2. *)
Definition link0_char (c : ascii) : bool := negb (mem "=)(!" c).

Definition re_link0 (line : string) : option (string * option string) :=
  match lstrip is_space line with
  | String "%" r =>
      let '(g1, r1) := span link0_char r in
      if is_empty g1 then None
      else
        let r2 := match r1 with
                  | String "=" r' => r'
                  | _ => r1
                  end in
        let '(g2, _) := span link0_char r2 in
        Some (g1, if is_empty g2 then None else Some g2)
  | _ => None
  end.

(** [_re_output_type]: white space, [#], white space, at most one of
    [NPTnpt], white space.  The result is the pair of groups 0 and 1. *)
Definition re_output_type (line : string) : option (string * string) :=
  let '(ws1, r) := span is_space line in
  match r with
  | String "#" r1 =>
      let '(ws2, r2) := span is_space r1 in
      let '(g1, r3) :=
        match r2 with
        | String c r' =>
            if mem "NPTnpt" c then (String c "", r') else ("", r2)
        | EmptyString => ("", "")
        end in
      let '(ws3, _) := span is_space r3 in
      Some (ws1 ++ "#" ++ ws2 ++ g1 ++ ws3, g1)
  | _ => None
  end.

(** An optional sign followed by at least one digit: what is left, if the
    text starts so. *)
Definition skip_integer (s : string) : option string :=
  let '(_, d) := split_sign_any s in
  let '(ds, r) := span is_digit d in
  if is_empty ds then None else Some r.

(** [_re_chgmult]: the whole line is two integers separated by a comma and
    optional white space, or by white space. *)
Definition re_chgmult (line : string) : bool :=
  match skip_integer (lstrip is_space line) with
  | None => false
  | Some r =>
      let after_sep :=
        match r with
        | String "," r' => Some (lstrip is_space r')
        | _ =>
            let '(ws, r') := span is_space r in
            if is_empty ws then None else Some r'
        end in
      match after_sep with
      | None => false
      | Some r' =>
          match skip_integer r' with
          | None => false
          | Some r'' => is_empty (lstrip is_space r'')
          end
      end
  end.

(** [_re_method_basis]: [method/basis], an optional [/fitting_basis] and an
    optional comment.  The result is the groups 1, 2, 4 and 5. *)
Definition method_char (c : ascii) : bool := is_word c || Ascii.eqb c "-".

Definition re_method_basis (line : string)
  : option (string * string * option string * option string) :=
  let '(g1, r1) := span method_char (lstrip is_space line) in
  if is_empty g1 then None
  else
    match lstrip is_space r1 with
    | String "/" r3 =>
        let '(g2, r4) := span (fun c => negb (mem "/=!" c)) r3 in
        if is_empty g2 then None
        else
          let '(g4, r5) :=
            match r4 with
            | String "/" r' =>
                let '(g, r'') := span (fun c => negb (Ascii.eqb c "!")) r' in
                if is_empty g then (None, r4) else (Some g, r'')
            | _ => (None, r4)
            end in
          let g5 :=
            match lstrip is_space r5 with
            | String "!" r' =>
                let '(c, _) := span (fun c => negb (Ascii.eqb c NL)) r' in
                if is_empty c then None else Some (String "!" c)
            | _ => None
            end in
          Some (g1, g2, g4, g5)
    | _ => None
    end.

(** [re.finditer(r'\(([^\)]+)\)', s)]: every match as the triple of its
    start, its end and its group 1.  [st] is the text read since the open
    parenthesis that may start a match, with the index of that
    parenthesis. *)
Fixpoint paren_matches_from (i : nat) (st : option (nat * string))
    (s : string) : list (nat * nat * string) :=
  match s with
  | EmptyString => []
  | String c s' =>
      match st with
      | None =>
          if Ascii.eqb c "(" then paren_matches_from (S i) (Some (i, "")) s'
          else paren_matches_from (S i) None s'
      | Some (start, acc) =>
          if Ascii.eqb c ")" then
            if is_empty acc then paren_matches_from (S i) None s'
            else (start, S i, acc) :: paren_matches_from (S i) None s'
          else paren_matches_from (S i) (Some (start, acc ++ String c "")) s'
      end
  end.

Definition paren_matches : string -> list (nat * nat * string) :=
  paren_matches_from 0 None.

(** [re.sub(r'\s*=\s*', '=', s)]. *)
Fixpoint tighten_equals (s : string) : string :=
  match s with
  | EmptyString => EmptyString
  | String c s' =>
      if Ascii.eqb c "=" then String "=" (lstrip is_space (tighten_equals s'))
      else if is_space c then
        match tighten_equals s' with
        | String "=" r => String "=" r
        | r => String c r
        end
      else String c (tighten_equals s')
  end.

(** ** The helpers of [parse_gaussian_input] *)

Definition _nuclei_prop_array_names : list string :=
  ["spin"; "zeff"; "qmom"; "nmagm"; "znuc"; "radnuclear"; "iso"].

Definition opt_pval (o : option string) : pval :=
  match o with
  | Some s => PStr s
  | None => PNone
  end.

Definition _save_link0_param (m : string * option string)
    (parameters : dict) : dict :=
  let '(g1, g2) := m in
  dict_set (strip (lower g1)) (opt_pval (option_map strip g2)) parameters.

Definition _validate_symbol_string (s : string) : res string :=
  if contains "-" s then Err IOError else Ok s.

(** The separators of keywords: comma, slash and white space. *)
Definition keyword_sep (c : ascii) : bool := mem ",/" c || is_space c.

(** [seq[-1]]. *)
Definition last_item {A} (l : list A) : res A :=
  match List.last (map Some l) None with
  | Some x => Ok x
  | None => Err IndexError
  end.

(** One match of the loop over the options in parentheses: the keyword is
    the last word before the match. *)
Definition paren_keyword (line : string) (m : nat * nat * string)
  : res (string * string * (nat * nat)) :=
  let '(start, stop, options) := m in
  let keyword_string := take start line in
  let words := filter (fun k => negb (String.eqb (snd k) "="))
                      (tokens_at keyword_sep keyword_string) in
  k <- last_item words ;;
  Ok (lower (strip_chars " =" (snd k)), options, (fst k, stop)).

Fixpoint paren_keywords (line : string) (ms : list (nat * nat * string))
  : res (list (string * string * (nat * nat))) :=
  match ms with
  | [] => Ok []
  | m :: ms' =>
      x <- paren_keyword line m ;;
      xs <- paren_keywords line ms' ;;
      Ok (x :: xs)
  end.

(** [line[0:start] + line[stop + 1:]]. *)
Definition cut_range (line : string) (r : nat * nat) : string :=
  take (fst r) line ++ drop (S (snd r)) line.

(** A word of the rest of the line: [keyword=options] or a keyword. *)
Definition plain_keyword (s : string) : string * pval :=
  if existsb_s (Ascii.eqb "=") s then
    match split_char "=" s with
    | keyword :: options :: more =>
        (lower keyword, PStr (join "=" (options :: more)))
    | _ => (lower s, PNone)
    end
  else (lower s, PNone).

Definition _get_route_params (line : string) : res dict :=
  let line := strip_chars " #" line in
  let line := hd "" (split_char "!" line) in
  found <- paren_keywords line (paren_matches line) ;;
  let params :=
    fold_left (fun d x => dict_set (fst (fst x)) (PStr (snd (fst x))) d)
              found [] in
  let line := fold_left cut_range (rev (map snd found)) line in
  let line := tighten_equals line in
  let words := tokens keyword_sep line in
  Ok (fold_left (fun d s => let '(k, v) := plain_keyword s in dict_set k v d)
                words params).

Definition ase_gen_comment : string := "! ASE formatted method and basis".

Definition _save_route_params (line : string) (parameters : dict)
  : res dict :=
  let plain := p <- _get_route_params line ;; Ok (dict_update parameters p) in
  match re_method_basis line with
  | Some (g1, g2, g4, Some g5) =>
      if String.eqb g5 ase_gen_comment then
        let d := dict_set "method" (PStr (strip g1)) parameters in
        let d := dict_set "basis" (PStr (strip g2)) d in
        Ok (match g4 with
            | Some f => dict_set "fitting_basis" (PStr (strip f)) d
            | None => d
            end)
      else plain
  | _ => plain
  end.

(** The value of a nuclear property: an [int] for digits, else a
    [float]. *)
Definition nuclei_value (v : pval) : res num :=
  match v with
  | PStr s =>
      if isnumeric s then z <- int_of_string s ;; Ok (NInt z)
      else q <- float_of_string s ;; Ok (NFloat q)
  | _ => Err AttributeError
  end.

Fixpoint nuclei_values (d : dict) : res (list (string * num)) :=
  match d with
  | [] => Ok []
  | (k, v) :: d' =>
      n <- nuclei_value v ;;
      r <- nuclei_values d' ;;
      Ok ((lower k, n) :: r)
  end.

Fixpoint assoc_num (k : string) (l : list (string * num)) : option num :=
  match l with
  | [] => None
  | (k', v) :: l' => if String.eqb k k' then Some v else assoc_num k l'
  end.

Definition nuclei_props_t : Type := list (string * list (option num)).

Definition empty_nuclei_props : nuclei_props_t :=
  map (fun k => (k, [])) _nuclei_prop_array_names.

(** One atom line for the nuclear properties: every array gets the value
    the line gives for it, or [None]. *)
Definition append_nuclei_props (current : list (string * num))
    (nuclei_props : nuclei_props_t) : nuclei_props_t :=
  map (fun kl => (fst kl, snd kl ++ [assoc_num (fst kl) current])%list)
      nuclei_props.

(** [_get_readiso_param]: the frequency keyword and its options in lower
    case.  The test [if 'readiso' or 'readisotopes' in freq_options] of the
    source holds for every string of options. *)
Definition _get_readiso_param (parameters : dict)
  : res (option (string * string)) :=
  let '(freq_name, freq_options) :=
    match dict_get "freq" parameters with
    | Some v => if truthy v then ("freq", Some v)
                else ("frequency", dict_get "frequency" parameters)
    | None => ("frequency", dict_get "frequency" parameters)
    end in
  match freq_options with
  | None | Some PNone => Ok None
  | Some (PStr s) => Ok (Some (freq_name, lower s))
  | Some _ => Err AttributeError
  end.

(** The first line of a ReadIso section: temperature, pressure, scale, as
    many as the line has. *)
Definition _save_readiso_info (line : string) (parameters : dict)
  : res dict :=
  freq_param <- _get_readiso_param parameters ;;
  match freq_param with
  | None => Ok parameters
  | Some _ =>
      let line := replace "]" "" (replace "[" "" line) in
      let tokens := split_ws (strip line) in
      Ok (fold_left (fun d kv => dict_set (fst kv) (PStr (snd kv)) d)
            (combine ["temperature"; "pressure"; "scale"] tokens)
            parameters)
  end.

(** [l.remove(x)]. *)
Fixpoint list_remove (x : string) (l : list string) : res (list string) :=
  match l with
  | [] => Err ValueError
  | y :: l' =>
      if String.eqb x y then Ok l'
      else r <- list_remove x l' ;; Ok (y :: r)
  end.

(** The options left, each followed by a blank. *)
Fixpoint concat_with_blank (l : list string) : string :=
  match l with
  | [] => EmptyString
  | v :: l' => v ++ " " ++ concat_with_blank l'
  end.

Definition _delete_readiso_param (parameters : dict) : res dict :=
  freq_param <- _get_readiso_param parameters ;;
  match freq_param with
  | None => Ok parameters
  | Some (freq_name, freq_options) =>
      let freq_options := lower freq_options in
      let iso_name :=
        if contains "readisotopes" freq_options then "readisotopes"
        else "readiso" in
      rest <- list_remove iso_name (tokens keyword_sep freq_options) ;;
      let new_freq_options :=
        match rest with
        | [] => PNone
        | _ => PStr (strip (concat_with_blank rest))
        end in
      Ok (dict_set freq_name new_freq_options parameters)
  end.

Definition unsupported_settings : list string :=
  ["Z-matrix"; "ModRedun"; "AddRedun"; "ReadOpt"; "RdOpt"].

(** [s.lower() in str(v).lower()] for a value that is not [None].  The
    text of a number or of a list of numbers has none of the unsupported
    words in it. *)
Definition mentions (s : string) (v : pval) : bool :=
  match v with
  | PStr t => contains (lower s) (lower t)
  | PStrs l => existsb (fun t => contains (lower s) (lower t)) l
  | _ => false
  end.

Fixpoint first_key (p : string -> bool) (d : dict) : option string :=
  match d with
  | [] => None
  | (k, _) :: d' => if p k then Some k else first_key p d'
  end.

Definition _validate_params (parameters : dict) : res dict :=
  if existsb (fun s => existsb (fun kv => mentions s (snd kv)) parameters)
             unsupported_settings
  then Err IOError
  else
    match first_key (fun k => contains "popt" (lower k)) parameters with
    | Some k =>
        let '(v, d) := dict_pop k parameters in
        Ok (dict_set "Opt" (default PNone v) d)
    | None => Ok parameters
    end.

Definition _add_nuclei_props_to_params (parameters : dict)
    (nuclei_props : nuclei_props_t) : dict :=
  fold_left
    (fun params kl =>
       if existsb (fun v => match v with Some _ => true | None => false end)
                  (snd kl)
       then dict_set (fst kl) (PList (snd kl)) params
       else params)
    nuclei_props parameters.

(** ** The state of the reader

    The local variables of [parse_gaussian_input]; [st_symbols],
    [st_positions], [st_pbc] and [st_cell] are its [symbols], [positions],
    [pbc] and [cell]. *)
Record pstate : Type := mkState {
  parameters : dict;
  route_section : bool;
  atoms_section : bool;
  atoms_saved : bool;
  readiso : bool;
  count_iso : nat;
  nuclei_props : nuclei_props_t;
  st_symbols : list string;
  st_positions : list vec3;
  st_pbc : bool * bool * bool;
  st_cell : vec3 * vec3 * vec3;
  npbc : nat;
  zmatrix_type : bool;
  zmatrix_contents : string;
  zmatrix_var_section : bool;
  zmatrix_vars : string;
  basis_set : string
}.

Definition set_parameters (x : dict) (s : pstate) : pstate :=
  {| parameters := x; route_section := route_section s; atoms_section :=
     atoms_section s; atoms_saved := atoms_saved s; readiso := readiso s;
     count_iso := count_iso s; nuclei_props := nuclei_props s; st_symbols :=
     st_symbols s; st_positions := st_positions s; st_pbc := st_pbc s; st_cell
     := st_cell s; npbc := npbc s; zmatrix_type := zmatrix_type s;
     zmatrix_contents := zmatrix_contents s; zmatrix_var_section :=
     zmatrix_var_section s; zmatrix_vars := zmatrix_vars s; basis_set :=
     basis_set s |}.

Definition set_route_section (x : bool) (s : pstate) : pstate :=
  {| parameters := parameters s; route_section := x; atoms_section :=
     atoms_section s; atoms_saved := atoms_saved s; readiso := readiso s;
     count_iso := count_iso s; nuclei_props := nuclei_props s; st_symbols :=
     st_symbols s; st_positions := st_positions s; st_pbc := st_pbc s; st_cell
     := st_cell s; npbc := npbc s; zmatrix_type := zmatrix_type s;
     zmatrix_contents := zmatrix_contents s; zmatrix_var_section :=
     zmatrix_var_section s; zmatrix_vars := zmatrix_vars s; basis_set :=
     basis_set s |}.

Definition set_atoms_section (x : bool) (s : pstate) : pstate :=
  {| parameters := parameters s; route_section := route_section s;
     atoms_section := x; atoms_saved := atoms_saved s; readiso := readiso s;
     count_iso := count_iso s; nuclei_props := nuclei_props s; st_symbols :=
     st_symbols s; st_positions := st_positions s; st_pbc := st_pbc s; st_cell
     := st_cell s; npbc := npbc s; zmatrix_type := zmatrix_type s;
     zmatrix_contents := zmatrix_contents s; zmatrix_var_section :=
     zmatrix_var_section s; zmatrix_vars := zmatrix_vars s; basis_set :=
     basis_set s |}.

Definition set_atoms_saved (x : bool) (s : pstate) : pstate :=
  {| parameters := parameters s; route_section := route_section s;
     atoms_section := atoms_section s; atoms_saved := x; readiso := readiso s;
     count_iso := count_iso s; nuclei_props := nuclei_props s; st_symbols :=
     st_symbols s; st_positions := st_positions s; st_pbc := st_pbc s; st_cell
     := st_cell s; npbc := npbc s; zmatrix_type := zmatrix_type s;
     zmatrix_contents := zmatrix_contents s; zmatrix_var_section :=
     zmatrix_var_section s; zmatrix_vars := zmatrix_vars s; basis_set :=
     basis_set s |}.

Definition set_readiso (x : bool) (s : pstate) : pstate :=
  {| parameters := parameters s; route_section := route_section s;
     atoms_section := atoms_section s; atoms_saved := atoms_saved s; readiso :=
     x; count_iso := count_iso s; nuclei_props := nuclei_props s; st_symbols :=
     st_symbols s; st_positions := st_positions s; st_pbc := st_pbc s; st_cell
     := st_cell s; npbc := npbc s; zmatrix_type := zmatrix_type s;
     zmatrix_contents := zmatrix_contents s; zmatrix_var_section :=
     zmatrix_var_section s; zmatrix_vars := zmatrix_vars s; basis_set :=
     basis_set s |}.

Definition set_count_iso (x : nat) (s : pstate) : pstate :=
  {| parameters := parameters s; route_section := route_section s;
     atoms_section := atoms_section s; atoms_saved := atoms_saved s; readiso :=
     readiso s; count_iso := x; nuclei_props := nuclei_props s; st_symbols :=
     st_symbols s; st_positions := st_positions s; st_pbc := st_pbc s; st_cell
     := st_cell s; npbc := npbc s; zmatrix_type := zmatrix_type s;
     zmatrix_contents := zmatrix_contents s; zmatrix_var_section :=
     zmatrix_var_section s; zmatrix_vars := zmatrix_vars s; basis_set :=
     basis_set s |}.

Definition set_nuclei_props (x : nuclei_props_t) (s : pstate) : pstate :=
  {| parameters := parameters s; route_section := route_section s;
     atoms_section := atoms_section s; atoms_saved := atoms_saved s; readiso :=
     readiso s; count_iso := count_iso s; nuclei_props := x; st_symbols :=
     st_symbols s; st_positions := st_positions s; st_pbc := st_pbc s; st_cell
     := st_cell s; npbc := npbc s; zmatrix_type := zmatrix_type s;
     zmatrix_contents := zmatrix_contents s; zmatrix_var_section :=
     zmatrix_var_section s; zmatrix_vars := zmatrix_vars s; basis_set :=
     basis_set s |}.

Definition set_st_symbols (x : list string) (s : pstate) : pstate :=
  {| parameters := parameters s; route_section := route_section s;
     atoms_section := atoms_section s; atoms_saved := atoms_saved s; readiso :=
     readiso s; count_iso := count_iso s; nuclei_props := nuclei_props s;
     st_symbols := x; st_positions := st_positions s; st_pbc := st_pbc s;
     st_cell := st_cell s; npbc := npbc s; zmatrix_type := zmatrix_type s;
     zmatrix_contents := zmatrix_contents s; zmatrix_var_section :=
     zmatrix_var_section s; zmatrix_vars := zmatrix_vars s; basis_set :=
     basis_set s |}.

Definition set_st_positions (x : list vec3) (s : pstate) : pstate :=
  {| parameters := parameters s; route_section := route_section s;
     atoms_section := atoms_section s; atoms_saved := atoms_saved s; readiso :=
     readiso s; count_iso := count_iso s; nuclei_props := nuclei_props s;
     st_symbols := st_symbols s; st_positions := x; st_pbc := st_pbc s; st_cell
     := st_cell s; npbc := npbc s; zmatrix_type := zmatrix_type s;
     zmatrix_contents := zmatrix_contents s; zmatrix_var_section :=
     zmatrix_var_section s; zmatrix_vars := zmatrix_vars s; basis_set :=
     basis_set s |}.

Definition set_st_pbc (x : bool * bool * bool) (s : pstate) : pstate :=
  {| parameters := parameters s; route_section := route_section s;
     atoms_section := atoms_section s; atoms_saved := atoms_saved s; readiso :=
     readiso s; count_iso := count_iso s; nuclei_props := nuclei_props s;
     st_symbols := st_symbols s; st_positions := st_positions s; st_pbc := x;
     st_cell := st_cell s; npbc := npbc s; zmatrix_type := zmatrix_type s;
     zmatrix_contents := zmatrix_contents s; zmatrix_var_section :=
     zmatrix_var_section s; zmatrix_vars := zmatrix_vars s; basis_set :=
     basis_set s |}.

Definition set_st_cell (x : vec3 * vec3 * vec3) (s : pstate) : pstate :=
  {| parameters := parameters s; route_section := route_section s;
     atoms_section := atoms_section s; atoms_saved := atoms_saved s; readiso :=
     readiso s; count_iso := count_iso s; nuclei_props := nuclei_props s;
     st_symbols := st_symbols s; st_positions := st_positions s; st_pbc :=
     st_pbc s; st_cell := x; npbc := npbc s; zmatrix_type := zmatrix_type s;
     zmatrix_contents := zmatrix_contents s; zmatrix_var_section :=
     zmatrix_var_section s; zmatrix_vars := zmatrix_vars s; basis_set :=
     basis_set s |}.

Definition set_npbc (x : nat) (s : pstate) : pstate :=
  {| parameters := parameters s; route_section := route_section s;
     atoms_section := atoms_section s; atoms_saved := atoms_saved s; readiso :=
     readiso s; count_iso := count_iso s; nuclei_props := nuclei_props s;
     st_symbols := st_symbols s; st_positions := st_positions s; st_pbc :=
     st_pbc s; st_cell := st_cell s; npbc := x; zmatrix_type := zmatrix_type s;
     zmatrix_contents := zmatrix_contents s; zmatrix_var_section :=
     zmatrix_var_section s; zmatrix_vars := zmatrix_vars s; basis_set :=
     basis_set s |}.

Definition set_zmatrix_type (x : bool) (s : pstate) : pstate :=
  {| parameters := parameters s; route_section := route_section s;
     atoms_section := atoms_section s; atoms_saved := atoms_saved s; readiso :=
     readiso s; count_iso := count_iso s; nuclei_props := nuclei_props s;
     st_symbols := st_symbols s; st_positions := st_positions s; st_pbc :=
     st_pbc s; st_cell := st_cell s; npbc := npbc s; zmatrix_type := x;
     zmatrix_contents := zmatrix_contents s; zmatrix_var_section :=
     zmatrix_var_section s; zmatrix_vars := zmatrix_vars s; basis_set :=
     basis_set s |}.

Definition set_zmatrix_contents (x : string) (s : pstate) : pstate :=
  {| parameters := parameters s; route_section := route_section s;
     atoms_section := atoms_section s; atoms_saved := atoms_saved s; readiso :=
     readiso s; count_iso := count_iso s; nuclei_props := nuclei_props s;
     st_symbols := st_symbols s; st_positions := st_positions s; st_pbc :=
     st_pbc s; st_cell := st_cell s; npbc := npbc s; zmatrix_type :=
     zmatrix_type s; zmatrix_contents := x; zmatrix_var_section :=
     zmatrix_var_section s; zmatrix_vars := zmatrix_vars s; basis_set :=
     basis_set s |}.

Definition set_zmatrix_var_section (x : bool) (s : pstate) : pstate :=
  {| parameters := parameters s; route_section := route_section s;
     atoms_section := atoms_section s; atoms_saved := atoms_saved s; readiso :=
     readiso s; count_iso := count_iso s; nuclei_props := nuclei_props s;
     st_symbols := st_symbols s; st_positions := st_positions s; st_pbc :=
     st_pbc s; st_cell := st_cell s; npbc := npbc s; zmatrix_type :=
     zmatrix_type s; zmatrix_contents := zmatrix_contents s;
     zmatrix_var_section := x; zmatrix_vars := zmatrix_vars s; basis_set :=
     basis_set s |}.

Definition set_zmatrix_vars (x : string) (s : pstate) : pstate :=
  {| parameters := parameters s; route_section := route_section s;
     atoms_section := atoms_section s; atoms_saved := atoms_saved s; readiso :=
     readiso s; count_iso := count_iso s; nuclei_props := nuclei_props s;
     st_symbols := st_symbols s; st_positions := st_positions s; st_pbc :=
     st_pbc s; st_cell := st_cell s; npbc := npbc s; zmatrix_type :=
     zmatrix_type s; zmatrix_contents := zmatrix_contents s;
     zmatrix_var_section := zmatrix_var_section s; zmatrix_vars := x; basis_set
     := basis_set s |}.

Definition set_basis_set (x : string) (s : pstate) : pstate :=
  {| parameters := parameters s; route_section := route_section s;
     atoms_section := atoms_section s; atoms_saved := atoms_saved s; readiso :=
     readiso s; count_iso := count_iso s; nuclei_props := nuclei_props s;
     st_symbols := st_symbols s; st_positions := st_positions s; st_pbc :=
     st_pbc s; st_cell := st_cell s; npbc := npbc s; zmatrix_type :=
     zmatrix_type s; zmatrix_contents := zmatrix_contents s;
     zmatrix_var_section := zmatrix_var_section s; zmatrix_vars := zmatrix_vars
     s; basis_set := x |}.

Definition zero3 : vec3 := (0, 0, 0)%Q.

Definition initial_state : pstate :=
  {| parameters := []; route_section := false; atoms_section := false;
     atoms_saved := false; readiso := false; count_iso := 0;
     nuclei_props := empty_nuclei_props; st_symbols := [];
     st_positions := []; st_pbc := (false, false, false);
     st_cell := (zero3, zero3, zero3); npbc := 0; zmatrix_type := false;
     zmatrix_contents := ""; zmatrix_var_section := false;
     zmatrix_vars := ""; basis_set := "" |}.

(** ** The reader *)

Section Reader.

(** [ase.data.chemical_symbols] and [ase.io.zmatrix.parse_zmatrix] are
    given: the table of the symbols by atomic number, and the conversion of
    the text of a z-matrix (with the text of its variables, if any) into
    positions and symbols. *)
Variable chemical_symbols : list string.
Variable parse_zmatrix :
  string -> option string -> res (list vec3 * list string).

Definition _convert_to_symbol (s : string) : res string :=
  symbol <- _validate_symbol_string s ;;
  if isnumeric symbol then
    atomic_number <- int_of_string symbol ;;
    match nth_error chemical_symbols (Z.to_nat atomic_number) with
    | Some x => Ok x
    | None => Err IndexError
    end
  else
    let '(letters, _) := span is_alpha symbol in
    if is_empty letters then Err AttributeError else Ok letters.

(** [seq[i]]. *)
Definition item {A} (l : list A) (i : nat) : res A :=
  match nth_error l i with
  | Some x => Ok x
  | None => Err IndexError
  end.

(** [_save_nuclei_props]: the line without its parentheses, the symbol,
    the tokens, and the arrays of nuclear properties with this line
    added. *)
Definition _save_nuclei_props (line : string) (nuclei_props : nuclei_props_t)
  : res (string * string * list string * nuclei_props_t) :=
  match paren_matches line with
  | (_, _, content) :: _ =>
      let line := replace ("(" ++ content ++ ")") "" line in
      let tokens := split_ws line in
      t0 <- item tokens 0 ;;
      symbol <- _convert_to_symbol t0 ;;
      raw <- _get_route_params content ;;
      current <- nuclei_values raw ;;
      Ok (line, symbol, tokens,
          if String.eqb (upper symbol) "TV" then nuclei_props
          else append_nuclei_props current nuclei_props)
  | [] =>
      let tokens := split_ws line in
      t0 <- item tokens 0 ;;
      symbol <- _convert_to_symbol t0 ;;
      Ok (line, symbol, tokens,
          if String.eqb (upper symbol) "TV" then nuclei_props
          else append_nuclei_props [] nuclei_props)
  end.

(** [ValueError] and [KeyError] of [parse_zmatrix] become [IOError]. *)
Definition _read_zmatrix (zmatrix_contents zmatrix_vars : string)
  : res (list vec3 * list string) :=
  match parse_zmatrix zmatrix_contents
          (if is_empty zmatrix_vars then None else Some zmatrix_vars) with
  | Err ValueError | Err KeyError => Err IOError
  | r => r
  end.

Fixpoint floats (l : list string) : res (list Q) :=
  match l with
  | [] => Ok []
  | x :: l' => q <- float_of_string x ;; r <- floats l' ;; Ok (q :: r)
  end.

(** [cell[npbc] = pos] for a list of strings: one value is spread over
    the row, three fill it, any other number does not fit. *)
Definition row_of_strings (pos : list string) : res vec3 :=
  match pos with
  | [a] => x <- float_of_string a ;; Ok (x, x, x)
  | [a; b; c] =>
      x <- float_of_string a ;;
      y <- float_of_string b ;;
      z <- float_of_string c ;;
      Ok (x, y, z)
  | _ => Err ValueError
  end.

(** The three numbers of a cartesian line; a token that is no number
    raises [IOError]. *)
Definition cartesian (pos : list string) : res vec3 :=
  match floats pos with
  | Ok [x; y; z] => Ok (x, y, z)
  | Ok _ => Err IOError
  | Err ValueError => Err IOError
  | Err e => Err e
  end.

(** A periodic-cell line: [pbc[npbc] = True], [cell[npbc] = pos]. *)
Definition save_tv (row : res vec3) (s : pstate) : res pstate :=
  pbc' <- set_row (npbc s) true (st_pbc s) ;;
  v <- row ;;
  cell' <- set_row (npbc s) v (st_cell s) ;;
  Ok (set_npbc (S (npbc s)) (set_st_cell cell' (set_st_pbc pbc' s))).

Definition append_line (text line : string) : string :=
  text ++ strip line ++ nl.

(** A line of the molecule specification before the z-matrix form has
    been met. *)
Definition save_atom_line (line symbol : string) (tokens : list string)
    (s : pstate) : res pstate :=
  let pos := tl tokens in
  let is_tv := String.eqb (upper symbol) "TV" in
  if Nat.ltb (List.length pos) 3
     || (String.eqb (hd "" pos) "0" && negb (String.eqb symbol "TV"))
  then
    let s := set_zmatrix_contents (append_line (zmatrix_contents s) line)
               (set_zmatrix_type true s) in
    if is_tv then save_tv (row_of_strings pos) s else Ok s
  else if Nat.ltb 3 (List.length pos) then Err IOError
  else
    v <- cartesian pos ;;
    if is_tv then save_tv (Ok v) s
    else Ok (set_st_positions (st_positions s ++ [v])%list
               (set_st_symbols (st_symbols s ++ [symbol])%list s)).

(** A line of the molecule specification once the z-matrix form has been
    met. *)
Definition save_zmatrix_line (line : string) (s : pstate) : res pstate :=
  let line_list := split_ws line in
  if Nat.eqb (List.length line_list) 8
     && String.eqb (nth 7 line_list "") "1"
  then Err IOError
  else Ok (set_zmatrix_contents (append_line (zmatrix_contents s) line) s).

(** The branch [elif atoms_section]; [None] for the line stands for
    [continue]. *)
Definition atoms_section_line (line : string) (s : pstate)
  : res (pstate * option string) :=
  let line := replace "/" " " (hd "" (split_char "!" line)) in
  let line := replace "," " " line in
  match split_ws line with
  | [] => Ok (s, Some line)
  | _ =>
      if zmatrix_type s && zmatrix_var_section s then
        Ok (set_zmatrix_vars (append_line (zmatrix_vars s) line) s, None)
      else if zmatrix_type s && contains "variables" (lower line) then
        Ok (set_zmatrix_var_section true s, None)
      else if zmatrix_type s && contains "constants" (lower line) then
        Ok (s, None)
      else
        r <- _save_nuclei_props line (nuclei_props s) ;;
        let '(line, symbol, tokens, props) := r in
        let s := set_nuclei_props props s in
        s <- (if zmatrix_type s then save_zmatrix_line line s
              else save_atom_line line symbol tokens s) ;;
        Ok (set_atoms_saved true s, Some line)
  end.

(** [parameters['iso'].append(x)]: the list is looked up before [x] is
    evaluated. *)
Definition iso_append (x : res (option num)) (parameters : dict) : res dict :=
  match dict_get "iso" parameters with
  | None => Err KeyError
  | Some (PList l) =>
      m <- x ;; Ok (dict_set "iso" (PList (l ++ [m])%list) parameters)
  | Some _ => Err AttributeError
  end.

(** [float(line)], or [None] after [ValueError]. *)
Definition mass_of_line (line : string) : res (option num) :=
  match float_of_string line with
  | Ok q => Ok (Some (NFloat q))
  | Err ValueError => Ok None
  | Err e => Err e
  end.

(** [parameters.get('basis', '').lower() == 'gen' or 'gen' in
    parameters.keys()]. *)
Definition wants_basis_set (parameters : dict) : res bool :=
  match dict_get "basis" parameters with
  | None => Ok (dict_has "gen" parameters)
  | Some (PStr b) =>
      Ok (String.eqb (lower b) "gen" || dict_has "gen" parameters)
  | Some _ => Err AttributeError
  end.

Definition is_some {A} (o : option A) : bool :=
  match o with
  | Some _ => true
  | None => false
  end.

(** The branch [elif atoms_saved]. *)
Definition after_atoms_line (line : string) (s : pstate)
  : res (pstate * option string) :=
  s <- (if Nat.eqb (List.length (st_positions s)) 0 && zmatrix_type s then
          r <- _read_zmatrix (zmatrix_contents s) (zmatrix_vars s) ;;
          Ok (set_st_symbols (snd r) (set_st_positions (fst r) s))
        else Ok s) ;;
  match split_ws line with
  | "!" :: _ => Ok (s, None)
  | words =>
      let line :=
        match words with
        | [] => line
        | _ => hd "" (split_char "!" (strip line))
        end in
      freq_param <- _get_readiso_param (parameters s) ;;
      let s := set_readiso (is_some freq_param) s in
      if prefixb "@" line then
        Ok (set_parameters (dict_set "basisfile" (PStr line) (parameters s)) s,
            Some line)
      else if readiso s && Nat.ltb (count_iso s) (List.length (st_symbols s) + 1)
      then
        p <- (if Nat.eqb (count_iso s) 0 then
                p <- _save_readiso_info line (parameters s) ;;
                Ok (dict_set "iso" (PList []) p)
              else iso_append (mass_of_line line) (parameters s)) ;;
        Ok (set_count_iso (S (count_iso s)) (set_parameters p s), Some line)
      else
        b <- wants_basis_set (parameters s) ;;
        if b && nonempty (strip line)
        then Ok (set_basis_set (basis_set s ++ line ++ nl) s, Some line)
        else Ok (s, Some line)
  end.

(** The charge and multiplicity line. *)
Definition save_chgmult (line : string) (s : pstate) : res pstate :=
  let chgmult := split_ws line in
  c0 <- item chgmult 0 ;;
  charge <- int_of_string c0 ;;
  c1 <- item chgmult 1 ;;
  mult <- int_of_string c1 ;;
  Ok (set_atoms_section true
        (set_parameters
           (dict_set "mult" (PNum (NInt mult))
              (dict_set "charge" (PNum (NInt charge)) (parameters s))) s)).

(** The chain of branches of the loop body: the state, and the line as
    the branch leaves it ([None] after [continue]). *)
Definition branch (line : string) (s : pstate)
  : res (pstate * option string) :=
  if String.eqb line nl && negb (readiso s) then
    Ok (set_atoms_section false (set_route_section false s), Some line)
  else
    match re_link0 line with
    | Some m =>
        Ok (set_parameters (_save_link0_param m (parameters s)) s, Some line)
    | None =>
        match re_output_type line with
        | Some (g0, g1) =>
            if negb (route_section s) then
              Ok (set_parameters
                    (dict_set "output_type" (PStr g1) (parameters s))
                    (set_route_section true s),
                  Some (strip_chars g0 line))
            else if re_chgmult line then
              s' <- save_chgmult line s ;; Ok (s', Some line)
            else if atoms_section s then atoms_section_line line s
            else if atoms_saved s then after_atoms_line line s
            else Ok (s, Some line)
        | None =>
            if re_chgmult line then
              s' <- save_chgmult line s ;; Ok (s', Some line)
            else if atoms_section s then atoms_section_line line s
            else if atoms_saved s then after_atoms_line line s
            else Ok (s, Some line)
        end
    end.

(** The body of [for line in fd]. *)
Definition parse_line (s : pstate) (line : string) : res pstate :=
  r <- branch line s ;;
  match r with
  | (s, Some line) =>
      if route_section s then
        p <- _save_route_params line (parameters s) ;;
        Ok (set_parameters p s)
      else Ok s
  | (s, None) => Ok s
  end.

Fixpoint parse_lines (s : pstate) (fd : list string) : res pstate :=
  match fd with
  | [] => Ok s
  | line :: fd' => s' <- parse_line s line ;; parse_lines s' fd'
  end.

(** [len(v)] for a parameter. *)
Definition plen (v : pval) : res nat :=
  match v with
  | PStr t => Ok (String.length t)
  | PList l => Ok (List.length l)
  | PStrs l => Ok (List.length l)
  | _ => Err TypeError
  end.

(** The masses brought to the length of the symbols (lines 828-832). *)
Definition fit_iso (n : nat) (parameters : dict) : res dict :=
  match dict_get "iso" parameters with
  | None => Err KeyError
  | Some v =>
      len <- plen v ;;
      if Nat.ltb len n then
        match v with
        | PList l =>
            Ok (dict_set "iso" (PList (l ++ repeat None (n - len))%list)
                  parameters)
        | _ => Err AttributeError
        end
      else if Nat.ltb n len then
        match v with
        | PList l => Ok (dict_set "iso" (PList (firstn n l)) parameters)
        | PStr t => Ok (dict_set "iso" (PStr (take n t)) parameters)
        | PStrs l => Ok (dict_set "iso" (PStrs (firstn n l)) parameters)
        | _ => Err TypeError
        end
      else Ok parameters
  end.

(** [Atoms(symbols, positions, pbc=pbc, cell=cell)]: every symbol is one of
    the table and there is a position for each; the failures are reported
    as [IOError]. *)
Definition make_atoms (syms : list string) (pos : list vec3)
    (pbc_ : bool * bool * bool) (cell_ : vec3 * vec3 * vec3) : res Atoms :=
  if forallb (fun x => existsb (String.eqb x) chemical_symbols) syms
     && Nat.eqb (List.length syms) (List.length pos)
  then Ok {| symbols := syms; positions := pos; cell := cell_; pbc := pbc_;
             initial_charges := map (fun _ => 0%Q) syms;
             initial_magmoms := map (fun _ => 0%Q) syms;
             masses := None |}
  else Err IOError.

(** What follows the loop. *)
Definition finish (s : pstate) : res (Atoms * dict) :=
  p <- _validate_params (parameters s) ;;
  p <- (if readiso s then
          p <- _delete_readiso_param p ;;
          fit_iso (List.length (st_symbols s)) p
        else Ok p) ;;
  let p :=
    if nonempty (basis_set s) then
      dict_del "gen"
        (dict_set "basis" (PStr "gen")
           (dict_set "basis_set" (PStr (basis_set s)) p))
    else p in
  atoms <- make_atoms (st_symbols s) (st_positions s) (st_pbc s) (st_cell s) ;;
  Ok (atoms, _add_nuclei_props_to_params p (nuclei_props s)).

Definition parse_gaussian_input (fd : list string) : res (Atoms * dict) :=
  s <- parse_lines initial_state fd ;;
  finish s.


End Reader.

(** ** The writer *)

Definition _link0_keys : list string :=
  ["mem"; "chk"; "oldchk"; "schk"; "rwf"; "oldmatrix"; "oldrawmatrix";
   "int"; "d2e"; "save"; "nosave"; "errorsave"; "cpu"; "nprocshared";
   "gpucpu"; "lindaworkers"; "usessh"; "ssh"; "debuglinda"].

Definition _link0_special : list string := ["kjob"; "subst"].

Definition _xc_to_method : list (string * string) :=
  [("pbe", "pbepbe"); ("pbe0", "pbe1pbe"); ("hse06", "hseh1pbe");
   ("hse03", "ohse2pbe"); ("lda", "svwn"); ("tpss", "tpsstpss");
   ("revtpss", "revtpssrevtpss")].

Fixpoint assoc_str (k : string) (l : list (string * string))
  : option string :=
  match l with
  | [] => None
  | (k', v) :: l' => if String.eqb k k' then Some v else assoc_str k l'
  end.

(** A float computed by numpy: a finite number, an infinity or a NaN. *)
Inductive fval : Type :=
| Finite (q : Q)
| PosInf
| NegInf
| NaN.

(** ['{:.0f}'.format(x)] for such a float. *)
Definition fmt_0f_float (x : fval) : string :=
  match x with
  | Finite q => fmt_f 0 q
  | PosInf => "inf"
  | NegInf => "-inf"
  | NaN => "nan"
  end.

Section Writer.

(** [str] of a float, the table of the symbols, the table of the standard
    masses [ase.data.atomic_masses_iupac2016] and the reading of a file
    are given; so are the sum of an array of floats as numpy computes it
    ([array.sum()], in floating point) and the addition of a float to
    such a sum. *)
Variable repr_float : Q -> string.
Variable chemical_symbols : list string.
Variable atomic_masses_iupac2016 : list Q.
Variable read_file : string -> res string.
Variable np_sum : list Q -> fval.
Variable np_add : fval -> Q -> fval.

Definition str_num (n : num) : string :=
  match n with
  | NInt z => str_int z
  | NFloat q => repr_float q
  end.

Definition str_opt_num (o : option num) : string :=
  match o with
  | Some n => str_num n
  | None => "None"
  end.

(** ['{}'.format(v)]; the strings of a list are shown between quotes. *)
Definition py_str (v : pval) : string :=
  match v with
  | PNone => "None"
  | PBool true => "True"
  | PBool false => "False"
  | PStr s => s
  | PNum n => str_num n
  | PList l => "[" ++ join ", " (map str_opt_num l) ++ "]"
  | PStrs l => "[" ++ join ", " (map (fun s => "'" ++ s ++ "'") l) ++ "]"
  end.

(** [not val or (isinstance(val, str) and key.lower() == val.lower())]. *)
Definition bare (key : string) (val : pval) : bool :=
  negb (truthy val) ||
  match val with
  | PStr s => String.eqb (lower key) (lower s)
  | _ => false
  end.

(** The characters of a string, what iterating over it gives. *)
Fixpoint chars (s : string) : list string :=
  match s with
  | EmptyString => []
  | String c s' => String c EmptyString :: chars s'
  end.

(** [sep.join(val)]: the items have to be strings. *)
Definition join_iterable (sep : string) (val : pval) : res string :=
  match val with
  | PStrs l => Ok (join sep l)
  | PStr s => Ok (join sep (chars s))
  | PList [] => Ok EmptyString
  | _ => Err TypeError
  end.

Definition is_iterable (val : pval) : bool :=
  match val with
  | PList _ | PStrs _ => true
  | _ => false
  end.

(** [params.pop(key, None)] on the copy of the parameters. *)
Definition pop (key : string) : M dict pval :=
  fun params => (dict_del key params, Ok (default PNone (dict_get key params))).

Fixpoint pop_each (keys : list string) : M dict (list (string * pval)) :=
  match keys with
  | [] => ret []
  | k :: keys' =>
      v <~ pop k ;;
      r <~ pop_each keys' ;;
      ret ((k, v) :: r)
  end.

(** The link-0 lines: the keys of [_link0_keys] present in [params], in
    the order of that list. *)
Fixpoint link0_lines (keys : list string) : M dict (list string) :=
  match keys with
  | [] => ret []
  | key :: keys' =>
      params <~ get ;;
      match dict_get key params with
      | None => link0_lines keys'
      | Some val =>
          modify (dict_del key) ;;;
          out <~ link0_lines keys' ;;
          ret ((if bare key val then "%" ++ key
                else "%" ++ key ++ "=" ++ py_str val) :: out)
      end
  end.

Fixpoint special_lines (keys : list string) : M dict (list string) :=
  match keys with
  | [] => ret []
  | key :: keys' =>
      params <~ get ;;
      match dict_get key params with
      | None => special_lines keys'
      | Some val =>
          modify (dict_del key) ;;;
          v <~ lift (if is_iterable val then join_iterable " " val
                     else Ok (py_str val)) ;;
          out <~ special_lines keys' ;;
          ret (("%" ++ key ++ " L" ++ v) :: out)
      end
  end.

Definition ase_formatted : string := " ! ASE formatted method and basis".

Definition route_line (output_type : string)
    (method basis fitting_basis : pval) : string :=
  if truthy basis && truthy method && truthy fitting_basis then
    output_type ++ " " ++ py_str method ++ "/" ++ py_str basis ++ "/"
    ++ py_str fitting_basis ++ ase_formatted
  else if truthy basis && truthy method then
    output_type ++ " " ++ py_str method ++ "/" ++ py_str basis
    ++ ase_formatted
  else
    fold_left (fun s value =>
                 match value with
                 | PNone => s
                 | _ => s ++ " " ++ py_str value
                 end) [method; basis] output_type.

Fixpoint keyword_lines (params : dict) : res (list string) :=
  match params with
  | [] => Ok []
  | (key, val) :: params' =>
      line <- (if bare key val then Ok key
               else if is_iterable val then
                 v <- join_iterable "," val ;; Ok (key ++ "(" ++ v ++ ")")
               else Ok (key ++ "(" ++ py_str val ++ ")")) ;;
      r <- keyword_lines params' ;;
      Ok (line :: r)
  end.

(** [_xc_to_method.get(xc.lower(), xc)] when [xc] is given. *)
Definition xc_method (xc : pval) : res pval :=
  match xc with
  | PNone => Ok PNone
  | PStr x => Ok (PStr (default x (assoc_str (lower x) _xc_to_method)))
  | _ => Err AttributeError
  end.

(** [method.lower()] is taken when a method is given (the warning about
    composite methods leaves the output as it is). *)
Definition check_method (method : pval) : res unit :=
  match method with
  | PNone | PStr _ => Ok tt
  | _ => Err AttributeError
  end.

(** ['{:.0f}'.format(x)]. *)
Definition fmt_0f (v : pval) : res string :=
  match v with
  | PNum (NInt z) => Ok (fmt_f 0 (inject_Z z))
  | PNum (NFloat q) => Ok (fmt_f 0 q)
  | PBool b => Ok (if b then "1" else "0")
  | PStr _ => Err ValueError
  | _ => Err TypeError
  end.

(** [chemical_symbols.index(symbol)]. *)
Fixpoint index_of (x : string) (l : list string) : option nat :=
  match l with
  | [] => None
  | y :: l' =>
      if String.eqb x y then Some 0 else option_map S (index_of x l')
  end.

Definition expected_mass (symbol : string) : option Q :=
  match index_of symbol chemical_symbols with
  | Some i => nth_error atomic_masses_iupac2016 i
  | None => None
  end.

(** [atoms[i].mass]: the mass set for the atom, else the standard one. *)
Definition mass_of (a : Atoms) (i : nat) (symbol : string) : option Q :=
  match masses a with
  | Some l => nth_error l i
  | None => expected_mass symbol
  end.

Definition same_mass (a b : option Q) : bool :=
  match a, b with
  | Some x, Some y => Qeq_bool x y
  | None, None => true
  | _, _ => false
  end.

(** [str(array[i])], or nothing when the entry is [None]. *)
Definition prop_item (array : pval) (i : nat) : res (option string) :=
  match array with
  | PList l => x <- item l i ;; Ok (option_map str_num x)
  | PStrs l => x <- item l i ;; Ok (Some x)
  | PStr s => x <- item (chars s) i ;; Ok (Some x)
  | _ => Err TypeError
  end.

(** The text of the nuclear properties of atom [i], each followed by a
    comma and a blank. *)
Fixpoint props_text (i : nat) (props : list (string * pval))
  : res string :=
  match props with
  | [] => Ok EmptyString
  | (keyword, array) :: props' =>
      this <- match array with
              | PNone => Ok EmptyString
              | _ =>
                  x <- prop_item array i ;;
                  Ok (match x with
                      | Some v => keyword ++ "=" ++ v ++ ", "
                      | None => EmptyString
                      end)
              end ;;
      r <- props_text i props' ;;
      Ok (this ++ r)
  end.

(** One atom line; [nuclei_props_set] holds exactly when the text of
    the properties is not empty. *)
Definition atom_line (a : Atoms) (props : list (string * pval))
    (i : nat) (symbol : string) (position : vec3) : res string :=
  ptext <- props_text i props ;;
  let mass := mass_of a i symbol in
  let mass_set := negb (same_mass (expected_mass symbol) mass) in
  let mtext :=
    if mass_set
    then "iso=" ++ match mass with Some m => repr_float m | None => "None" end
    else EmptyString in
  let symbol_section := symbol ++ "(" ++ ptext ++ mtext in
  let symbol_section :=
    if nonempty ptext || mass_set
    then strip_chars ", " symbol_section ++ ")"
    else strip_chars "(" symbol_section in
  Ok (ljust 10 symbol_section ++ fmt_wf 20 10 (fst (fst position))
      ++ fmt_wf 20 10 (snd (fst position)) ++ fmt_wf 20 10 (snd position)).

Fixpoint atom_lines (a : Atoms) (props : list (string * pval))
    (i : nat) (atoms_ : list (string * vec3)) : res (list string) :=
  match atoms_ with
  | [] => Ok []
  | (symbol, position) :: rest =>
      l <- atom_line a props i symbol position ;;
      r <- atom_lines a props (S i) rest ;;
      Ok (l :: r)
  end.

Definition tv_line (tv : vec3) : string :=
  "TV " ++ fmt_wf 20 10 (fst (fst tv)) ++ fmt_wf 20 10 (snd (fst tv))
  ++ fmt_wf 20 10 (snd tv).

Definition tv_lines (a : Atoms) : list string :=
  map (fun bt => tv_line (snd bt))
      (filter (fun bt : bool * vec3 => fst bt)
              (combine (rows (pbc a)) (rows (cell a)))).

(** The basis set pasted after the structure. *)
Definition basis_lines (basisfile basis_set basis : pval)
  : res (list string) :=
  match basisfile with
  | PNone =>
      match basis_set with
      | PNone =>
          match basis with
          | PNone => Ok []
          | PStr b =>
              if String.eqb (lower b) "gen" then Err InputError else Ok []
          | _ => Err AttributeError
          end
      | PStr b => Ok [b]
      | _ => Err TypeError
      end
  | PStr f =>
      if is_empty f then Err IndexError
      else if prefixb "@" f then Ok [f]
      else t <- read_file f ;; Ok [t]
  | PList [] | PStrs [] => Err IndexError
  | _ => Err TypeError
  end.

Definition addsec_lines (addsec : pval) : res (list string) :=
  match addsec with
  | PNone => Ok []
  | PStr t => Ok [EmptyString; t]
  | PStrs l => Ok (EmptyString :: l)
  | PList [] | PBool _ | PNum _ => Ok [EmptyString]
  | PList _ => Err TypeError
  end.

(** [extra] is appended as it is; the final join needs a string. *)
Definition extra_lines (extra : pval) : res (list string) :=
  match extra with
  | PNone => Ok []
  | PStr s => Ok [s]
  | _ => Err TypeError
  end.

Definition output_type_of (v : pval) : string :=
  let output_type := "#" ++ py_str v in
  if String.eqb output_type "#" || contains "t" (lower output_type)
  then "#P" else output_type.

(** The text of the charge or of the multiplicity: the parameter written
    with ['{:.0f}'], or the float computed from the atoms when the
    parameter is [None]. *)
Definition number_text (v : pval) (computed : fval) : res string :=
  match v with
  | PNone => Ok (fmt_0f_float computed)
  | _ => fmt_0f v
  end.

Definition is_PNone (v : pval) : bool :=
  match v with
  | PNone => true
  | _ => false
  end.

(** The lines written by [write_gaussian_in], computed on the copy of
    the parameters; the file holds them joined by newlines. *)
Definition gaussian_lines (atoms : Atoms) (properties : option (list string))
  : M dict (list string) :=
  let properties := default ["energy"] properties in
  method <~ pop "method" ;;
  basis <~ pop "basis" ;;
  fitting_basis <~ pop "fitting_basis" ;;
  params <~ get ;;
  ot <~ pop "output_type" ;;
  let output_type :=
    output_type_of (if dict_has "output_type" params then ot else PStr "P") in
  basisfile <~ pop "basisfile" ;;
  basis_set <~ pop "basis_set" ;;
  let basis :=
    if is_PNone basis && negb (is_PNone basisfile && is_PNone basis_set)
    then PStr "gen" else basis in
  method <~ (if is_PNone method
             then xc <~ pop "xc" ;; lift (xc_method xc)
             else ret method) ;;
  lift (check_method method) ;;;
  charge <~ pop "charge" ;;
  let charge_sum := np_sum (initial_charges atoms) in
  mult <~ pop "mult" ;;
  let mult_sum := np_add (np_sum (initial_magmoms atoms)) 1%Q in
  extra <~ pop "extra" ;;
  ioplist <~ pop "ioplist" ;;
  addsec <~ pop "addsec" ;;
  nuclei_props <~ pop_each _nuclei_prop_array_names ;;
  let nuclei_props :=
    filter (fun kv => negb (String.eqb (fst kv) "iso")) nuclei_props in
  link0 <~ link0_lines _link0_keys ;;
  special <~ special_lines _link0_special ;;
  let route := route_line output_type method basis fitting_basis in
  params <~ get ;;
  keywords <~ lift (keyword_lines params) ;;
  iop <~ lift (if is_PNone ioplist then Ok []
               else v <- join_iterable ", " ioplist ;;
                    Ok ["IOP(" ++ v ++ ")"]) ;;
  let force :=
    if existsb (String.eqb "forces") properties
       && negb (dict_has "force" params)
    then ["force"] else [] in
  c <~ lift (number_text charge charge_sum) ;;
  m <~ lift (number_text mult mult_sum) ;;
  alines <~ lift (atom_lines atoms nuclei_props 0
                    (combine (symbols atoms) (positions atoms))) ;;
  basis_text <~ lift (basis_lines basisfile basis_set basis) ;;
  add <~ lift (addsec_lines addsec) ;;
  extra_s <~ lift (extra_lines extra) ;;
  let chgmult := c ++ " " ++ m in
  ret (link0 ++ special ++ [route] ++ keywords ++ iop ++ extra_s ++ force
       ++ [EmptyString; "Gaussian input prepared by ASE"; EmptyString;
           chgmult]
       ++ alines ++ tv_lines atoms ++ [EmptyString] ++ basis_text ++ add
       ++ [EmptyString; EmptyString])%list.

(** The caller's objects and the file written to. *)
Record gworld : Type := mkGworld {
  g_atoms : Atoms;
  g_params : dict;
  g_fd : string
}.

(** [write_gaussian_in(fd, atoms, properties, **params)]: the text goes to
    [fd]; the function works on a deep copy of [params]. *)
Definition write_gaussian_in (properties : option (list string))
  : M gworld unit :=
  fun w =>
    match snd (gaussian_lines (g_atoms w) properties (g_params w)) with
    | Ok out =>
        ({| g_atoms := g_atoms w; g_params := g_params w;
            g_fd := g_fd w ++ join nl out |}, Ok tt)
    | Err e => (w, Err e)
    end.

End Writer.

(** ** The reader of output files *)

(** The structure built from atomic numbers, as [read_gaussian_out] builds
    it with [Atoms(numbers, positions, pbc=pbc, cell=cell)]. *)
Record NumAtoms : Type := mkNumAtoms {
  numbers : list Z;
  na_positions : list vec3;
  na_pbc : bool * bool * bool;
  na_cell : vec3 * vec3 * vec3
}.

(** A calculated property: the energy, the dipole (a vector), the forces
    (one row per atom). *)
Inductive rvalue : Type :=
| RFloat (x : Q)
| RVector (v : list Q)
| RMatrix (m : list vec3).

Definition results : Type := list (string * rvalue).

(** An image: the structure and the results of its calculator. *)
Definition config : Type := (NumAtoms * results)%type.

Fixpoint res_get (k : string) (d : results) : option rvalue :=
  match d with
  | [] => None
  | (k', v) :: d' => if String.eqb k k' then Some v else res_get k d'
  end.

Fixpoint res_set (k : string) (v : rvalue) (d : results) : results :=
  match d with
  | [] => [(k, v)]
  | (k', v') :: d' =>
      if String.eqb k k' then (k, v) :: d' else (k', v') :: res_set k v d'
  end.

Definition res_update (d e : results) : results :=
  fold_left (fun acc kv => res_set (fst kv) (snd kv) acc) e d.

(** [SinglePointCalculator(atoms, energy=..., dipole=..., forces=...)]
    keeps the properties that are not [None]. *)
Definition single_point (energy : option Q) (dipole : option (list Q))
    (forces : option (list vec3)) : results :=
  (match energy with Some e => [("energy", RFloat e)] | None => [] end
   ++ match dipole with Some d => [("dipole", RVector d)] | None => [] end
   ++ match forces with Some f => [("forces", RMatrix f)] | None => [] end)
  %list.

Definition vec3_eqb (a b : vec3) : bool :=
  Qeq_bool (fst (fst a)) (fst (fst b)) && Qeq_bool (snd (fst a)) (snd (fst b))
  && Qeq_bool (snd a) (snd b).

Fixpoint list_eqb {A} (eqb : A -> A -> bool) (l m : list A) : bool :=
  match l, m with
  | [], [] => true
  | x :: l', y :: m' => eqb x y && list_eqb eqb l' m'
  | _, _ => false
  end.

(** [old == new] for two structures: the same length, positions, numbers,
    cell and periodicity. *)
Definition atoms_eqb (a b : NumAtoms) : bool :=
  list_eqb vec3_eqb (na_positions a) (na_positions b)
  && list_eqb Z.eqb (numbers a) (numbers b)
  && list_eqb vec3_eqb (rows (na_cell a)) (rows (na_cell b))
  && list_eqb Bool.eqb (rows (na_pbc a)) (rows (na_pbc b)).

(** [_re_atom]: a line of five or six fields; the groups are the second
    field and the last three. *)
Definition re_atom (line : string)
  : option (string * string * string * string) :=
  match split_ws line with
  | [_; g1; g2; g3; g4] => Some (g1, g2, g3, g4)
  | [_; g1; _; g2; g3; g4] => Some (g1, g2, g3, g4)
  | _ => None
  end.

(** [_re_forceblock]: the four fields [Center Atomic Forces ...]. *)
Definition re_forceblock (line : string) : bool :=
  match split_ws line with
  | [a; b; c; _] =>
      String.eqb a "Center" && String.eqb b "Atomic" && String.eqb c "Forces"
  | _ => false
  end.

(** [_re_l716] on a stripped line: [(Enter ], at least one character,
    [l716], one character, [exe)]. *)
Definition re_l716 (line : string) : bool :=
  prefixb "(Enter " line &&
  let r := drop 7 line in
  let n := String.length r in
  Nat.leb 10 n &&
  let tail := drop (n - 9) r in
  prefixb "l716" tail && String.eqb (drop 5 tail) "exe)".

(** The lines matched by [_re_atom] from the next line on, and the number
    of lines read: the line that ends the block is read too, unless the
    file ends first. *)
Fixpoint atom_rows (fd : list string)
  : list (string * string * string * string) * nat :=
  match fd with
  | [] => ([], 0)
  | line :: fd' =>
      match re_atom line with
      | None => ([], 1)
      | Some r => let rn := atom_rows fd' in (r :: fst rn, S (snd rn))
      end
  end.

Definition floats3 (a b c : string) : res vec3 :=
  x <- float_of_string a ;;
  y <- float_of_string b ;;
  z <- float_of_string c ;;
  Ok (x, y, z).

(** The rows of an orientation block: a row with the number [-2] is a
    cell vector. *)
Fixpoint orientation_rows (rs : list (string * string * string * string))
    (a : NumAtoms) (npbc : nat) : res NumAtoms :=
  match rs with
  | [] => Ok a
  | (g1, g2, g3, g4) :: rs' =>
      number <- int_of_string g1 ;;
      pos <- floats3 g2 g3 g4 ;;
      if (number =? -2)%Z then
        pbc' <- set_row npbc true (na_pbc a) ;;
        cell' <- set_row npbc pos (na_cell a) ;;
        orientation_rows rs'
          {| numbers := numbers a; na_positions := na_positions a;
             na_pbc := pbc'; na_cell := cell' |} (S npbc)
      else
        orientation_rows rs'
          {| numbers := (numbers a ++ [Z.max number 0])%list;
             na_positions := (na_positions a ++ [pos])%list;
             na_pbc := na_pbc a; na_cell := na_cell a |} npbc
  end.

Fixpoint force_rows (rs : list (string * string * string * string))
  : res (list vec3) :=
  match rs with
  | [] => Ok []
  | (_, g2, g3, g4) :: rs' =>
      f <- floats3 g2 g3 g4 ;;
      r <- force_rows rs' ;;
      Ok (f :: r)
  end.

Definition map3 (f : Q -> Q) (v : vec3) : vec3 :=
  (f (fst (fst v)), f (snd (fst v)), f (snd v)).

Section Output.

(** [ase.units.Hartree] and [ase.units.Bohr], the test [np.any(a != b)]
    on two values of a property, and the order in which the elements of a
    set of keys are visited, are given. *)
Variable Hartree Bohr : Q.
Variable differs : rvalue -> rvalue -> bool.
Variable key_order : list string -> list string.

Definition _compare_merge_configs (configs : list config) (new : config)
  : list config :=
  match List.last (map Some configs) None with
  | None => [new]
  | Some old =>
      if negb (atoms_eqb (fst old) (fst new)) then (configs ++ [new])%list
      else
        let oldres := snd old in
        let newres := snd new in
        let common_keys :=
          filter (fun k => is_some (res_get k newres)) (map fst oldres) in
        if existsb (fun key =>
                      match res_get key oldres, res_get key newres with
                      | Some a, Some b => differs a b
                      | _, _ => false
                      end)
                   (key_order common_keys)
        then (configs ++ [new])%list
        else (removelast configs ++ [(fst old, res_update oldres newres)])%list
  end.

(** The variables of the loop of [read_gaussian_out]. *)
Record ostate : Type := mkOstate {
  configs : list config;
  o_atoms : option NumAtoms;
  energy : option Q;
  dipole : option (list Q);
  forces : option (list vec3)
}.

Definition close_image (st : ostate) : list config :=
  match o_atoms st with
  | Some a =>
      _compare_merge_configs (configs st)
        (a, single_point (energy st) (dipole st) (forces st))
  | None => configs st
  end.

Definition with_energy (e : Q) (st : ostate) : ostate :=
  {| configs := configs st; o_atoms := o_atoms st;
     energy := Some (e * Hartree)%Q; dipole := dipole st;
     forces := forces st |}.

Definition with_dipole (d : option (list Q)) (st : ostate) : ostate :=
  {| configs := configs st; o_atoms := o_atoms st; energy := energy st;
     dipole := d; forces := forces st |}.

Definition starts_any (prefixes : list string) (line : string) : bool :=
  existsb (fun p => prefixb p line) prefixes.

(** [float(line.split('=')[-1].strip().replace('D', 'e'))]. *)
Definition number_after_last_equals (line : string) : res Q :=
  t <- last_item (split_char "=" line) ;;
  float_of_string (replace "D" "e" (strip t)).

(** The dipole printed after the line of link 716: three fields, or three
    numbers of the same width run together. *)
Definition read_dipole (line : string) : res (option (list Q)) :=
  d <- item (split_char "=" line) 1 ;;
  let dip := replace "D" "e" d in
  let tokens := split_ws dip in
  if Nat.eqb (List.length tokens) 3 then
    v <- floats tokens ;; Ok (Some v)
  else if Nat.eqb (String.length dip mod 3) 0 then
    let nchars := String.length dip / 3 in
    x <- float_of_string (take nchars dip) ;;
    y <- float_of_string (take nchars (drop nchars dip)) ;;
    z <- float_of_string (take nchars (drop (2 * nchars) dip)) ;;
    Ok (Some [x; y; z])
  else Ok None.

(** One turn of the loop on the stripped [line], with the lines [rest]
    that follow it: the variables after the turn and the number of
    following lines read by [fd.readline()] during it. *)
Definition out_line (line : string) (rest : list string) (st : ostate)
  : res (ostate * nat) :=
  if String.eqb line "Input orientation:"
     || String.eqb line "Z-Matrix orientation:" then
    let cfgs := close_image st in
    let rn := atom_rows (skipn 4 rest) in
    a <- orientation_rows (fst rn)
           {| numbers := []; na_positions := [];
              na_pbc := (false, false, false);
              na_cell := (zero3, zero3, zero3) |} 0 ;;
    Ok ({| configs := cfgs; o_atoms := Some a; energy := None;
           dipole := None; forces := None |}, 4 + snd rn)
  else if starts_any ["Energy="; "SCF Done:"] line then
    a <- item (split_char "=" line) 1 ;;
    t <- item (split_ws a) 0 ;;
    e <- float_of_string (replace "D" "e" t) ;;
    Ok (with_energy e st, 0)
  else if starts_any ["E2 ="; "E3 ="; "E4("; "DEMP5 ="; "E2("] line then
    e <- number_after_last_equals line ;;
    Ok (with_energy e st, 0)
  else if prefixb "Wavefunction amplitudes converged. E(Corr)" line then
    e <- number_after_last_equals line ;;
    Ok (with_energy e st, 0)
  else if re_l716 line then
    let line := strip (hd "" rest) in
    if negb (prefixb "Dipole" line) then Ok (st, 1)
    else
      d <- read_dipole line ;;
      Ok (with_dipole
            (option_map (map (fun x => (x * Bohr)%Q)) d) st, 1)
  else if re_forceblock line then
    let rn := atom_rows (skipn 2 rest) in
    f <- force_rows (fst rn) ;;
    Ok ({| configs := configs st; o_atoms := o_atoms st;
           energy := energy st; dipole := dipole st;
           forces := Some (map (map3 (fun x => (x * Hartree / Bohr)%Q)) f) |},
        2 + snd rn)
  else Ok (st, 0).

(** [for line in fd]: the lines read inside a turn are passed over;
    the archive block ends the loop. *)
Fixpoint out_lines (skip : nat) (st : ostate) (fd : list string)
  : res ostate :=
  match fd with
  | [] => Ok st
  | line :: fd' =>
      match skip with
      | S k => out_lines k st fd'
      | O =>
          let line := strip line in
          if prefixb "1\1\GINC" line then Ok st
          else
            r <- out_line line fd' st ;;
            out_lines (snd r) (fst r) fd'
      end
  end.

(** [configs[index]]. *)
Definition index_config (cfgs : list config) (index : Z) : res config :=
  let n := Z.of_nat (List.length cfgs) in
  let i := if (index <? 0)%Z then (n + index)%Z else index in
  if (i <? 0)%Z then Err IndexError
  else item cfgs (Z.to_nat i).

Definition read_gaussian_out (fd : list string) (index : Z) : res config :=
  st <- out_lines 0
          {| configs := []; o_atoms := None; energy := None;
             dipole := None; forces := None |} fd ;;
  index_config (close_image st) index.

End Output.


End Gaussian.

(** * Facts on texts and on the texts of numbers *)

Module TextFacts.
Import Text Num.

Lemma append_nil_r (s : string) : s ++ "" = s.
Proof. induction s as [|c s IH]; [reflexivity | simpl; f_equal; exact IH]. Qed.

Lemma append_assoc (a b c : string) : (a ++ b) ++ c = a ++ (b ++ c).
Proof. induction a as [|x a IH]; [reflexivity | simpl; f_equal; exact IH]. Qed.

Lemma length_append (a b : string) :
  String.length (a ++ b) = String.length a + String.length b.
Proof. induction a as [|x a IH]; [reflexivity | simpl; f_equal; exact IH]. Qed.

Lemma forallb_s_app p (a b : string) :
  forallb_s p (a ++ b) = forallb_s p a && forallb_s p b.
Proof.
  induction a as [|x a IH]; [reflexivity|].
  simpl. rewrite IH. now rewrite andb_assoc.
Qed.

Lemma existsb_s_app p (a b : string) :
  existsb_s p (a ++ b) = existsb_s p a || existsb_s p b.
Proof.
  induction a as [|x a IH]; [reflexivity|].
  simpl. rewrite IH. now rewrite orb_assoc.
Qed.

Lemma length_blanks n : String.length (blanks n) = n.
Proof. induction n as [|n IH]; [reflexivity | simpl; f_equal; exact IH]. Qed.

Lemma forallb_s_blanks n : forallb_s is_space (blanks n) = true.
Proof. induction n as [|n IH]; [reflexivity | exact IH]. Qed.

(** *** Digits *)

Lemma digit_char_is_digit (n : Z) : is_digit (digit_char (n mod 10)) = true.
Proof.
  unfold digit_char.
  assert (H : Z.to_nat (n mod 10) < 10).
  { pose proof (Z.mod_pos_bound n 10 eq_refl). lia. }
  revert H. generalize (Z.to_nat (n mod 10)). intros k H.
  do 10 (destruct k as [|k]; [reflexivity|]). lia.
Qed.

Lemma digit_val_digit_char (n : Z) :
  digit_val (digit_char (n mod 10)) = (n mod 10)%Z.
Proof.
  unfold digit_char, digit_val.
  pose proof (Z.mod_pos_bound n 10 eq_refl) as Hb.
  rewrite <- (Z2Nat.id (n mod 10)) at 2 by lia.
  assert (H : Z.to_nat (n mod 10) < 10) by lia.
  revert H. generalize (Z.to_nat (n mod 10)). intros k H.
  do 10 (destruct k as [|k]; [reflexivity|]). lia.
Qed.

Lemma fixed_digits_all w n : forallb_s is_digit (fixed_digits w n) = true.
Proof.
  revert n. induction w as [|w IH]; intros n; [reflexivity|].
  cbn [fixed_digits]. rewrite forallb_s_app, IH. cbn [forallb_s andb].
  now rewrite digit_char_is_digit.
Qed.

Lemma fixed_digits_length w n : String.length (fixed_digits w n) = w.
Proof.
  revert n. induction w as [|w IH]; intros n; [reflexivity|].
  cbn [fixed_digits]. rewrite length_append, IH. cbn [String.length]. lia.
Qed.

Lemma ndigits_fuel_pos f n : 1 <= ndigits_fuel f n.
Proof. destruct f; simpl; [lia|]. destruct (n <? 10)%Z; lia. Qed.

Lemma nonempty_length s : nonempty s = negb (Nat.eqb (String.length s) 0).
Proof. now destruct s. Qed.

Lemma str_nat_all_digits n : all_digits (str_nat n) = true.
Proof.
  unfold all_digits, str_nat.
  rewrite fixed_digits_all, andb_true_r, nonempty_length, fixed_digits_length.
  unfold ndigits. pose proof (ndigits_fuel_pos (Z.to_nat (Z.log2 n)) n).
  destruct (ndigits_fuel _ _); [lia | reflexivity].
Qed.

Lemma digits_val_from_app acc a b :
  digits_val_from acc (a ++ b) = digits_val_from (digits_val_from acc a) b.
Proof.
  revert acc. induction a as [|c a IH]; intros acc; [reflexivity|].
  cbn [String.append digits_val_from]. apply IH.
Qed.

Lemma digits_val_from_shift s : forall acc,
  digits_val_from acc s =
  (acc * 10 ^ Z.of_nat (String.length s) + digits_val s)%Z.
Proof.
  unfold digits_val.
  induction s as [|c s IH]; intros acc.
  - cbn [digits_val_from String.length]. change (10 ^ Z.of_nat 0)%Z with 1%Z. lia.
  - cbn [digits_val_from String.length].
    rewrite IH, (IH (0 * 10 + digit_val c)%Z).
    rewrite Nat2Z.inj_succ, Z.pow_succ_r by lia. ring.
Qed.

Lemma digits_val_app a b :
  digits_val (a ++ b) =
  (digits_val a * 10 ^ Z.of_nat (String.length b) + digits_val b)%Z.
Proof.
  unfold digits_val at 1. rewrite digits_val_from_app.
  fold (digits_val a). apply digits_val_from_shift.
Qed.

Lemma digits_val_fixed w : forall n,
  (0 <= n)%Z -> digits_val (fixed_digits w n) = (n mod 10 ^ Z.of_nat w)%Z.
Proof.
  induction w as [|w IH]; intros n Hn.
  - cbn [fixed_digits]. change (10 ^ Z.of_nat 0)%Z with 1%Z.
    now rewrite Z.mod_1_r.
  - cbn [fixed_digits]. rewrite digits_val_app.
    rewrite IH by (apply Z.div_pos; lia).
    cbn [String.length]. change (10 ^ Z.of_nat 1)%Z with 10%Z.
    unfold digits_val at 1. cbn [digits_val_from].
    rewrite digit_val_digit_char.
    rewrite Nat2Z.inj_succ, Z.pow_succ_r by lia.
    rewrite (Z.rem_mul_r n 10 (10 ^ Z.of_nat w)) by lia. lia.
Qed.

Lemma ndigits_fuel_bound f : forall n,
  (0 <= n < 2 ^ (Z.of_nat f + 1))%Z ->
  (n < 10 ^ Z.of_nat (ndigits_fuel f n))%Z.
Proof.
  induction f as [|f IH]; intros n Hn.
  - cbn [ndigits_fuel]. change (2 ^ (Z.of_nat 0 + 1))%Z with 2%Z in Hn.
    change (10 ^ Z.of_nat 1)%Z with 10%Z. lia.
  - cbn [ndigits_fuel]. destruct (Z.ltb_spec n 10) as [Hlt|Hge].
    + change (10 ^ Z.of_nat 1)%Z with 10%Z. lia.
    + rewrite Nat2Z.inj_succ, Z.pow_succ_r by lia.
      assert (Hq : (n / 10 < 10 ^ Z.of_nat (ndigits_fuel f (n / 10)))%Z).
      { apply IH. split; [apply Z.div_pos; lia|].
        apply Z.div_lt_upper_bound; [lia|].
        rewrite Nat2Z.inj_succ in Hn.
        replace (Z.succ (Z.of_nat f) + 1)%Z with (Z.succ (Z.of_nat f + 1)) in Hn by lia.
        rewrite Z.pow_succ_r in Hn by lia. lia. }
      pose proof (Z.div_mod n 10 ltac:(lia)) as Hdm.
      pose proof (Z.mod_pos_bound n 10 ltac:(lia)). lia.
Qed.

Lemma ndigits_bound n : (0 <= n)%Z -> (n < 10 ^ Z.of_nat (ndigits n))%Z.
Proof.
  intros Hn. unfold ndigits. apply ndigits_fuel_bound.
  split; [exact Hn|].
  destruct (Z.eq_dec n 0) as [->|Hne].
  - cbn. lia.
  - rewrite Z2Nat.id by apply Z.log2_nonneg.
    rewrite Z.add_1_r. apply Z.log2_spec. lia.
Qed.

Lemma digits_val_str_nat n : (0 <= n)%Z -> digits_val (str_nat n) = n.
Proof.
  intros Hn. unfold str_nat. rewrite digits_val_fixed by exact Hn.
  apply Z.mod_small. split; [exact Hn | now apply ndigits_bound].
Qed.

Lemma span_all p s : forallb_s p s = true -> span p s = (s, "").
Proof.
  induction s as [|c s IH]; [reflexivity|].
  cbn [forallb_s span]. intros H. apply andb_prop in H as [Hc Hs].
  now rewrite Hc, (IH Hs).
Qed.

Lemma span_app p a c b :
  forallb_s p a = true -> p c = false ->
  span p (a ++ String c b) = (a, String c b).
Proof.
  intros Ha Hc. induction a as [|x a IH].
  - cbn [String.append span]. now rewrite Hc.
  - cbn [forallb_s] in Ha. apply andb_prop in Ha as [Hx Ha].
    cbn [String.append span]. now rewrite Hx, (IH Ha).
Qed.

Lemma lstrip_first p c s : p c = false -> lstrip p (String c s) = String c s.
Proof. intros H. cbn [lstrip]. now rewrite H. Qed.

Lemma rstrip_none p s :
  forallb_s (fun c => negb (p c)) s = true -> rstrip p s = s.
Proof.
  induction s as [|c s IH]; [reflexivity|].
  cbn [forallb_s rstrip]. intros H. apply andb_prop in H as [Hc Hs].
  rewrite (IH Hs). apply negb_true_iff in Hc. rewrite Hc.
  now rewrite andb_false_r.
Qed.

Lemma lstrip_none p s :
  forallb_s (fun c => negb (p c)) s = true -> lstrip p s = s.
Proof.
  destruct s as [|c s]; [reflexivity|].
  cbn [forallb_s]. intros H. apply andb_prop in H as [Hc _].
  apply negb_true_iff in Hc. now apply lstrip_first.
Qed.

Lemma strip_set_none p s :
  forallb_s (fun c => negb (p c)) s = true -> strip_set p s = s.
Proof.
  intros H. unfold strip_set. now rewrite (lstrip_none p s H), rstrip_none.
Qed.

Lemma forallb_s_impl (p q : ascii -> bool) s :
  (forall c, p c = true -> q c = true) ->
  forallb_s p s = true -> forallb_s q s = true.
Proof.
  intros Hpq. induction s as [|c s IH]; [reflexivity|].
  cbn [forallb_s]. intros H. apply andb_prop in H as [Hc Hs].
  now rewrite (Hpq c Hc), (IH Hs).
Qed.

(** The characters of the text of a number. *)
Definition is_numeric_char (c : ascii) : bool :=
  is_digit c || Ascii.eqb c "." || Ascii.eqb c "-".

Lemma digit_not_space c : is_digit c = true -> is_space c = false.
Proof. destruct c as [[] [] [] [] [] [] [] []]; now vm_compute. Qed.

Lemma numeric_not_space c : is_numeric_char c = true -> is_space c = false.
Proof. destruct c as [[] [] [] [] [] [] [] []]; now vm_compute. Qed.

(** The value read back from a number written with [p] decimals. *)
Definition rounded (p : nat) (x : Q) : Q :=
  scale10 (round_half_even (x * inject_Z (pow10 p))) (- Z.of_nat p).

Lemma round_half_even_sign (y : Q) :
  if (Qnum y <? 0)%Z then (round_half_even y <= 0)%Z
  else (0 <= round_half_even y)%Z.
Proof.
  unfold round_half_even.
  set (n := Qnum y). set (d := Z.pos (Qden y)).
  assert (Hd : (0 < d)%Z) by (subst d; lia).
  pose proof (Z.div_mod n d ltac:(lia)) as Hdm.
  pose proof (Z.mod_pos_bound n d Hd) as Hm.
  assert (Hf : (n < 0 -> n / d <= -1)%Z).
  { intros Hn. assert (n / d < 0)%Z; [|lia].
    apply Z.div_lt_upper_bound; lia. }
  assert (Hg : (0 <= n -> 0 <= n / d)%Z).
  { intros Hn. apply Z.div_pos; lia. }
  destruct (Z.ltb_spec n 0) as [Hn|Hn];
    destruct (2 * (n mod d) ?= d)%Z; try destruct (Z.even (n / d)); lia.
Qed.

Lemma fmt_f_shape p x :
  let r := round_half_even (x * inject_Z (pow10 p)) in
  let n := Z.abs r in
  fmt_f p x =
  (if (Qnum x <? 0)%Z then "-" else "") ++ str_nat (n / pow10 p)
  ++ match p with
     | O => ""
     | _ => String "." (fixed_digits p (n mod pow10 p))
     end.
Proof. reflexivity. Qed.

(** *** The digits of a literal *)

Lemma digitpart_all s : forall b,
  forallb_s is_digit s = true -> digitpart_from b s = (s, "").
Proof.
  induction s as [|c s IH]; intros b; [reflexivity|].
  cbn [forallb_s digitpart_from]. intros H. apply andb_prop in H as [Hc Hs].
  now rewrite Hc, (IH true Hs).
Qed.

Lemma digitpart_app a c r : forall b,
  forallb_s is_digit a = true -> is_digit c = false ->
  Ascii.eqb c "_" = false ->
  digitpart_from b (a ++ String c r) = (a, String c r).
Proof.
  induction a as [|x a IH]; intros b Ha Hc Hu.
  - cbn [String.append digitpart_from]. now rewrite Hc, Hu, andb_false_r.
  - cbn [forallb_s] in Ha. apply andb_prop in Ha as [Hx Ha].
    cbn [String.append digitpart_from]. now rewrite Hx, (IH true Ha Hc Hu).
Qed.

Lemma digits_of_all s : all_digits s = true -> digits_of s = Some s.
Proof.
  unfold all_digits, digits_of, span_digitpart. intros H.
  apply andb_prop in H as [Hne Hd].
  now rewrite (digitpart_all s false Hd), Hne.
Qed.

Lemma nonfinite_text_digit c s :
  is_digit c = true -> nonfinite_text (String c s) = false.
Proof.
  destruct c as [[] [] [] [] [] [] [] []]; intros H;
    try (vm_compute in H; discriminate H); reflexivity.
Qed.

Lemma float_of_fmt_f p x :
  p <> 0 -> float_of_string (fmt_f p x) = Ok (rounded p x).
Proof.
  intros Hp. rewrite fmt_f_shape. cbv zeta.
  set (r := round_half_even (x * inject_Z (pow10 p))).
  set (n := Z.abs r).
  destruct p as [|p']; [contradiction|]. set (p := S p') in *.
  assert (Hpow : (0 < pow10 p)%Z) by (unfold pow10; apply Z.pow_pos_nonneg; lia).
  assert (Hq : (0 <= n / pow10 p)%Z) by (apply Z.div_pos; subst n; lia).
  pose proof (str_nat_all_digits (n / pow10 p)) as Hip.
  unfold all_digits in Hip. apply andb_prop in Hip as [Hne Hip].
  pose proof (fixed_digits_all p (n mod pow10 p)) as Hfp.
  set (ip := str_nat (n / pow10 p)) in *.
  set (fp := fixed_digits p (n mod pow10 p)) in *.
  assert (Hsign : if (Qnum x <? 0)%Z then (r <= 0)%Z else (0 <= r)%Z).
  { pose proof (round_half_even_sign (x * inject_Z (pow10 p))) as H.
    fold r in H.
    replace (Qnum (x * inject_Z (pow10 p))) with (Qnum x * pow10 p)%Z in H
      by reflexivity.
    destruct (Z.ltb_spec (Qnum x) 0) as [Hx|Hx];
      destruct (Z.ltb_spec (Qnum x * pow10 p) 0) as [Hy|Hy]; try exact H; nia. }
  assert (Hval : digits_val (ip ++ fp) = n).
  { rewrite digits_val_app. subst ip fp.
    rewrite digits_val_str_nat by exact Hq.
    rewrite digits_val_fixed by (apply Z.mod_pos_bound; exact Hpow).
    rewrite fixed_digits_length. fold (pow10 p).
    rewrite Z.mod_mod by lia.
    pose proof (Z.div_mod n (pow10 p) ltac:(lia)). lia. }
  assert (Hlen : String.length fp = p) by apply fixed_digits_length.
  assert (Hstrip : forall s, forallb_s is_numeric_char s = true -> strip s = s).
  { intros s Hs. apply strip_set_none.
    revert Hs. apply forallb_s_impl. intros c Hc.
    now rewrite (numeric_not_space c Hc). }
  assert (Hnum : forallb_s is_numeric_char (ip ++ String "." fp) = true).
  { rewrite forallb_s_app. cbn [forallb_s].
    rewrite (forallb_s_impl is_digit is_numeric_char ip),
            (forallb_s_impl is_digit is_numeric_char fp); try assumption;
      try (intros c Hc; unfold is_numeric_char; now rewrite Hc).
    reflexivity. }
  assert (Hfirst : exists c0 ip', ip = String c0 ip' /\ is_digit c0 = true).
  { destruct ip as [|c0 ip']; [discriminate|].
    cbn [forallb_s] in Hip. apply andb_prop in Hip as [Hc _]. eauto. }
  unfold float_of_string.
  destruct (Qnum x <? 0)%Z.
  - cbn [String.append].
    rewrite Hstrip by (cbn [forallb_s]; now rewrite Hnum).
    cbn [split_sign].
    destruct Hfirst as (c0 & ip' & Hipeq & Hc0).
    replace (nonfinite_text (ip ++ String "." fp)) with false
      by (rewrite Hipeq; cbn [String.append];
          now rewrite nonfinite_text_digit).
    unfold span_digitpart.
    rewrite (digitpart_app ip "." fp false Hip eq_refl eq_refl).
    rewrite (digitpart_all fp false Hfp).
    rewrite Hipeq.
    cbn [is_empty andb exponent_of bind]. rewrite <- Hipeq.
    rewrite Hval, Hlen. unfold rounded. fold r.
    f_equal. f_equal; lia.
  - cbn [String.append].
    rewrite Hstrip by exact Hnum.
    destruct Hfirst as (c0 & ip' & Hipeq & Hc0).
    assert (Hss : split_sign (ip ++ String "." fp) = (false, ip ++ String "." fp)).
    { rewrite Hipeq. cbn [String.append].
      destruct c0 as [[] [] [] [] [] [] [] []]; try reflexivity; discriminate. }
    rewrite Hss.
    replace (nonfinite_text (ip ++ String "." fp)) with false
      by (rewrite Hipeq; cbn [String.append];
          now rewrite nonfinite_text_digit).
    unfold span_digitpart.
    rewrite (digitpart_app ip "." fp false Hip eq_refl eq_refl).
    rewrite (digitpart_all fp false Hfp).
    rewrite Hipeq.
    cbn [is_empty andb exponent_of bind]. rewrite <- Hipeq.
    rewrite Hval, Hlen. unfold rounded. fold r.
    f_equal. f_equal; lia.
Qed.


Lemma fields_word sep w c s :
  forallb_s (fun c => negb (sep c)) w = true -> sep c = true ->
  fields sep (w ++ String c s) = w :: fields sep s.
Proof.
  intros Hw Hc. induction w as [|x w IH].
  - cbn [String.append fields]. now rewrite Hc.
  - cbn [forallb_s] in Hw. apply andb_prop in Hw as [Hx Hw].
    apply negb_true_iff in Hx.
    cbn [String.append fields]. now rewrite Hx, (IH Hw).
Qed.

Lemma tokens_sep sep c s : sep c = true -> tokens sep (String c s) = tokens sep s.
Proof. intros Hc. unfold tokens. cbn [fields]. now rewrite Hc. Qed.

Lemma tokens_skip sep a s :
  forallb_s sep a = true -> tokens sep (a ++ s) = tokens sep s.
Proof.
  induction a as [|c a IH]; [reflexivity|].
  cbn [forallb_s String.append]. intros H. apply andb_prop in H as [Hc Ha].
  now rewrite tokens_sep, IH.
Qed.

Lemma tokens_word sep w c s :
  nonempty w = true ->
  forallb_s (fun c => negb (sep c)) w = true -> sep c = true ->
  tokens sep (w ++ String c s) = w :: tokens sep s.
Proof.
  intros Hne Hw Hc. unfold tokens. rewrite (fields_word sep w c s Hw Hc).
  cbn [filter]. now rewrite Hne.
Qed.

Lemma blanks_app a b : blanks a ++ blanks b = blanks (a + b).
Proof. induction a as [|a IH]; [reflexivity|]. cbn [blanks Nat.add String.append]. now rewrite IH. Qed.





(** *** Integers and their text *)

Lemma split_sign_digits d : all_digits d = true -> split_sign d = (false, d).
Proof.
  unfold all_digits. destruct d as [|c d]; [discriminate|].
  cbn [nonempty is_empty negb forallb_s andb]. intros H.
  apply andb_prop in H as [Hc _].
  destruct c as [[] [] [] [] [] [] [] []]; try reflexivity;
    vm_compute in Hc; discriminate Hc.
Qed.

Lemma strip_digits d : forallb_s is_digit d = true -> strip d = d.
Proof.
  intros H. apply strip_set_none. revert H. apply forallb_s_impl.
  intros c Hc. now rewrite (digit_not_space c Hc).
Qed.

Lemma int_of_str_nat n : (0 <= n)%Z -> int_of_string (str_nat n) = Ok n.
Proof.
  intros Hn. pose proof (str_nat_all_digits n) as Hd.
  unfold int_of_string.
  rewrite strip_digits by (unfold all_digits in Hd; now apply andb_prop in Hd).
  rewrite (split_sign_digits _ Hd), (digits_of_all _ Hd).
  now rewrite digits_val_str_nat.
Qed.

Lemma int_of_str_int z : int_of_string (str_int z) = Ok z.
Proof.
  unfold str_int. destruct (Z.ltb_spec z 0) as [Hneg|Hpos].
  - pose proof (str_nat_all_digits (- z)) as Hd.
    unfold int_of_string.
    assert (Hs : strip (String "-" (str_nat (- z))) = String "-" (str_nat (- z))).
    { apply strip_set_none. cbn [forallb_s]. apply andb_true_intro.
      split; [reflexivity|].
      unfold all_digits in Hd. apply andb_prop in Hd as [_ Hd].
      revert Hd. apply forallb_s_impl. intros c Hc.
      now rewrite (digit_not_space c Hc). }
    rewrite Hs. cbn [split_sign]. rewrite (digits_of_all _ Hd).
    rewrite digits_val_str_nat by lia. f_equal. lia.
  - now apply int_of_str_nat.
Qed.

Lemma int_of_minus_str_nat n :
  (0 <= n)%Z -> int_of_string (String "-" (str_nat n)) = Ok (- n)%Z.
Proof.
  intros Hn. pose proof (str_nat_all_digits n) as Hd.
  unfold int_of_string.
  assert (Hs : strip (String "-" (str_nat n)) = String "-" (str_nat n)).
  { apply strip_set_none. cbn [forallb_s]. apply andb_true_intro.
    split; [reflexivity|].
    unfold all_digits in Hd. apply andb_prop in Hd as [_ Hd].
    revert Hd. apply forallb_s_impl. intros c Hc.
    now rewrite (digit_not_space c Hc). }
  rewrite Hs. cbn [split_sign]. rewrite (digits_of_all _ Hd).
  now rewrite digits_val_str_nat.
Qed.

Lemma round_half_even_unit x :
  round_half_even (x * inject_Z (pow10 0)) = round_half_even x.
Proof.
  unfold round_half_even. change (pow10 0) with 1%Z.
  destruct x as [n d]. cbn [Qmult Qnum Qden inject_Z].
  now rewrite Z.mul_1_r, Pos.mul_1_r.
Qed.

Lemma int_of_fmt_f_0 x : int_of_string (fmt_f 0 x) = Ok (round_half_even x).
Proof.
  rewrite fmt_f_shape. cbv zeta. rewrite append_nil_r.
  pose proof (round_half_even_sign (x * inject_Z (pow10 0))) as Hsg.
  rewrite round_half_even_unit in *.
  change (pow10 0) with 1%Z in *. rewrite Z.div_1_r.
  assert (Hq : Qnum (x * inject_Z 1) = Qnum x).
  { destruct x as [n d]. cbn [Qmult Qnum inject_Z]. apply Z.mul_1_r. }
  rewrite Hq in Hsg.
  destruct (Qnum x <? 0)%Z.
  - cbn [String.append]. rewrite int_of_minus_str_nat by lia. f_equal. lia.
  - cbn [String.append]. rewrite int_of_str_nat by lia. f_equal. lia.
Qed.

(** *** The text of a number as a word *)

Lemma fmt_f_numeric p x : forallb_s is_numeric_char (fmt_f p x) = true.
Proof.
  rewrite fmt_f_shape. cbv zeta.
  assert (Hd : forall s, forallb_s is_digit s = true ->
                         forallb_s is_numeric_char s = true).
  { intros s. apply forallb_s_impl. intros c Hc.
    unfold is_numeric_char. now rewrite Hc. }
  rewrite !forallb_s_app.
  pose proof (str_nat_all_digits
                (Z.abs (round_half_even (x * inject_Z (pow10 p))) / pow10 p))
    as H. apply andb_prop in H as [_ H]. rewrite (Hd _ H).
  destruct (Qnum x <? 0)%Z; destruct p; cbn [forallb_s andb];
    try reflexivity; rewrite ?(Hd _ (fixed_digits_all _ _)); reflexivity.
Qed.

Lemma fmt_f_nonempty p x : nonempty (fmt_f p x) = true.
Proof.
  rewrite fmt_f_shape. cbv zeta.
  pose proof (str_nat_all_digits
                (Z.abs (round_half_even (x * inject_Z (pow10 p))) / pow10 p))
    as H. apply andb_prop in H as [H _].
  destruct (Qnum x <? 0)%Z; [reflexivity|].
  cbn [String.append]. destruct (str_nat _); [discriminate | reflexivity].
Qed.

Lemma numeric_word s :
  forallb_s is_numeric_char s = true ->
  forallb_s (fun c => negb (is_space c)) s = true.
Proof.
  apply forallb_s_impl. intros c Hc. now rewrite (numeric_not_space c Hc).
Qed.

End TextFacts.

(** * Properties of the CRYSTAL calculator *)

Module CrystalFacts.
Import Text Num Crystal TextFacts.

(** The text of the file at [path] (empty when there is none). *)
Definition content (w : world) (path : string) : string :=
  default "" (fs w !! path).

Definition sample_atoms (mag : list Q) (periodic : bool * bool * bool) : Atoms :=
  {| symbols := ["H"]; positions := [(0, 0, 0)%Q];
     cell := ((0, 0, 0), (0, 0, 0), (0, 0, 0))%Q; pbc := periodic;
     initial_charges := [0%Q]; initial_magmoms := mag; masses := None |}.

Definition sample_calc (p : Parameters) (a : Atoms) : CRYSTAL :=
  {| parameters := p; pcpot := None; atoms := Some a; self_kpts := None;
     directory := "." |}.

Definition sto3g : Parameters :=
  {| xc := XcStr "HF"; spinpol := false; guess := true; kpts := None;
     isp := 1%Z; basis := "sto-3g"; smearing := None; otherkeys := [] |}.

Definition no_repr (x : Q) : string := "".


(** A world in which no file object is open. *)
Definition at_start (c : CRYSTAL) (files : filesys) : world :=
  {| calc := c; fs := files; written := ∅ |}.

(** *** What a piece of the writer may change

    [evolves R m]: running [m] takes the calculator to one related to it
    by [R], changes no file on disk, and only adds text at the end of what
    is written through the file objects. *)

Definition evolves {A} (R : CRYSTAL -> CRYSTAL -> Prop) (m : M world A)
  : Prop :=
  forall w w' r, m w = (w', r) ->
    R (calc w) (calc w') /\
    fs w' = fs w /\
    (forall f, exists t, text_of w' f = text_of w f ++ t).

Lemma text_of_write w f text g :
  text_of (fst (write f text w)) g =
  if decide (fileno f = fileno g) then text_of w g ++ text else text_of w g.
Proof.
  unfold text_of at 1; simpl. rewrite lookup_insert.
  destruct (decide (fileno f = fileno g)) as [E|]; [|reflexivity].
  unfold text_of. now rewrite E.
Qed.

Section Evolves.
Variable R : CRYSTAL -> CRYSTAL -> Prop.
Hypothesis R_refl : forall c, R c c.
Hypothesis R_trans : forall a b c, R a b -> R b c -> R a c.

Lemma evolves_pure {A} (x : res A) : evolves R (fun w => (w, x)).
Proof.
  intros w w' r [= <- <-]. split; [apply R_refl | split; [reflexivity |]].
  intros f. exists "". now rewrite append_nil_r.
Qed.

Lemma evolves_ret {A} (a : A) : evolves R (ret a).
Proof. apply evolves_pure. Qed.

Lemma evolves_raise {A} e : evolves R (@raise world A e).
Proof. apply evolves_pure. Qed.

Lemma evolves_lift {A} (x : res A) : evolves R (lift x).
Proof. apply evolves_pure. Qed.

Lemma evolves_get : evolves R (@get world).
Proof.
  intros w w' r [= <- <-]. split; [apply R_refl | split; [reflexivity |]].
  intros f. exists "". now rewrite append_nil_r.
Qed.

Lemma evolves_bind {A B} (m : M world A) (k : A -> M world B) :
  evolves R m -> (forall a, evolves R (k a)) -> evolves R (mbind m k).
Proof.
  intros Hm Hk w w' r. unfold mbind.
  destruct (m w) as [w1 [a|e]] eqn:E1; intros Hrun.
  - destruct (Hm _ _ _ E1) as (Hc1 & Hf1 & Hg1).
    destruct (Hk a _ _ _ Hrun) as (Hc2 & Hf2 & Hg2).
    split; [eapply R_trans; eauto | split].
    + now rewrite Hf2, Hf1.
    + intros f. destruct (Hg1 f) as [t1 H1], (Hg2 f) as [t2 H2].
      exists (t1 ++ t2). now rewrite H2, H1, append_assoc.
  - injection Hrun as <- <-. exact (Hm _ _ _ E1).
Qed.

Lemma evolves_for_each {A} (l : list A) (body : A -> M world unit) :
  (forall x, evolves R (body x)) -> evolves R (for_each l body).
Proof.
  intros Hb. induction l as [|x l IH]; simpl.
  - apply evolves_ret.
  - apply evolves_bind; [apply Hb | intros _; exact IH].
Qed.

Lemma evolves_when b (m : M world unit) :
  evolves R m -> evolves R (when b m).
Proof. intros Hm. destruct b; simpl; [exact Hm | apply evolves_ret]. Qed.

Lemma evolves_write f text : evolves R (write f text).
Proof.
  intros w w' r Hrun. pose proof (text_of_write w f text) as Hc.
  rewrite Hrun in Hc. injection Hrun as <- <-.
  split; [apply R_refl | split; [reflexivity|]].
  intros g. cbn [fst] in Hc. rewrite Hc.
  destruct (decide (fileno f = fileno g)); [eauto |].
  exists "". now rewrite append_nil_r.
Qed.

Lemma evolves_readlines path : evolves R (readlines path).
Proof.
  intros w w' r. unfold readlines.
  destruct (fs w !! path); apply evolves_pure.
Qed.

Lemma evolves_isfile path : evolves R (isfile path).
Proof.
  intros w w' r [= <- <-]. split; [apply R_refl | split; [reflexivity |]].
  intros f. exists "". now rewrite append_nil_r.
Qed.

End Evolves.

Lemma evolves_weaken {A} (R R' : CRYSTAL -> CRYSTAL -> Prop)
    (m : M world A) :
  (forall c c', R c c' -> R' c c') -> evolves R m -> evolves R' m.
Proof.
  intros HR Hm w w' r Hrun. destruct (Hm _ _ _ Hrun) as (Hc & Hf & Hg).
  split; [now apply HR | split; [exact Hf | exact Hg]].
Qed.

Lemma mbind_inv {S A B} (m : M S A) (k : A -> M S B) s s' r :
  mbind m k s = (s', r) ->
  (exists s1 a, m s = (s1, Ok a) /\ k a s1 = (s', r)) \/
  (exists e, m s = (s', Err e) /\ r = Err e).
Proof.
  unfold mbind. destruct (m s) as [s1 [a|e]]; intros H.
  - left. eauto.
  - right. injection H as <- <-. eauto.
Qed.

Lemma mbind_ok {S A B} (m : M S A) (k : A -> M S B) s s1 a :
  m s = (s1, Ok a) -> mbind m k s = k a s1.
Proof. intros H. unfold mbind. now rewrite H. Qed.

Lemma mbind_err {S A B} (m : M S A) (k : A -> M S B) s s1 e :
  m s = (s1, Err e) -> mbind m k s = (s1, Err e).
Proof. intros H. unfold mbind. now rewrite H. Qed.

Lemma mbind_assoc {S A B C} (m : M S A) (k : A -> M S B) (h : B -> M S C) s :
  mbind (mbind m k) h s = mbind m (fun a => mbind (k a) h) s.
Proof.
  unfold mbind. destruct (m s) as [s1 [a|e]]; reflexivity.
Qed.

Fixpoint concat_str (l : list string) : string :=
  match l with
  | [] => ""
  | x :: l' => x ++ concat_str l'
  end.

Lemma world_eta (w : world) :
  {| calc := calc w; fs := fs w; written := written w |} = w.
Proof. now destruct w. Qed.

Lemma for_each_write {A} (g : A -> string) f (l : list A) :
  forall w t, written w !! fileno f = Some t ->
    for_each l (fun x => write f (g x)) w =
    ({| calc := calc w; fs := fs w;
        written := <[fileno f := t ++ concat_str (map g l)]> (written w) |},
     Ok tt).
Proof.
  induction l as [|x l IH]; intros w t Ht; simpl.
  - unfold ret. rewrite append_nil_r, insert_id by exact Ht.
    now rewrite world_eta.
  - unfold mbind. unfold write at 1. unfold modify.
    rewrite (IH _ (t ++ g x)).
    + cbn [calc fs written]. rewrite insert_insert_eq.
      now rewrite append_assoc.
    + cbn [calc fs written]. unfold text_of. rewrite Ht.
      apply lookup_insert_eq.
Qed.

Lemma drop_nil n : drop n "" = "".
Proof. now destruct n. Qed.

Lemma overlay_nil text : overlay text "" = text.
Proof. unfold overlay. now rewrite drop_nil, append_nil_r. Qed.

Lemma fresh_ne (m : gmap nat string) n x : fresh (dom (<[n := x]> m)) <> n.
Proof.
  intros E. apply (is_fresh (dom (<[n := x]> m))). rewrite E.
  apply elem_of_dom. rewrite lookup_insert_eq. eauto.
Qed.

(** The file object the next [open] returns. *)
Definition next_file (w : world) (path : string) : file :=
  {| fileno := fresh (dom (written w)); name := path |}.

Lemma next_file_new w path : written w !! fileno (next_file w path) = None.
Proof. apply not_elem_of_dom, is_fresh. Qed.

(** The text of the point-charge file for the charges [ch] at [pos]. *)
Definition charge_file_text (pos : list vec3) (ch : list Q) : string :=
  (str_int (Z.of_nat (List.length ch)) ++ " " ++ nl)
  ++ concat_str (map charge_line (combine pos ch)).

Lemma write_mmcharges_some pc filename ch pos w :
  mmcharges pc = Some ch -> mmpositions pc = Some pos ->
  let path := path_join (pc_directory pc) filename in
  write_mmcharges pc filename w =
  ({| calc := calc w;
      fs := <[path := charge_file_text pos ch]> (fs w);
      written := <[fileno (next_file w path) := charge_file_text pos ch]>
                   (written w) |}, Ok tt).
Proof.
  intros Hc Hp path. unfold write_mmcharges. rewrite Hc, Hp. fold path.
  unfold mbind at 1. unfold open_w at 1. fold (next_file w path).
  set (f := next_file w path).
  unfold mbind at 1. unfold write at 1, modify at 1.
  unfold mbind at 1.
  rewrite (for_each_write charge_line f _ _
             (str_int (Z.of_nat (List.length ch)) ++ " " ++ nl)).
  - unfold close, modify. cbn [calc fs written]. unfold text_of.
    cbn [calc fs written name]. subst f. cbn [name].
    rewrite !lookup_insert_eq, !insert_insert_eq.
    unfold default, from_option, id. rewrite overlay_nil. reflexivity.
  - cbn [calc fs written]. unfold text_of. cbn [written].
    rewrite lookup_insert_eq, lookup_insert_eq. reflexivity.
Qed.

Lemma write_mmcharges_none pc filename w :
  mmcharges pc = None -> write_mmcharges pc filename w = (w, Ok tt).
Proof. intros Hc. unfold write_mmcharges. now rewrite Hc. Qed.

(** The calculator after a run differs from the one before at most in
    [spinpol], switched on for atoms with magnetic moments, and in the
    attribute [kpts]. *)
Definition is_magnetic (c : CRYSTAL) : bool :=
  match atoms c with
  | Some a => magnetic a
  | None => false
  end.

Definition settled (c c' : CRYSTAL) : Prop :=
  atoms c' = atoms c /\ pcpot c' = pcpot c /\ directory c' = directory c /\
  (parameters c' = parameters c \/
   (is_magnetic c = true /\
    parameters c' = set_spinpol true (parameters c))).

Lemma settled_refl c : settled c c.
Proof. unfold settled; tauto. Qed.

Lemma settled_trans a b c : settled a b -> settled b c -> settled a c.
Proof.
  unfold settled, is_magnetic.
  intros (Ha & Hp & Hd & Hq) (Ha' & Hp' & Hd' & Hq').
  repeat split; try congruence.
  rewrite Ha in Hq'.
  destruct Hq as [Hq|[Hm Hq]], Hq' as [Hq'|[Hm' Hq']].
  - left; congruence.
  - right; split; [assumption | congruence].
  - right; split; [assumption | congruence].
  - right; split; [assumption |]. rewrite Hq', Hq. reflexivity.
Qed.

Lemma eq_settled c c' : c' = c -> settled c c'.
Proof. intros ->. apply settled_refl. Qed.

Local Ltac step_evolves :=
  repeat first
    [ apply evolves_ret; [apply settled_refl]
    | apply evolves_raise; [apply settled_refl]
    | apply evolves_get; [apply settled_refl]
    | apply evolves_lift; [apply settled_refl]
    | apply evolves_isfile; [apply settled_refl]
    | apply evolves_readlines; [apply settled_refl]
    | (apply evolves_write; [apply settled_refl])
    | (apply evolves_when; [apply settled_refl|])
    | (apply evolves_for_each; [apply settled_refl | apply settled_trans | intros ?])
    | (apply evolves_bind; [apply settled_trans | | intros ?]) ].

(** Block 1 leaves the calculator as it is. *)
Definition keeps_calc {A} (m : M world A) : Prop :=
  forall w w' r, m w = (w', r) -> calc w' = calc w.

Lemma keeps_bind {A B} (m : M world A) (k : A -> M world B) :
  keeps_calc m -> (forall a, keeps_calc (k a)) -> keeps_calc (mbind m k).
Proof.
  intros Hm Hk w w' r Hrun.
  apply mbind_inv in Hrun as [(w1 & a & H1 & H2) | (e & H1 & _)].
  - rewrite (Hk a _ _ _ H2). exact (Hm _ _ _ H1).
  - exact (Hm _ _ _ H1).
Qed.

Lemma keeps_write f text : keeps_calc (write f text).
Proof. now intros w w' r [= <- <-]. Qed.

Lemma keeps_close f : keeps_calc (close f).
Proof. now intros w w' r [= <- <-]. Qed.

Lemma keeps_open_w path : keeps_calc (open_w path).
Proof. now intros w w' r [= <- <-]. Qed.

Lemma keeps_pure {A} (x : res A) : keeps_calc (fun w => (w, x)).
Proof. now intros w w' r [= <- <-]. Qed.

Lemma keeps_for_each {A} (l : list A) (body : A -> M world unit) :
  (forall x, keeps_calc (body x)) -> keeps_calc (for_each l body).
Proof.
  intros Hb. induction l as [|x l IH]; simpl.
  - apply (keeps_pure (Ok tt)).
  - apply keeps_bind; [apply Hb | intros _; exact IH].
Qed.

Lemma keeps_write_mmcharges pc filename :
  keeps_calc (write_mmcharges pc filename).
Proof.
  unfold write_mmcharges. destruct (mmcharges pc); [|apply (keeps_pure (Ok tt))].
  apply keeps_bind; [apply keeps_open_w | intros f].
  apply keeps_bind; [apply keeps_write | intros _].
  destruct (mmpositions pc); [|apply (keeps_pure (Err TypeError))].
  apply keeps_bind; [|intros _; apply keeps_close].
  apply keeps_for_each. intros x. apply keeps_write.
Qed.

Lemma keeps_geometry_block filename :
  keeps_calc (write_geometry_block filename).
Proof.
  unfold write_geometry_block.
  apply keeps_bind; [apply keeps_open_w | intros f].
  apply keeps_bind; [apply keeps_write | intros _].
  apply keeps_bind; [apply keeps_write | intros _].
  apply keeps_bind; [intros w w' r [= <- <-]; reflexivity | intros w].
  destruct (pcpot (calc w)); [|apply (keeps_pure (Ok f))].
  apply keeps_bind; [apply keeps_write | intros _].
  apply keeps_bind; [apply keeps_write_mmcharges | intros _].
  apply (keeps_pure (Ok f)).
Qed.

(** *** The files a run writes to

    [touches P m]: running [m] changes no file on disk outside [P]. *)
Definition touches {A} (P : string -> Prop) (m : M world A) : Prop :=
  forall w w' r, m w = (w', r) ->
    forall p, ~ P p -> fs w' !! p = fs w !! p.

Lemma touches_pure {A} P (x : res A) : touches P (fun w => (w, x)).
Proof. now intros w w' r [= <- <-]. Qed.

Lemma touches_bind {A B} P (m : M world A) (k : A -> M world B) :
  touches P m -> (forall a, touches P (k a)) -> touches P (mbind m k).
Proof.
  intros Hm Hk w w' r Hrun p Hp.
  apply mbind_inv in Hrun as [(w1 & a & H1 & H2) | (e & H1 & _)].
  - rewrite (Hk a _ _ _ H2 p Hp). exact (Hm _ _ _ H1 p Hp).
  - exact (Hm _ _ _ H1 p Hp).
Qed.

Lemma touches_write (P : string -> Prop) f text : touches P (write f text).
Proof. now intros w w' r [= <- <-]. Qed.

Lemma touches_open_w (P : string -> Prop) path :
  P path -> touches P (open_w path).
Proof.
  intros HP w w' r [= <- <-] p Hp. cbn [fs].
  apply lookup_insert_ne. intros ->. contradiction.
Qed.

Lemma touches_close (P : string -> Prop) f : P (name f) -> touches P (close f).
Proof.
  intros HP w w' r [= <- <-] p Hp. cbn [fs].
  apply lookup_insert_ne. intros <-. contradiction.
Qed.

Lemma touches_for_each {A} P (l : list A) (body : A -> M world unit) :
  (forall x, touches P (body x)) -> touches P (for_each l body).
Proof.
  intros Hb. induction l as [|x l IH]; simpl.
  - apply (touches_pure P (Ok tt)).
  - apply touches_bind; [apply Hb | intros _; exact IH].
Qed.

Lemma opened_name path w w' f : open_w path w = (w', Ok f) -> name f = path.
Proof. now intros [= <- <-]. Qed.

Lemma touches_write_mmcharges (P : string -> Prop) pc filename :
  P (path_join (pc_directory pc) filename) ->
  touches P (write_mmcharges pc filename).
Proof.
  intros HP. unfold write_mmcharges.
  destruct (mmcharges pc); [|apply (touches_pure P (Ok tt))].
  intros w w' r Hrun.
  apply mbind_inv in Hrun as [(w1 & f & H1 & Hrun) | (e & H1 & _)];
    [|discriminate H1].
  pose proof (opened_name _ _ _ _ H1) as Hf.
  intros p Hp.
  rewrite <- (touches_open_w P _ HP _ _ _ H1 p Hp).
  revert p Hp. generalize w1 w' r Hrun.
  change (touches P
    (write f (str_int (Z.of_nat (List.length l)) ++ " " ++ nl) ;;;
     match mmpositions pc with
     | Some pos =>
         for_each (combine pos l) (fun pcq => write f (charge_line pcq)) ;;;
         close f
     | None => raise TypeError
     end)).
  apply touches_bind; [apply touches_write | intros _].
  destruct (mmpositions pc); [|apply (touches_pure P (Err TypeError))].
  apply touches_bind; [|intros _; apply touches_close; now rewrite Hf].
  apply touches_for_each. intros x. apply touches_write.
Qed.

Section Blocks.
Variable Hartree : Q.
Variable repr_float : Q -> string.
Variable out : file.

Lemma evolves_write_basis p dir :
  evolves settled (write_basis out p dir).
Proof. unfold write_basis. destruct (String.eqb _ _); step_evolves. Qed.

Lemma evolves_write_hamiltonian x sp :
  evolves settled (write_hamiltonian out x sp).
Proof.
  unfold write_hamiltonian. destruct x as [name|x c].
  - destruct (String.eqb name "HF"); [destruct sp; step_evolves|].
    destruct (String.eqb name "MP2"); step_evolves.
  - step_evolves.
Qed.

Lemma evolves_write_smearing sm :
  evolves settled (write_smearing Hartree repr_float out sm).
Proof.
  unfold write_smearing. destruct sm as [[kind width]|]; [|step_evolves].
  destruct (negb _); step_evolves.
Qed.

Lemma evolves_write_otherkeys keys :
  evolves settled (write_otherkeys out keys).
Proof.
  unfold write_otherkeys. step_evolves. destruct x; step_evolves.
Qed.

Lemma evolves_write_shrink_values isp_ ispbc k :
  evolves settled (write_shrink_values out isp_ ispbc k).
Proof.
  unfold write_shrink_values. step_evolves.
  destruct ispbc as [[b0 b1] b2].
  destruct b2; [|destruct b1; [|destruct b0]]; step_evolves.
Qed.

Lemma evolves_write_shrink isp_ ispbc k :
  evolves settled (write_shrink out isp_ ispbc k).
Proof.
  unfold write_shrink.
  apply evolves_bind;
    [apply settled_trans | apply evolves_lift, settled_refl | intros x].
  destruct (is_kstr x); [apply evolves_raise, settled_refl|].
  apply evolves_bind; [apply settled_trans | | intros _].
  - apply evolves_write; apply settled_refl.
  - apply evolves_write_shrink_values.
Qed.

Lemma evolves_write_kpts isp_ ispbc k :
  evolves settled (write_kpts out isp_ ispbc k).
Proof.
  unfold write_kpts.
  destruct k as [[d|pts|l]|]; [| | apply evolves_write_shrink |];
    step_evolves.
Qed.

Lemma evolves_spin_on a w :
  atoms (calc w) = Some a -> magnetic a = true ->
  settled (calc w) (calc (spin_on w)).
Proof.
  intros Ha Hm. unfold settled, is_magnetic. rewrite Ha. simpl. tauto.
Qed.

Lemma evolves_get_bind {A} (k : world -> M world A) :
  (forall w w' r, k w w = (w', r) ->
     settled (calc w) (calc w') /\
     fs w' = fs w /\
     (forall f, exists t, text_of w' f = text_of w f ++ t)) ->
  evolves settled (mbind get k).
Proof. intros Hk w w' r Hrun. exact (Hk w w' r Hrun). Qed.

Lemma evolves_set_self_kpts k :
  evolves settled (modify (set_self_kpts k)).
Proof.
  intros w w' r [= <- <-]. split; [|split; [reflexivity|]].
  - unfold settled; simpl; tauto.
  - intros f. exists "". now rewrite append_nil_r.
Qed.

Lemma evolves_basis_block :
  evolves settled (write_basis_block out).
Proof.
  unfold write_basis_block. apply evolves_bind;
    [apply settled_trans | apply evolves_get, settled_refl | intros w].
  apply evolves_write_basis.
Qed.

Lemma evolves_parameter_block :
  evolves settled (write_parameter_block Hartree repr_float out).
Proof.
  unfold write_parameter_block. apply evolves_get_bind. intros w w' r.
  destruct (atoms (calc w)) as [a|] eqn:Ha;
    [|apply evolves_raise, settled_refl].
  intros Hrun. apply mbind_inv in Hrun.
  assert (Hrest : evolves settled
    (w1 <~ get ;;
     write_hamiltonian out (xc (parameters (calc w1)))
       (spinpol (parameters (calc w1))) ;;;
     when (guess (parameters (calc w1)))
       (b <~ isfile "fort.20" ;; when b (write out ("GUESSP " ++ nl))) ;;;
     write_smearing Hartree repr_float out (smearing (parameters (calc w1))) ;;;
     write_otherkeys out (otherkeys (parameters (calc w1))))).
  { apply evolves_bind;
      [apply settled_trans | apply evolves_get, settled_refl | intros w2].
    apply evolves_bind;
      [apply settled_trans | apply evolves_write_hamiltonian | intros _].
    apply evolves_bind; [apply settled_trans | | intros _].
    { apply evolves_when; [apply settled_refl|].
      apply evolves_bind;
        [apply settled_trans | apply evolves_isfile, settled_refl | intros b].
      apply evolves_when; [apply settled_refl|].
      apply evolves_write; apply settled_refl. }
    apply evolves_bind;
      [apply settled_trans | apply evolves_write_smearing | intros _].
    apply evolves_write_otherkeys. }
  destruct Hrun as [(w1 & [] & H1 & H2) | (e & H1 & ->)].
  - destruct (Hrest _ _ _ H2) as (Hc & Hf & Hg).
    destruct (magnetic a) eqn:Hm; simpl in H1; injection H1 as <-.
    + split; [|split].
      * eapply settled_trans; [eapply evolves_spin_on; eauto | exact Hc].
      * exact Hf.
      * exact Hg.
    + split; [exact Hc | split; [exact Hf | exact Hg]].
  - destruct (magnetic a); simpl in H1; discriminate H1.
Qed.

Lemma evolves_kpoints :
  evolves settled (write_kpoints out).
Proof.
  unfold write_kpoints. apply evolves_bind;
    [apply settled_trans | apply evolves_get, settled_refl | intros w].
  destruct (atoms (calc w)); [|apply evolves_raise, settled_refl].
  apply evolves_bind;
    [apply settled_trans | apply evolves_set_self_kpts | intros _].
  apply evolves_write_kpts.
Qed.

(** What [write_crystal_in] writes after block 1, and its last step. *)
Definition later_blocks : M world unit :=
  write_basis_block out ;;;
  write_parameter_block Hartree repr_float out ;;;
  write_kpoints out ;;;
  write out ("GRADCAL " ++ nl) ;;;
  write out ("END " ++ nl).

Definition after_geometry : M world unit :=
  later_blocks ;;; close out.

Lemma evolves_later_blocks : evolves settled later_blocks.
Proof.
  unfold later_blocks.
  apply evolves_bind; [apply settled_trans | apply evolves_basis_block | intros _].
  apply evolves_bind; [apply settled_trans | apply evolves_parameter_block | intros _].
  apply evolves_bind; [apply settled_trans | apply evolves_kpoints | intros _].
  step_evolves.
Qed.

Lemma after_geometry_inv w w' r :
  after_geometry w = (w', r) ->
  exists w2,
    later_blocks w = (w2, r) /\
    settled (calc w) (calc w') /\ written w' = written w2 /\
    (forall f, exists t, text_of w' f = text_of w f ++ t) /\
    match r with
    | Ok _ =>
        fs w' = <[name out := overlay (text_of w2 out)
                                (default "" (fs w !! name out))]> (fs w)
    | Err _ => fs w' = fs w
    end.
Proof.
  unfold after_geometry. intros Hrun.
  apply mbind_inv in Hrun as [(w2 & [] & H1 & H2) | (e & H1 & ->)].
  - destruct (evolves_later_blocks _ _ _ H1) as (Hc & Hf & Hg).
    injection H2 as <- <-. exists w2. cbn [calc fs written].
    split; [exact H1 | split; [exact Hc | split; [reflexivity | split]]].
    + intros f. destruct (Hg f) as [t Ht]. exists t. exact Ht.
    + now rewrite Hf.
  - destruct (evolves_later_blocks _ _ _ H1) as (Hc & Hf & Hg).
    exists w'.
    split; [exact H1 | split; [exact Hc | split; [reflexivity | split]]];
      assumption.
Qed.

Lemma touches_after_geometry : touches (fun p => p = name out) after_geometry.
Proof.
  intros w w' r Hrun p Hp.
  destruct (after_geometry_inv _ _ _ Hrun) as (w2 & _ & _ & _ & _ & Hfs).
  destruct r; rewrite Hfs; [|reflexivity].
  apply lookup_insert_ne. intros E. now apply Hp.
Qed.

End Blocks.

Section Run.
Variable Hartree : Q.
Variable repr_float : Q -> string.
Variable filename : string.

Lemma write_crystal_in_split w :
  write_crystal_in Hartree repr_float filename w =
  mbind (write_geometry_block filename)
        (fun out => after_geometry Hartree repr_float out) w.
Proof.
  unfold write_crystal_in, write_blocks, after_geometry, later_blocks.
  unfold mbind.
  destruct (write_geometry_block filename w) as [w1 [out|e]]; [|reflexivity].
  destruct (write_basis_block out w1) as [w2 [[]|e]]; [|reflexivity].
  destruct (write_parameter_block Hartree repr_float out w2)
    as [w3 [[]|e]]; [|reflexivity].
  unfold ret.
  destruct (write_kpoints out w3) as [w4 [[]|e]]; reflexivity.
Qed.

(** Block 1 opens the input file; what is on disk at its path afterwards
    is empty unless the file of the point charges has the same path. *)
Lemma geometry_block_opens w w1 out :
  write_geometry_block filename w = (w1, Ok out) ->
  name out = filename /\
  ((forall pc, pcpot (calc w) = Some pc ->
      filename <> path_join (pc_directory pc) "POINTCHG.INP") ->
   fs w1 !! filename = Some "").
Proof.
  unfold write_geometry_block. intros Hrun.
  apply mbind_inv in Hrun as [(wa & f & H1 & Hrun) | (e & H1 & He)];
    [|discriminate He].
  pose proof (opened_name _ _ _ _ H1) as Hf.
  assert (Hfs : fs wa !! filename = Some "").
  { injection H1 as <- _. cbn [fs]. apply lookup_insert_eq. }
  assert (Hca : calc wa = calc w) by exact (keeps_open_w _ _ _ _ H1).
  apply mbind_inv in Hrun as [(wb & [] & H2 & Hrun) | (e & H2 & He)];
    [|discriminate He].
  injection H2 as <-.
  apply mbind_inv in Hrun as [(wc & [] & H3 & Hrun) | (e & H3 & He)];
    [|discriminate He].
  injection H3 as <-.
  apply mbind_inv in Hrun as [(wd & we & H4 & Hrun) | (e & H4 & He)];
    [|discriminate He].
  injection H4 as <- <-. cbn [calc] in Hrun. rewrite Hca in Hrun.
  destruct (pcpot (calc w)) as [pc|] eqn:Hpc.
  - apply mbind_inv in Hrun as [(wf & [] & H5 & Hrun) | (e & H5 & He)];
      [|discriminate He].
    injection H5 as <-.
    apply mbind_inv in Hrun as [(wg & [] & H6 & Hrun) | (e & H6 & He)];
      [|discriminate He].
    injection Hrun as <- <-. split; [exact Hf|]. intros Hne.
    rewrite (touches_write_mmcharges
               (fun p => p = path_join (pc_directory pc) "POINTCHG.INP")
               pc "POINTCHG.INP" eq_refl _ _ _ H6 filename (Hne pc eq_refl)).
    cbn [fs]. exact Hfs.
  - injection Hrun as <- <-. split; [exact Hf|]. intros _. exact Hfs.
Qed.

Lemma geometry_block_run w pc ch pos :
  pcpot (calc w) = Some pc -> mmcharges pc = Some ch ->
  mmpositions pc = Some pos ->
  exists w1 out,
    write_geometry_block filename w = (w1, Ok out) /\
    text_of w1 out =
      ("Single point + Gradient crystal calculation " ++ nl)
      ++ ("EXTERNAL " ++ nl) ++ ("POINTCHG " ++ nl) /\
    fs w1 !! path_join (pc_directory pc) "POINTCHG.INP" =
      Some (charge_file_text pos ch).
Proof.
  intros Hpc Hch Hpos. unfold write_geometry_block.
  unfold mbind at 1. unfold open_w at 1. fold (next_file w filename).
  set (f := next_file w filename).
  unfold mbind at 1. unfold write at 1, modify at 1.
  unfold mbind at 1. unfold write at 1, modify at 1.
  unfold mbind at 1. unfold get at 1. cbn [calc fs]. rewrite Hpc.
  unfold mbind at 1. unfold write at 1, modify at 1. cbn [calc fs written].
  unfold mbind at 1.
  rewrite (write_mmcharges_some _ _ ch pos) by assumption.
  cbn [calc fs written]. unfold ret.
  eexists _, f; split; [reflexivity | split].
  - unfold text_of. cbn [written calc fs].
    rewrite lookup_insert_ne by apply fresh_ne.
    rewrite !lookup_insert_eq. unfold default, from_option, id.
    rewrite !append_assoc. reflexivity.
  - cbn [fs]. apply lookup_insert_eq.
Qed.

(** The calculator after a run of the writer, or of its first blocks. *)
Lemma settled_write_blocks w w' r :
  write_blocks Hartree repr_float filename w = (w', r) ->
  settled (calc w) (calc w').
Proof.
  unfold write_blocks. intros Hrun.
  apply mbind_inv in Hrun as [(w1 & out & H1 & H2) | (e & H1 & _)].
  - apply (keeps_geometry_block filename) in H1. rewrite <- H1.
    assert (He : evolves settled
              (write_basis_block out ;;;
               write_parameter_block Hartree repr_float out ;;;
               ret out)).
    { apply evolves_bind;
        [apply settled_trans | apply evolves_basis_block | intros _].
      apply evolves_bind;
        [apply settled_trans | apply evolves_parameter_block | intros _].
      apply evolves_ret, settled_refl. }
    exact (proj1 (He _ _ _ H2)).
  - apply eq_settled. exact (keeps_geometry_block filename _ _ _ H1).
Qed.

Lemma settled_write_crystal_in w w' r :
  write_crystal_in Hartree repr_float filename w = (w', r) ->
  settled (calc w) (calc w').
Proof.
  rewrite write_crystal_in_split. intros Hrun.
  apply mbind_inv in Hrun as [(w1 & out & H1 & H2) | (e & H1 & _)].
  - apply (keeps_geometry_block filename) in H1. rewrite <- H1.
    destruct (after_geometry_inv _ _ _ _ _ _ H2) as (_ & _ & Hs & _).
    exact Hs.
  - apply eq_settled. exact (keeps_geometry_block filename _ _ _ H1).
Qed.

End Run.

(** *** Pieces that only write

    [appends f t m]: from every state [m] finishes, leaves the calculator
    and the disk as they are and writes [t] through [f];
    [stops f t e m]: the same, but [m] is stopped by [e] after writing
    [t]. *)
Definition appends (f : file) (t : string) (m : M world unit) : Prop :=
  forall w, exists w',
    m w = (w', Ok tt) /\ calc w' = calc w /\ fs w' = fs w /\
    text_of w' f = text_of w f ++ t.

Definition stops {A} (f : file) (t : string) (e : exn) (m : M world A)
  : Prop :=
  forall w, exists w',
    m w = (w', Err e) /\ calc w' = calc w /\ fs w' = fs w /\
    text_of w' f = text_of w f ++ t.

Lemma appends_write f t : appends f t (write f t).
Proof.
  intros w. exists (fst (write f t w)).
  split; [reflexivity | split; [reflexivity | split; [reflexivity|]]].
  rewrite text_of_write. now destruct (decide (fileno f = fileno f)).
Qed.

Lemma appends_ret f : appends f "" (ret tt).
Proof.
  intros w. exists w. repeat split. now rewrite append_nil_r.
Qed.

Lemma appends_bind f t1 t2 (m k : M world unit) :
  appends f t1 m -> appends f t2 k -> appends f (t1 ++ t2) (m ;;; k).
Proof.
  intros Hm Hk w. destruct (Hm w) as (w1 & H1 & C1 & F1 & T1).
  destruct (Hk w1) as (w2 & H2 & C2 & F2 & T2). exists w2.
  rewrite (mbind_ok _ _ _ _ _ H1).
  split; [exact H2 | split; [congruence | split; [congruence|]]].
  now rewrite T2, T1, append_assoc.
Qed.

Lemma stops_raise {A} f e : stops f "" e (@raise world A e).
Proof.
  intros w. exists w. repeat split. now rewrite append_nil_r.
Qed.

Lemma stops_first {A B} f t e (m : M world A) (k : A -> M world B) :
  stops f t e m -> stops f t e (mbind m k).
Proof.
  intros Hm w. destruct (Hm w) as (w1 & H1 & C1 & F1 & T1). exists w1.
  now rewrite (mbind_err _ _ _ _ _ H1).
Qed.

Lemma stops_after {A} f t1 t2 e (m : M world unit) (k : M world A) :
  appends f t1 m -> stops f t2 e k -> stops f (t1 ++ t2) e (m ;;; k).
Proof.
  intros Hm Hk w. destruct (Hm w) as (w1 & H1 & C1 & F1 & T1).
  destruct (Hk w1) as (w2 & H2 & C2 & F2 & T2). exists w2.
  rewrite (mbind_ok _ _ _ _ _ H1).
  split; [exact H2 | split; [congruence | split; [congruence|]]].
  now rewrite T2, T1, append_assoc.
Qed.

Lemma kints_map ns : kints (map KInt ns) = Ok ns.
Proof. induction ns as [|n ns IH]; [reflexivity|]. simpl. now rewrite IH. Qed.

Lemma kints_ok l : forall ns, kints l = Ok ns -> l = map KInt ns.
Proof.
  induction l as [|[n|s] l IH]; intros ns H; simpl in H.
  - now injection H as <-.
  - destruct (kints l) as [r|e]; [|discriminate H].
    injection H as <-. simpl. now rewrite (IH r eq_refl).
  - discriminate H.
Qed.

Lemma kints_err l e : kints l = Err e -> e = TypeError.
Proof.
  induction l as [|[n|s] l IH]; simpl; intros H.
  - discriminate H.
  - destruct (kints l) as [r|e']; [discriminate H|].
    injection H as <-. now apply IH.
  - now injection H as <-.
Qed.

Lemma write_kpoints_run out w a :
  atoms (calc w) = Some a ->
  let k := effective_kpts (kpts (parameters (calc w))) (pbc a) in
  write_kpoints out w =
  write_kpts out (isp (parameters (calc w))) (pbc a) k (set_self_kpts k w).
Proof.
  intros Ha k. unfold write_kpoints, mbind, get, modify. now rewrite Ha.
Qed.

(** The end of a run: the last two lines, and the input file closed. *)
Lemma last_lines_run out w :
  exists w',
    (write out ("GRADCAL " ++ nl) ;;; write out ("END " ++ nl) ;;;
     close out) w = (w', Ok tt) /\
    calc w' = calc w /\
    text_of w' out = text_of w out ++ ("GRADCAL " ++ nl) ++ ("END " ++ nl) /\
    fs w' = <[name out := overlay (text_of w' out)
                            (default "" (fs w !! name out))]> (fs w).
Proof.
  destruct (appends_bind out _ _ _ _
              (appends_write out ("GRADCAL " ++ nl))
              (appends_write out ("END " ++ nl)) w)
    as (w1 & H1 & C1 & F1 & T1).
  exists (fst (close out w1)).
  change (write out ("GRADCAL " ++ nl) ;;; write out ("END " ++ nl) ;;;
          close out)
    with (write out ("GRADCAL " ++ nl) ;;;
          (write out ("END " ++ nl) ;;; close out)).
  rewrite <- mbind_assoc, (mbind_ok _ _ _ _ _ H1).
  split; [reflexivity | cbn [fst close modify calc fs]].
  split; [exact C1 | split].
  - exact T1.
  - rewrite F1. reflexivity.
Qed.

(** ** The claims on the CRYSTAL calculator *)

Lemma charge_line_fields x y z q :
  split_ws (charge_line ((x, y, z), q)) =
  [fmt_f 6 x; fmt_f 6 y; fmt_f 6 z; fmt_f 6 q].
Proof.
  unfold charge_line, fmt_wf, rjust, split_ws.
  pose proof (fun x => numeric_word _ (fmt_f_numeric 6 x)) as Hw.
  pose proof (fmt_f_nonempty 6) as Hne.
  rewrite !append_assoc. cbn [String.append].
  rewrite tokens_skip by apply forallb_s_blanks.
  rewrite tokens_word by auto.
  rewrite tokens_skip by apply forallb_s_blanks.
  rewrite tokens_word by auto.
  rewrite tokens_skip by apply forallb_s_blanks.
  rewrite tokens_word by auto.
  rewrite tokens_skip by apply forallb_s_blanks.
  rewrite tokens_word by auto.
  reflexivity.
Qed.

(** C6, as the code has it.  After [embed] with a list of point charges
    and [set_positions], the calculator has a potential with these charges
    and positions.  A finished [write_crystal_in] leaves the input file
    with the keyword [POINTCHG] as its third line.  [write_mmcharges]
    finishes and leaves in the file [POINTCHG.INP] of the calculator's
    directory the number of charges on the first line, then one line for
    each pair of a position and a charge ([zip]): as many lines as there
    are charges or positions, whichever are fewer.  Each of these lines
    holds four numbers, which read back as the coordinates and the charge
    rounded to six decimals.  After a run of [write_crystal_in], finished
    or stopped, with another file as input file, [POINTCHG.INP] holds this
    text.  With charges [None], [write_mmcharges] changes nothing. *)
Theorem pointcharges_written
    (Hartree : Q) (repr_float : Q -> string) (c : CRYSTAL)
    (charges : list Q) (pos : list vec3) (filename : string)
    (fs0 : filesys) (written0 : gmap nat string) :
  let w := {| calc := embed_at (Some charges) pos c; fs := fs0;
              written := written0 |} in
  let pc := {| mmcharges := Some charges; pc_directory := directory c;
               mmpositions := Some pos |} in
  let charge_path := path_join (directory c) "POINTCHG.INP" in
  let run := write_crystal_in Hartree repr_float filename w in
  let charge_text :=
    (str_int (Z.of_nat (List.length charges)) ++ " " ++ nl)
    ++ concat_str (map charge_line (combine pos charges)) in
  pcpot (calc w) = Some pc /\
  (snd run = Ok tt ->
   exists rest,
     fs (fst run) !! filename =
       Some (("Single point + Gradient crystal calculation " ++ nl)
             ++ ("EXTERNAL " ++ nl) ++ ("POINTCHG " ++ nl) ++ rest)) /\
  (forall w0,
     snd (write_mmcharges pc "POINTCHG.INP" w0) = Ok tt /\
     fs (fst (write_mmcharges pc "POINTCHG.INP" w0)) !! charge_path =
       Some charge_text) /\
  (filename <> charge_path ->
   fs (fst run) !! charge_path = Some charge_text) /\
  List.length (combine pos charges) =
    Nat.min (List.length pos) (List.length charges) /\
  (forall x y z q,
     map float_of_string (split_ws (charge_line ((x, y, z), q))) =
     [Ok (rounded 6 x); Ok (rounded 6 y); Ok (rounded 6 z);
      Ok (rounded 6 q)]) /\
  (forall pc' fname w0,
     mmcharges pc' = None -> write_mmcharges pc' fname w0 = (w0, Ok tt)).
Proof.
  intros w pc charge_path run charge_text.
  destruct (geometry_block_run filename w pc charges pos
              eq_refl eq_refl eq_refl) as (w1 & out & Hrun & Hout & Hcf).
  cbn [pc_directory pc] in Hcf. fold charge_path in Hcf.
  fold charge_text in Hcf.
  destruct (after_geometry Hartree repr_float out w1) as [w2 r] eqn:E.
  assert (Hw : run = (w2, r)).
  { subst run. rewrite write_crystal_in_split.
    now rewrite (mbind_ok _ _ _ _ _ Hrun). }
  destruct (after_geometry_inv _ _ _ _ _ _ E)
    as (w3 & Hlater & _ & Hwr & Hg & Hfs).
  destruct (geometry_block_opens filename _ _ _ Hrun) as [Hname _].
  rewrite Hw. cbn [fst snd].
  split; [reflexivity | split; [|split; [|split; [|split; [|split]]]]].
  - intros ->. rewrite Hfs, Hname, lookup_insert_eq.
    destruct (evolves_later_blocks _ _ _ _ _ _ Hlater) as (_ & _ & Hg3).
    destruct (Hg3 out) as [t Ht]. rewrite Ht, Hout. unfold overlay.
    eexists. rewrite !append_assoc. reflexivity.
  - intros w0.
    rewrite (write_mmcharges_some pc "POINTCHG.INP" charges pos w0
               eq_refl eq_refl).
    cbn [fst snd fs]. split; [reflexivity | apply lookup_insert_eq].
  - intros Hne. destruct r.
    + rewrite Hfs, Hname, lookup_insert_ne by exact Hne. exact Hcf.
    + rewrite Hfs. exact Hcf.
  - rewrite List.length_combine. reflexivity.
  - intros x y z q. rewrite charge_line_fields. cbn [map].
    rewrite !float_of_fmt_f by discriminate. reflexivity.
  - intros pc' fname w0. apply write_mmcharges_none.
Qed.

Lemma pointcharges_written_witness :
  let c := sample_calc sto3g (sample_atoms [] (false, false, false)) in
  let run := write_crystal_in 1%Q no_repr "INPUT"
               (at_start (embed_at (Some [1%Q; (-1 # 2)%Q])
                            [(0, 0, 1)%Q; (1 # 3, 2, 3)%Q] c) ∅) in
  fs (fst run) !! "./POINTCHG.INP" =
    Some ("2 " ++ nl
          ++ "    0.000000     0.000000     1.000000     1.000000 " ++ nl
          ++ "    0.333333     2.000000     3.000000    -0.500000 " ++ nl) /\
  exists rest,
    fs (fst run) !! "INPUT" =
      Some (("Single point + Gradient crystal calculation " ++ nl)
            ++ ("EXTERNAL " ++ nl) ++ ("POINTCHG " ++ nl) ++ rest).
Proof.
  intros c run.
  destruct (pointcharges_written 1%Q no_repr c
              [1%Q; (-1 # 2)%Q] [(0, 0, 1)%Q; (1 # 3, 2, 3)%Q] "INPUT" ∅ ∅)
    as (_ & Hin & _ & Hcf & _).
  split.
  - refine (eq_trans (Hcf _) _);
      [vm_compute; discriminate | vm_compute; reflexivity].
  - apply Hin. vm_compute. reflexivity.
Defined.

(** C6 as it is stated fails when fewer positions than charges are set: of
    two charges with one position, the file gives the number 2 and one
    line.  And the file of the point charges does not keep its text when
    it is the input file as well: the text of the input file is written
    over it. *)
Lemma fewer_lines_than_charges_counterexample :
  let c := sample_calc sto3g (sample_atoms [] (false, false, false)) in
  let w := at_start (embed_at (Some [1%Q; (-1)%Q]) [(0, 0, 1)%Q] c) ∅ in
  (snd (write_crystal_in 1%Q no_repr "INPUT" w) = Ok tt /\
   fs (fst (write_crystal_in 1%Q no_repr "INPUT" w)) !! "./POINTCHG.INP" =
     Some ("2 " ++ nl
           ++ "    0.000000     0.000000     1.000000     1.000000 " ++ nl)) /\
  (snd (write_crystal_in 1%Q no_repr "./POINTCHG.INP" w) = Ok tt /\
   fs (fst (write_crystal_in 1%Q no_repr "./POINTCHG.INP" w))
     !! "./POINTCHG.INP" =
     Some (("Single point + Gradient crystal calculation " ++ nl)
           ++ ("EXTERNAL " ++ nl) ++ ("POINTCHG " ++ nl)
           ++ ("BASISSET " ++ nl) ++ ("STO-3G" ++ nl) ++ ("RHF " ++ nl)
           ++ ("GRADCAL " ++ nl) ++ ("END " ++ nl))).
Proof. vm_compute. repeat split; reflexivity. Qed.

Lemma last_some {A} (l : list A) (x : A) :
  l <> [] -> List.last (map Some l) None = Some (List.last l x).
Proof.
  induction l as [|a [|b l] IH]; intros H; [contradiction | reflexivity |].
  change (List.last (map Some (b :: l)) None = Some (List.last (b :: l) x)).
  apply IH. discriminate.
Qed.

Section Shrink.
Variable out : file.
Variable isp_ : Z.

Abbreviation shrink_head m :=
  (("SHRINK  " ++ nl) ++ ("0 " ++ str_int (isp_ * m) ++ " " ++ nl)).

(** The [SHRINK] section of a tuple of integers: what is written, and the
    exception for a tuple that is too short. *)
Lemma shrink_values_run (ispbc : bool * bool * bool) (ns : list Z) n r :
  ns = n :: r -> any3 ispbc = true ->
  let k := map KInt ns in
  let m := fold_left Z.max r n in
  match ispbc, ns with
  | (_, _, true), n0 :: n1 :: n2 :: _ =>
      appends out (shrink_head m ++
                   (str_int n0 ++ " " ++ str_int n1 ++ " " ++ str_int n2
                    ++ " " ++ nl))
              (write out ("SHRINK  " ++ nl) ;;;
               write_shrink_values out isp_ ispbc k)
  | (_, true, false), n0 :: n1 :: _ =>
      appends out (shrink_head m ++
                   (str_int n0 ++ " " ++ str_int n1 ++ " 1 " ++ nl))
              (write out ("SHRINK  " ++ nl) ;;;
               write_shrink_values out isp_ ispbc k)
  | (true, false, false), n0 :: _ =>
      appends out (shrink_head m ++ (str_int n0 ++ " 1 1 " ++ nl))
              (write out ("SHRINK  " ++ nl) ;;;
               write_shrink_values out isp_ ispbc k)
  | _, _ =>
      stops out (shrink_head m) IndexError
            (write out ("SHRINK  " ++ nl) ;;;
             write_shrink_values out isp_ ispbc k)
  end.
Proof.
  intros Hns Hany k m. subst k.
  assert (Hmax : kmax (map KInt ns) = Ok m).
  { unfold kmax. rewrite kints_map, Hns. reflexivity. }
  assert (Hhead : forall (rest : M world unit) t,
            appends out t rest ->
            appends out (shrink_head m ++ t)
              (write out ("SHRINK  " ++ nl) ;;;
               (mx <~ lift (kmax (map KInt ns)) ;;
                write out ("0 " ++ str_int (isp_ * mx) ++ " " ++ nl) ;;;
                rest))).
  { intros rest t Hrest. rewrite append_assoc.
    apply appends_bind; [apply appends_write|].
    rewrite Hmax. intros w0.
    destruct (appends_bind out _ _ _ _
                (appends_write out ("0 " ++ str_int (isp_ * m) ++ " " ++ nl))
                Hrest w0) as (w' & H & ?).
    exists w'. split; [exact H | assumption]. }
  assert (Hfail : forall (rest : M world unit),
            stops out "" IndexError rest ->
            stops out (shrink_head m)  IndexError
              (write out ("SHRINK  " ++ nl) ;;;
               (mx <~ lift (kmax (map KInt ns)) ;;
                write out ("0 " ++ str_int (isp_ * mx) ++ " " ++ nl) ;;;
                rest))).
  { intros rest Hrest.
    apply stops_after; [apply appends_write|].
    rewrite Hmax. intros w0.
    destruct (stops_after out _ _ _ _ _
                (appends_write out ("0 " ++ str_int (isp_ * m) ++ " " ++ nl))
                Hrest w0) as (w' & H & C & F & T).
    exists w'. rewrite append_nil_r in T.
    split; [exact H | split; [exact C | split; [exact F | exact T]]]. }
  unfold write_shrink_values.
  destruct ispbc as [[[] []] []]; try discriminate Hany;
    destruct ns as [|n0 [|n1 [|n2 ns']]]; try discriminate Hns;
    cbv beta iota;
    first [ apply Hhead; intros w0; exact (appends_write out _ w0)
          | apply Hfail; intros w0; exists w0;
            split; [reflexivity | now rewrite append_nil_r] ].
Qed.

End Shrink.

Lemma blocks_open_file Hartree repr_float filename w w1 out :
  write_blocks Hartree repr_float filename w = (w1, Ok out) ->
  name out = filename.
Proof.
  unfold write_blocks. intros Hrun.
  apply mbind_inv in Hrun as [(wa & f & H1 & Hrun) | (e & _ & He)];
    [|discriminate He].
  apply mbind_inv in Hrun as [(wb & [] & _ & Hrun) | (e & _ & He)];
    [|discriminate He].
  apply mbind_inv in Hrun as [(wc & [] & _ & Hrun) | (e & _ & He)];
    [|discriminate He].
  injection Hrun as _ <-.
  exact (proj1 (geometry_block_opens filename _ _ _ H1)).
Qed.

(** The k-point block and the end of the run, when the block only
    writes. *)
Lemma kpoints_then_end out (m : M world unit) w t :
  appends out t m ->
  let run := (m ;;; write out ("GRADCAL " ++ nl) ;;;
              write out ("END " ++ nl) ;;; close out) w in
  snd run = Ok tt /\ calc (fst run) = calc w /\
  text_of (fst run) out =
    text_of w out ++ t ++ ("GRADCAL " ++ nl) ++ ("END " ++ nl) /\
  exists rest, fs (fst run) !! name out = Some (text_of (fst run) out ++ rest).
Proof.
  intros Hm run. destruct (Hm w) as (w1 & H1 & C1 & F1 & T1).
  destruct (last_lines_run out w1) as (w2 & H2 & C2 & T2 & F2).
  assert (Hrun : run = (w2, Ok tt)).
  { subst run. now rewrite (mbind_ok _ _ _ _ _ H1). }
  rewrite Hrun. cbn [fst snd].
  split; [reflexivity | split; [congruence | split]].
  - now rewrite T2, T1, append_assoc.
  - rewrite F2, lookup_insert_eq. unfold overlay. eauto.
Qed.

Lemma kpoints_then_stop out (m : M world unit) w t e :
  stops out t e m ->
  let run := (m ;;; write out ("GRADCAL " ++ nl) ;;;
              write out ("END " ++ nl) ;;; close out) w in
  snd run = Err e /\ calc (fst run) = calc w /\
  text_of (fst run) out = text_of w out ++ t.
Proof.
  intros Hm run. destruct (Hm w) as (w1 & H1 & C1 & F1 & T1).
  assert (Hrun : run = (w1, Err e)).
  { subst run. now rewrite (mbind_err _ _ _ _ _ H1). }
  rewrite Hrun. cbn [fst snd]. auto.
Qed.

(** C7, as the code has it.  Once the blocks before the k-point block are
    written without an exception, the attribute [kpts] of the calculator
    is [None] for atoms without periodicity, and for periodic atoms the
    value of the parameter, or [(1, 1, 1)] when that is [None].  With
    [None], nothing is checked, no [SHRINK] section is written and the run
    finishes.  A density and an explicit list raise [ValueError], and so
    does a tuple ending in a string; an empty tuple raises [IndexError];
    nothing is written for the block in these cases.  For any other tuple
    the line [SHRINK] is written; a string among its entries then raises
    [TypeError]; for a tuple of integers the line with [isp] times their
    maximum follows, and then the line of the k-points along the periodic
    directions, or [IndexError] when the tuple has fewer entries than the
    highest periodic direction asks for.  A finished run leaves the input
    file starting with the text written. *)
Theorem kpoints_checked
    (Hartree : Q) (repr_float : Q -> string) (filename : string)
    (w w1 : world) (out : file) (a : Atoms) :
  atoms (calc w) = Some a ->
  write_blocks Hartree repr_float filename w = (w1, Ok out) ->
  let p := parameters (calc w) in
  let run := write_crystal_in Hartree repr_float filename w in
  let k := if any3 (pbc a)
           then Some (default (KTuple [KInt 1; KInt 1; KInt 1]) (kpts p))
           else None in
  let added := fun t => text_of (fst run) out = text_of w1 out ++ t in
  let head := fun m =>
    ("SHRINK  " ++ nl) ++ ("0 " ++ str_int (isp p * m) ++ " " ++ nl) in
  let tail := ("GRADCAL " ++ nl) ++ ("END " ++ nl) in
  self_kpts (calc (fst run)) = k /\
  (snd run = Ok tt ->
   exists rest,
     fs (fst run) !! filename = Some (text_of (fst run) out ++ rest)) /\
  match k with
  | None => snd run = Ok tt /\ added tail
  | Some (KFloat _) | Some (KList _) => snd run = Err ValueError /\ added ""
  | Some (KTuple l) =>
      match List.last (map Some l) None with
      | None => snd run = Err IndexError /\ added ""
      | Some (KStr _) => snd run = Err ValueError /\ added ""
      | Some (KInt _) =>
          match kints l with
          | Err _ => snd run = Err TypeError /\ added ("SHRINK  " ++ nl)
          | Ok ns =>
              let m := fold_left Z.max (tl ns) (hd 0%Z ns) in
              match pbc a, ns with
              | (_, _, true), n0 :: n1 :: n2 :: _ =>
                  snd run = Ok tt /\
                  added (head m ++
                         (str_int n0 ++ " " ++ str_int n1 ++ " "
                          ++ str_int n2 ++ " " ++ nl) ++ tail)
              | (_, true, false), n0 :: n1 :: _ =>
                  snd run = Ok tt /\
                  added (head m ++
                         (str_int n0 ++ " " ++ str_int n1 ++ " 1 " ++ nl)
                         ++ tail)
              | (true, false, false), n0 :: _ =>
                  snd run = Ok tt /\
                  added (head m ++ (str_int n0 ++ " 1 1 " ++ nl) ++ tail)
              | _, _ => snd run = Err IndexError /\ added (head m)
              end
          end
      end
  end.
Proof.
  intros Ha Hblocks p run k added head tail.
  pose proof (settled_write_blocks _ _ _ _ _ _ Hblocks)
    as (Ha1 & _ & _ & Hp).
  pose proof (blocks_open_file _ _ _ _ _ _ Hblocks) as Hname.
  assert (Hk : kpts (parameters (calc w1)) = kpts p).
  { destruct Hp as [-> | [_ ->]]; reflexivity. }
  assert (Hi : isp (parameters (calc w1)) = isp p).
  { destruct Hp as [-> | [_ ->]]; reflexivity. }
  rewrite Ha in Ha1.
  assert (Hek : effective_kpts (kpts (parameters (calc w1))) (pbc a) = k).
  { rewrite Hk. unfold effective_kpts. subst k.
    destruct (any3 (pbc a)); [|reflexivity]. now destruct (kpts p). }
  set (w2 := set_self_kpts k w1).
  set (section := write_kpts out (isp p) (pbc a) k).
  assert (Hrun : run =
    (section ;;; write out ("GRADCAL " ++ nl) ;;;
     write out ("END " ++ nl) ;;; close out) w2).
  { subst run. unfold write_crystal_in.
    rewrite (mbind_ok _ _ _ _ _ Hblocks).
    pose proof (write_kpoints_run out _ _ Ha1) as Hkp. cbv zeta in Hkp.
    rewrite Hek, Hi in Hkp. unfold mbind at 1. rewrite Hkp. reflexivity. }
  assert (Hok : forall t, appends out t section ->
            self_kpts (calc (fst run)) = k /\
            (snd run = Ok tt ->
             exists rest,
               fs (fst run) !! filename =
                 Some (text_of (fst run) out ++ rest)) /\
            snd run = Ok tt /\ added (t ++ tail)).
  { intros t Ht. subst added. cbv beta. rewrite Hrun.
    destruct (kpoints_then_end out section w2 t Ht) as (Hr & Hc & Ht2 & Hd).
    rewrite Hname in Hd.
    split; [now rewrite Hc | split; [intros _; exact Hd | split]].
    - exact Hr.
    - exact Ht2. }
  assert (Herr : forall t e, stops out t e section ->
            self_kpts (calc (fst run)) = k /\
            (snd run = Ok tt ->
             exists rest,
               fs (fst run) !! filename =
                 Some (text_of (fst run) out ++ rest)) /\
            snd run = Err e /\ added t).
  { intros t e Ht. subst added. cbv beta. rewrite Hrun.
    destruct (kpoints_then_stop out section w2 t e Ht) as (Hr & Hc & Ht2).
    split; [now rewrite Hc | split; [|split]].
    - rewrite Hr. discriminate.
    - exact Hr.
    - exact Ht2. }
  assert (Hany : k <> None -> any3 (pbc a) = true).
  { subst k. destruct (any3 (pbc a)); [reflexivity | congruence]. }
  clearbody run k. clear Hrun Hek w2.
  subst section. destruct k as [[d|pts|l]|]; cbn [write_kpts] in Hok, Herr.
  - destruct (Herr "" ValueError (stops_raise out ValueError)) as (? & ? & ?).
    auto.
  - destruct (Herr "" ValueError (stops_raise out ValueError)) as (? & ? & ?).
    auto.
  - unfold write_shrink in Hok, Herr.
    destruct (List.last (map Some l) None) as [[n|s]|] eqn:El.
    + destruct (kints l) as [ns|e] eqn:Hns.
      * pose proof (kints_ok _ _ Hns) as Hl. subst l.
        destruct ns as [|n0 r].
        { discriminate El. }
        pose proof (shrink_values_run out (isp p) (pbc a) (n0 :: r) n0 r
                      eq_refl (Hany ltac:(discriminate))) as Hs.
        cbv zeta in Hs. cbv zeta. cbn [hd tl].
        fold (head (fold_left Z.max r n0)) in Hs.
        destruct (pbc a) as [[[] []] []];
          destruct r as [|n1 [|n2 r']]; cbv beta iota in Hs |- *;
          first
            [ destruct (Hok _ (fun w0 => Hs w0)) as (H1 & H2 & H3 & H4);
              rewrite ?append_assoc in H4;
              split; [exact H1 | split; [exact H2 | split; [exact H3|]]];
              rewrite ?append_assoc; exact H4
            | destruct (Herr _ _ (fun w0 => Hs w0)) as (H1 & H2 & H3 & H4);
              split; [exact H1 | split; [exact H2 | split; [exact H3|]]];
              exact H4 ].
      * pose proof (kints_err _ _ Hns) as ->.
        assert (Hs : stops out ("SHRINK  " ++ nl) TypeError
                  (write out ("SHRINK  " ++ nl) ;;;
                   write_shrink_values out (isp p) (pbc a) l)).
        { rewrite <- (append_nil_r ("SHRINK  " ++ nl)) at 1.
          apply stops_after; [apply appends_write|].
          unfold write_shrink_values, kmax. rewrite Hns.
          apply stops_first, stops_raise. }
        destruct (Herr _ _ (fun w0 => Hs w0)) as (? & ? & ?). auto.
    + destruct (Herr "" ValueError (stops_raise out ValueError))
        as (? & ? & ?). auto.
    + destruct (Herr "" IndexError
                  (stops_first out "" IndexError _ _
                     (stops_raise out IndexError))) as (? & ? & ?).
      auto.
  - destruct (Hok "" (appends_ret out)) as (? & ? & ?). auto.
Qed.

Definition slab_atoms : Atoms := sample_atoms [] (true, true, false).

Lemma kpoints_checked_witness :
  let w := at_start (sample_calc sto3g slab_atoms) ∅ in
  let out := {| fileno := 0; name := "INPUT" |} in
  let run := write_crystal_in 1%Q no_repr "INPUT" w in
  self_kpts (calc (fst run)) = Some (KTuple [KInt 1; KInt 1; KInt 1]) /\
  snd run = Ok tt /\
  text_of (fst run) out =
    text_of (fst (write_blocks 1%Q no_repr "INPUT" w)) out
    ++ ("SHRINK  " ++ nl) ++ ("0 1 " ++ nl) ++ ("1 1 1 " ++ nl)
    ++ ("GRADCAL " ++ nl) ++ ("END " ++ nl).
Proof.
  intros w out run.
  pose proof (kpoints_checked 1%Q no_repr "INPUT" w
                (fst (write_blocks 1%Q no_repr "INPUT" w)) out
                slab_atoms eq_refl) as H.
  destruct (H ltac:(vm_compute; reflexivity)) as (Hk & _ & Hr & Ht).
  split; [exact Hk | split; [exact Hr | exact Ht]].
Defined.

(** C7 as it is stated fails in three ways.  For atoms without periodicity
    the tuple [(2, 2, 2)] is none of the rejected forms, the run finishes,
    and the input file has no [SHRINK] section.  A density is not rejected
    with [ValueError] when an earlier block fails: with the basis [custom]
    and no basis file the run is stopped by [FileNotFoundError].  And for
    periodic atoms the tuple [(2,)] is none of the rejected forms, yet the
    run is stopped by [IndexError] after the first two lines of the
    section. *)
Definition with_kpts (k : kpts_t) (basis_ : string) : Parameters :=
  {| xc := XcStr "HF"; spinpol := false; guess := true; kpts := Some k;
     isp := 1%Z; basis := basis_; smearing := None; otherkeys := [] |}.

Definition molecule_222 : world :=
  at_start (sample_calc (with_kpts (KTuple [KInt 2; KInt 2; KInt 2]) "sto-3g")
              (sample_atoms [] (false, false, false))) ∅.

Definition density_custom : world :=
  at_start (sample_calc (with_kpts (KFloat (7 # 2)) "custom")
              (sample_atoms [] (true, true, true))) ∅.

Definition crystal_2 : world :=
  at_start (sample_calc (with_kpts (KTuple [KInt 2]) "sto-3g")
              (sample_atoms [] (true, true, true))) ∅.

Lemma kpoints_no_shrink_counterexample :
  let out := {| fileno := 0; name := "INPUT" |} in
  (let run := write_crystal_in 1%Q no_repr "INPUT" molecule_222 in
   snd run = Ok tt /\
   self_kpts (calc (fst run)) = None /\
   contains "SHRINK" (content (fst run) "INPUT") = false) /\
  snd (write_crystal_in 1%Q no_repr "INPUT" density_custom)
    = Err FileNotFoundError /\
  (let run := write_crystal_in 1%Q no_repr "INPUT" crystal_2 in
   snd run = Err IndexError /\
   text_of (fst run) out =
     ("Single point + Gradient crystal calculation " ++ nl)
     ++ ("EXTERNAL " ++ nl) ++ ("BASISSET " ++ nl) ++ ("STO-3G" ++ nl)
     ++ ("RHF " ++ nl) ++ ("SHRINK  " ++ nl) ++ ("0 2 " ++ nl)).
Proof. vm_compute. repeat split; reflexivity. Qed.

End CrystalFacts.

(** * Properties of the Gaussian reader and writer *)

Module GaussianFacts.
Import Text Num Gaussian.

(** The first elements, by atomic number, with their standard masses. *)
Definition periodic_table : list string :=
  ["X"; "H"; "He"; "Li"; "Be"; "B"; "C"; "N"; "O"; "F"; "Ne"].

Definition standard_masses : list Q :=
  [1; 1.008; 4.002602; 6.94; 9.0121831; 10.81; 12.011; 14.007; 15.999;
   18.998403163; 20.1797]%Q.

(** A z-matrix converter that places every atom at the origin, and a file
    system without files. *)
Definition flat_zmatrix (contents : string) (defs : option string)
  : res (list vec3 * list string) :=
  let rows := filter nonempty (split_char NL contents) in
  Ok (map (fun _ => zero3) rows, map (fun r => hd "" (split_ws r)) rows).

Definition no_file (path : string) : res string := Err FileNotFoundError.

Definition repr6 (x : Q) : string := fmt_f 6 x.

(** The float sums of the samples: the numbers of the samples add without
    rounding, and a sum beyond the range of a double is an infinity. *)
Definition double_range : Q := inject_Z (2 ^ 1024).

Definition to_double (x : Q) : fval :=
  if Qle_bool double_range x then PosInf
  else if Qle_bool x (- double_range) then NegInf
  else Finite x.

Definition float_sum (l : list Q) : fval := to_double (Qsum l).

Definition float_add (x : fval) (y : Q) : fval :=
  match x with
  | Finite q => to_double (q + y)
  | _ => x
  end.

(** The lines of a file given without their newlines. *)
Definition file (l : list string) : list string := map (fun x => x ++ nl) l.

Definition hydrogen : Atoms :=
  {| symbols := ["H"]; positions := [(0, 0, 0)%Q];
     cell := (zero3, zero3, zero3); pbc := (false, false, false);
     initial_charges := [0%Q]; initial_magmoms := [0%Q]; masses := None |}.

(** The file [write_gaussian_in] writes for a hydrogen atom with the
    method PBEPBE and the basis 6-31G. *)
Definition written_pbepbe : res (list string) :=
  out <- snd (gaussian_lines repr6 periodic_table standard_masses no_file
                float_sum float_add hydrogen None
                [("method", PStr "PBEPBE"); ("basis", PStr "6-31G")]) ;;
  Ok (lines_of (join nl out)).

Definition noraman_file : list string :=
  file ["#P HF/gen freq=noraman"; ""; "title"; ""; "0 1"; "H 0.0 0.0 0.0";
        ""; "H 0"; "3-21G"; "****"; ""].

Definition water_zmatrix_file : list string :=
  file ["#P HF/6-31G"; ""; "water"; ""; "0 1"; "O"; "H 1 0.96";
        "H 1 0.96 2 104.5"; ""; ""].

(** A piece of an output file: an orientation block and an energy. *)
Definition orientation_block (e : string) : list string :=
  [" Input orientation:";
   " ---------------------------------------------------------------------";
   " Center     Atomic      Atomic             Coordinates (Angstroms)";
   " Number     Number       Type             X           Y           Z";
   " ---------------------------------------------------------------------";
   "      1          8           0        0.000000    0.000000    0.119262";
   "      2          1           0        0.000000    0.763239   -0.477047";
   " ---------------------------------------------------------------------";
   " SCF Done:  E(RHF) =  " ++ e ++ "     A.U. after    9 cycles"].

Definition dipole_and_forces : list string :=
  [" (Enter /opt/g16/l716.exe)";
   " Dipole        = 1.0D+00 0.0D+00-2.5D-01";
   " -------------------------------------------------------------------";
   " Center     Atomic                   Forces (Hartrees/Bohr)";
   " Number     Number              X              Y              Z";
   " -------------------------------------------------------------------";
   "      1        8           0.000000000    0.000000000   -0.036558637";
   "      2        1           0.000000000   -0.016420725    0.018279318";
   " -------------------------------------------------------------------";
   " 1\1\GINC-NODE\SP\RHF"; " SCF Done:  E(RHF) =  1.0"].

Definition repeated_output : list string :=
  file (orientation_block "-75.98" ++ orientation_block "-75.98"
        ++ dipole_and_forces)%list.

(** The comparison of two values of a property when they have the same
    shape. *)
Definition values_differ (a b : rvalue) : bool :=
  match a, b with
  | RFloat x, RFloat y => negb (Qeq_bool x y)
  | RVector v, RVector w => negb (list_eqb Qeq_bool v w)
  | RMatrix m, RMatrix n => negb (list_eqb vec3_eqb m n)
  | _, _ => true
  end.

(** A text made of an optional minus sign and digits, at least one. *)
Definition is_integer_text (s : string) : bool :=
  let d := match s with
           | String "-" r => r
           | _ => s
           end in
  nonempty d && forallb_s is_digit d.

(** *** Running the writer step by step *)

Lemma run_pop {B} key (k : pval -> M dict B) params :
  mbind (pop key) k params =
  k (default PNone (dict_get key params)) (dict_del key params).
Proof. reflexivity. Qed.

Lemma run_get {B} (k : dict -> M dict B) params :
  mbind get k params = k params params.
Proof. reflexivity. Qed.

Lemma run_ret {S A B} (a : A) (k : A -> M S B) s : mbind (ret a) k s = k a s.
Proof. reflexivity. Qed.

Lemma run_lift {S A B} (r : res A) (k : A -> M S B) s :
  mbind (lift r) k s =
  match r with
  | Ok a => k a s
  | Err e => (s, Err e)
  end.
Proof. now destruct r. Qed.

Lemma snd_mbind_ok {S A B} (m : M S A) (k : A -> M S B) s b :
  snd (mbind m k s) = Ok b ->
  exists s1 a, m s = (s1, Ok a) /\ snd (k a s1) = Ok b.
Proof.
  unfold mbind. destruct (m s) as [s1 [a|e]]; simpl; intros H.
  - eauto.
  - discriminate.
Qed.

Lemma snd_lift_ok {S A B} (r : res A) (k : A -> M S B) s b :
  snd (mbind (lift r) k s) = Ok b ->
  exists a, r = Ok a /\ snd (k a s) = Ok b.
Proof. destruct r as [a|e]; simpl; [eauto | discriminate]. Qed.

Lemma snd_ret_ok {S A} (a b : A) (s : S) : snd (ret a s) = Ok b -> a = b.
Proof. unfold ret. simpl. congruence. Qed.

Lemma dict_get_del_ne k k' d :
  String.eqb k k' = false -> dict_get k (dict_del k' d) = dict_get k d.
Proof.
  intros Hne. induction d as [|[k0 v0] d IH]; [reflexivity|].
  simpl. destruct (String.eqb k' k0) eqn:E'.
  - apply String.eqb_eq in E'. subst k0. now rewrite Hne.
  - simpl. destruct (String.eqb k k0); [reflexivity | exact IH].
Qed.


Lemma app_assoc7 {A} (a b c d e f g mid post : list A) :
  (a ++ b ++ c ++ d ++ e ++ f ++ g ++ mid ++ post =
   (a ++ b ++ c ++ d ++ e ++ f ++ g) ++ mid ++ post)%list.
Proof. now rewrite <- !app_assoc. Qed.

Lemma fmt_f_0_integer (x : Q) : is_integer_text (fmt_f 0 x) = true.
Proof.
  unfold fmt_f, is_integer_text.
  set (n := (Z.abs _ / pow10 0)%Z).
  pose proof (TextFacts.str_nat_all_digits n) as Hd.
  rewrite !TextFacts.append_nil_r.
  destruct (Qnum x <? 0)%Z.
  - exact Hd.
  - cbn [String.append]. unfold all_digits in Hd.
    destruct (str_nat n) as [|c r]; [discriminate|].
    destruct (Ascii.eqb c "-") eqn:E.
    + apply Ascii.eqb_eq in E. subst c. discriminate.
    + assert (Hc : c <> "-"%char) by (intros ->; now rewrite Ascii.eqb_refl in E).
      destruct c as [[] [] [] [] [] [] [] []]; try exact Hd; congruence.
Qed.

Section WriterFacts.
Variable repr_float : Q -> string.
Variable chemical_symbols : list string.
Variable atomic_masses_iupac2016 : list Q.
Variable read_file : string -> res string.
Variable np_sum : list Q -> fval.
Variable np_add : fval -> Q -> fval.

Local Abbreviation lines_written :=
  (gaussian_lines repr_float chemical_symbols atomic_masses_iupac2016
     read_file np_sum np_add).

(** The lines of a successful run: what precedes the title, the title
    block with the charge and the multiplicity, and what follows. *)
Lemma gaussian_lines_chgmult atoms properties params out :
  snd (lines_written atoms properties params) = Ok out ->
  exists c m pre post,
    number_text (default PNone (dict_get "charge" params))
      (np_sum (initial_charges atoms)) = Ok c /\
    number_text (default PNone (dict_get "mult" params))
      (np_add (np_sum (initial_magmoms atoms)) 1%Q) = Ok m /\
    out = (pre ++ [""; "Gaussian input prepared by ASE"; "";
                   (c ++ " " ++ m)%string] ++ post)%list.
Proof.
  unfold gaussian_lines.
  repeat (rewrite ?run_pop, ?run_get; cbv beta zeta).
  set (method0 := default PNone (dict_get "method" params)).
  assert (Hm : forall (k : pval -> M dict (list string)) d,
    snd (mbind (if is_PNone method0
                then xc <~ pop "xc" ;; lift (xc_method xc)
                else ret method0) k d) = Ok out ->
    exists meth d', snd (k meth d') = Ok out /\
      (d' = d \/ d' = dict_del "xc" d)).
  { intros k d. destruct (is_PNone method0).
    - rewrite CrystalFacts.mbind_assoc, run_pop, run_lift.
      destruct (xc_method _) as [meth|e]; [|discriminate].
      intros H. exists meth, (dict_del "xc" d). auto.
    - rewrite run_ret. intros H. exists method0, d. auto. }
  intros H. apply Hm in H as (meth & d' & H & Hd'). clear Hm.
  apply snd_lift_ok in H as (u & _ & H).
  repeat (rewrite ?run_pop, ?run_get in H; cbv beta zeta in H).
  apply snd_mbind_ok in H as (d1 & nprops & _ & H).
  apply snd_mbind_ok in H as (d2 & link0 & _ & H).
  apply snd_mbind_ok in H as (d3 & special & _ & H).
  rewrite run_get in H.
  apply snd_lift_ok in H as (keywords & _ & H).
  apply snd_lift_ok in H as (iop & _ & H).
  apply snd_lift_ok in H as (c & Hc & H).
  apply snd_lift_ok in H as (m & Hmu & H).
  apply snd_lift_ok in H as (alines & _ & H).
  apply snd_lift_ok in H as (btext & _ & H).
  apply snd_lift_ok in H as (add & _ & H).
  apply snd_lift_ok in H as (extra & _ & H).
  cbv beta zeta in H. apply snd_ret_ok in H. subst out.
  exists c, m. do 2 eexists.
  assert (Hg : dict_get "charge" d' = dict_get "charge" params /\
               dict_get "mult" (dict_del "charge" d') = dict_get "mult" params).
  { destruct Hd' as [-> | ->];
      rewrite !dict_get_del_ne by reflexivity; auto. }
  destruct Hg as [Hg1 Hg2]. rewrite Hg1 in Hc. rewrite Hg2 in Hmu.
  split; [exact Hc|]. split; [exact Hmu|].
  apply app_assoc7.
Qed.

End WriterFacts.

Definition radical : Atoms :=
  {| symbols := ["O"; "H"]; positions := [(0, 0, 1 # 10)%Q; (0, 3 # 4, -1 # 2)%Q];
     cell := (zero3, zero3, zero3); pbc := (false, false, false);
     initial_charges := [(-1 # 2)%Q; (-1 # 2)%Q];
     initial_magmoms := [0%Q; 1%Q]; masses := None |}.

(** ** The claims on the Gaussian writer *)

(** Two atoms whose charges add up to more than a double can hold. *)
Definition overcharged : Atoms :=
  {| symbols := ["H"; "H"]; positions := [(0, 0, 0)%Q; (0, 0, 1)%Q];
     cell := (zero3, zero3, zero3); pbc := (false, false, false);
     initial_charges := [inject_Z (10 ^ 308); inject_Z (10 ^ 308)];
     initial_magmoms := [0%Q; 0%Q]; masses := None |}.

(** A float that is an infinity or a NaN. *)
Definition is_finite (v : fval) : bool :=
  match v with
  | Finite _ => true
  | _ => false
  end.

Lemma fmt_0f_float_integer v :
  is_integer_text (fmt_0f_float v) = is_finite v.
Proof. destruct v; try reflexivity. apply fmt_f_0_integer. Qed.

(** C9, as the code has it.  When the parameters passed to
    [write_gaussian_in] have no [charge] and no [mult], the text it writes
    has, right after the title block, the line made of the sum of the
    initial charges and of the sum of the initial magnetic moments plus
    one, as numpy computes them, each written with [{:.0f}].  A finite sum
    is written as the integer nearest to it (a tie goes to the even one):
    an optional minus sign and digits, without a decimal part.  A sum that
    is an infinity or a NaN is written [inf], [-inf] or [nan], which is no
    integer. *)
Theorem charge_multiplicity_line
    (repr_float : Q -> string) (chemical_symbols : list string)
    (atomic_masses_iupac2016 : list Q) (read_file : string -> res string)
    (np_sum : list Q -> fval) (np_add : fval -> Q -> fval)
    (properties : option (list string)) (w w' : gworld) :
  dict_get "charge" (g_params w) = None ->
  dict_get "mult" (g_params w) = None ->
  write_gaussian_in repr_float chemical_symbols atomic_masses_iupac2016
    read_file np_sum np_add properties w = (w', Ok tt) ->
  let charge := np_sum (initial_charges (g_atoms w)) in
  let mult := np_add (np_sum (initial_magmoms (g_atoms w))) 1%Q in
  (exists pre post,
     g_fd w' =
     g_fd w ++ join nl (pre ++ [""; "Gaussian input prepared by ASE"; "";
                                (fmt_0f_float charge ++ " "
                                 ++ fmt_0f_float mult)%string]
                        ++ post)%list) /\
  (forall v, In v [charge; mult] ->
     is_integer_text (fmt_0f_float v) = is_finite v /\
     forall x, v = Finite x ->
       fmt_0f_float v = fmt_f 0 x /\
       int_of_string (fmt_0f_float v) = Ok (round_half_even x)).
Proof.
  intros Hc Hm Hrun charge mult. split.
  - unfold write_gaussian_in in Hrun.
    destruct (snd (gaussian_lines _ _ _ _ _ _ _ _ _)) as [out|e] eqn:Hout;
      [|discriminate].
    injection Hrun as <-. cbn [g_fd].
    apply gaussian_lines_chgmult in Hout
      as (c' & m' & pre & post & Hc' & Hm' & ->).
    rewrite Hc in Hc'. rewrite Hm in Hm'.
    cbn in Hc', Hm'. injection Hc' as <-. injection Hm' as <-.
    exists pre, post. reflexivity.
  - intros v _. split; [apply fmt_0f_float_integer|].
    intros x ->. split; [reflexivity|]. apply TextFacts.int_of_fmt_f_0.
Qed.

Lemma charge_multiplicity_line_witness :
  let w := {| g_atoms := radical; g_params := [("method", PStr "HF")];
              g_fd := "" |} in
  let w' := fst (write_gaussian_in repr6 periodic_table standard_masses
                   no_file float_sum float_add None w) in
  exists pre post,
    g_fd w' =
    join nl (pre ++ [""; "Gaussian input prepared by ASE"; "";
                     "-1 2"] ++ post)%list.
Proof.
  intros w w'.
  exact (proj1 (charge_multiplicity_line repr6 periodic_table standard_masses
                  no_file float_sum float_add None w w'
                  eq_refl eq_refl eq_refl)).
Defined.

(** The sum of the charges of [overcharged] is beyond the range of a
    double: the line written is [inf 1], whose first field is no
    integer. *)
Lemma infinite_charge_counterexample :
  let w := {| g_atoms := overcharged; g_params := []; g_fd := "" |} in
  let run := write_gaussian_in repr6 periodic_table standard_masses no_file
               float_sum float_add None w in
  snd run = Ok tt /\
  float_sum (initial_charges overcharged) = PosInf /\
  nth 4 (lines_of (g_fd (fst run))) "" = "inf 1" ++ nl /\
  is_integer_text "inf" = false.
Proof. vm_compute. repeat split. Qed.


Lemma dict_get_set k k' v d :
  dict_get k (dict_set k' v d) =
  if String.eqb k k' then Some v else dict_get k d.
Proof.
  induction d as [|[k0 v0] d IH]; simpl.
  - reflexivity.
  - destruct (String.eqb k' k0) eqn:E'; simpl.
    + apply String.eqb_eq in E'. subst k0.
      destruct (String.eqb k k'); reflexivity.
    + destruct (String.eqb k k0) eqn:E0.
      * apply String.eqb_eq in E0. subst k0.
        rewrite String.eqb_sym, E'. reflexivity.
      * exact IH.
Qed.

Lemma first_key_holds p d k : first_key p d = Some k -> p k = true.
Proof.
  induction d as [|[k0 v0] d IH]; simpl; [discriminate|].
  destruct (p k0) eqn:E; [|exact IH]. now intros [= <-].
Qed.

Lemma validate_keeps_iso d d' :
  _validate_params d = Ok d' -> dict_get "iso" d' = dict_get "iso" d.
Proof.
  unfold _validate_params.
  destruct (existsb _ unsupported_settings); [discriminate|].
  destruct (first_key _ d) as [k|] eqn:Hk; [|now intros [= <-]].
  apply first_key_holds in Hk.
  unfold dict_pop. intros [= <-].
  rewrite dict_get_set. change (String.eqb "iso" "Opt") with false.
  apply dict_get_del_ne.
  destruct (String.eqb "iso" k) eqn:E; [|reflexivity].
  apply String.eqb_eq in E. subst k. discriminate.
Qed.

Lemma delete_readiso_keeps_iso d d' :
  _delete_readiso_param d = Ok d' -> dict_get "iso" d' = dict_get "iso" d.
Proof.
  unfold _delete_readiso_param, _get_readiso_param.
  set (fo := match dict_get "freq" d with
             | Some v => if truthy v then ("freq", Some v) else ("frequency", dict_get "frequency" d)
             | None => ("frequency", dict_get "frequency" d) end).
  assert (Hn : fst fo = "freq" \/ fst fo = "frequency").
  { subst fo. destruct (dict_get "freq" d) as [v|]; [destruct (truthy v)|]; auto. }
  destruct fo as [name opts]. simpl in Hn.
  destruct opts as [[| | | | |]|]; simpl; try discriminate; try (now intros [= <-]).
  destruct (list_remove _ _); simpl; [|discriminate].
  intros [= <-]. rewrite dict_get_set.
  destruct Hn as [-> | ->]; reflexivity.
Qed.

(** The list brought to [n] entries. *)
Definition fitted (n : nat) (l : list (option num)) : list (option num) :=
  if Nat.ltb (List.length l) n
  then (l ++ repeat None (n - List.length l))%list
  else firstn n l.

Lemma fitted_length n l : List.length (fitted n l) = n.
Proof.
  unfold fitted. destruct (Nat.ltb_spec (List.length l) n).
  - rewrite length_app, repeat_length. lia.
  - apply firstn_length_le. exact H.
Qed.

Lemma fit_iso_list n d l :
  dict_get "iso" d = Some (PList l) ->
  exists d', fit_iso n d = Ok d' /\
    dict_get "iso" d' = Some (PList (fitted n l)) /\
    forall k, String.eqb k "iso" = false -> dict_get k d' = dict_get k d.
Proof.
  intros H. unfold fit_iso, fitted. rewrite H. simpl.
  destruct (Nat.ltb_spec (List.length l) n) as [Hlt|Hge].
  - eexists. split; [reflexivity|]. split.
    + now rewrite dict_get_set.
    + intros k Hk. now rewrite dict_get_set, Hk.
  - destruct (Nat.ltb_spec n (List.length l)) as [Hlt|Hge'].
    + eexists. split; [reflexivity|]. split.
      * now rewrite dict_get_set.
      * intros k Hk. now rewrite dict_get_set, Hk.
    + exists d. split; [reflexivity|]. split; [|reflexivity].
      rewrite H. f_equal. f_equal. symmetry. apply firstn_all2. lia.
Qed.


(** The masses given on the atom lines, when one of them is set. *)
Definition has_value (l : list (option num)) : bool :=
  existsb (fun v => match v with Some _ => true | None => false end) l.

Definition given_masses (props : nuclei_props_t)
  : option (list (option num)) :=
  fold_left (fun acc kl =>
               if String.eqb "iso" (fst kl) && has_value (snd kl)
               then Some (snd kl) else acc)
            props None.

Lemma add_nuclei_props_iso_gen props : forall p acc base,
  dict_get "iso" p = match acc with
                     | Some arr => Some (PList arr)
                     | None => base
                     end ->
  dict_get "iso" (_add_nuclei_props_to_params p props) =
  match fold_left (fun acc kl =>
                     if String.eqb "iso" (fst kl) && has_value (snd kl)
                     then Some (snd kl) else acc) props acc with
  | Some arr => Some (PList arr)
  | None => base
  end.
Proof.
  unfold _add_nuclei_props_to_params.
  induction props as [|[k arr] props IH]; intros p acc base H.
  - exact H.
  - cbn [fold_left fst snd]. fold (has_value arr).
    apply IH.
    destruct (has_value arr); [|rewrite andb_false_r; exact H].
    rewrite andb_true_r, dict_get_set.
    destruct (String.eqb "iso" k); [reflexivity | exact H].
Qed.

Lemma add_nuclei_props_iso p props :
  dict_get "iso" (_add_nuclei_props_to_params p props) =
  match given_masses props with
  | Some arr => Some (PList arr)
  | None => dict_get "iso" p
  end.
Proof. now apply add_nuclei_props_iso_gen. Qed.

Lemma given_masses_in props arr :
  given_masses props = Some arr -> In ("iso", arr) props.
Proof.
  unfold given_masses.
  assert (H : forall acc,
    fold_left (fun acc kl =>
                 if String.eqb "iso" (fst kl) && has_value (snd kl)
                 then Some (snd kl) else acc) props acc = Some arr ->
    acc = Some arr \/ In ("iso", arr) props).
  { induction props as [|[k a] props IH]; intros acc; cbn [fold_left fst snd].
    - auto.
    - intros H. apply IH in H as [H|H]; [|right; now right].
      destruct (String.eqb "iso" k) eqn:E; cbn [andb] in H; [|auto].
      destruct (has_value a); [|auto].
      apply String.eqb_eq in E. subst k. injection H as <-. right. now left. }
  intros Hg. apply H in Hg as [Hg|Hg]; [discriminate | exact Hg].
Qed.

Section ReaderFacts.
Variable chemical_symbols : list string.
Variable parse_zmatrix : string -> option string -> res (list vec3 * list string).

Lemma make_atoms_symbols syms pos b c a :
  make_atoms chemical_symbols syms pos b c = Ok a -> symbols a = syms.
Proof.
  unfold make_atoms. destruct (_ && _); [|discriminate]. now intros [= <-].
Qed.

Lemma finish_iso s atoms p l0 :
  readiso s = true ->
  dict_get "iso" (parameters s) = Some (PList l0) ->
  finish chemical_symbols s = Ok (atoms, p) ->
  symbols atoms = st_symbols s /\
  dict_get "iso" p =
    Some (PList (match given_masses (nuclei_props s) with
                 | Some arr => arr
                 | None => fitted (List.length (st_symbols s)) l0
                 end)).
Proof.
  intros Hr Hiso. unfold finish. rewrite Hr.
  destruct (_validate_params (parameters s)) as [p1|] eqn:H1; [|discriminate].
  cbn [bind].
  destruct (_delete_readiso_param p1) as [p2|] eqn:H2; [|discriminate].
  cbn [bind].
  apply validate_keeps_iso in H1. apply delete_readiso_keeps_iso in H2.
  destruct (fit_iso_list (List.length (st_symbols s)) p2 l0) as (p3 & H3 & H3i & _).
  { congruence. }
  rewrite H3.
  destruct (make_atoms _ _ _ _ _) as [a|] eqn:Ha; [|discriminate].
  cbn [bind]. intros [= <- <-].
  split; [exact (make_atoms_symbols _ _ _ _ _ Ha)|].
  rewrite add_nuclei_props_iso.
  destruct (given_masses (nuclei_props s)); [reflexivity|].
  destruct (nonempty (basis_set s)); [|exact H3i].
  rewrite dict_get_del_ne by reflexivity.
  rewrite !dict_get_set. exact H3i.
Qed.


(** Every array of nuclear properties has one entry per atom, as long as
    the molecule specification is cartesian. *)
Definition aligned (s : pstate) : Prop :=
  zmatrix_type s = true \/
  Forall (fun kl : string * list (option num) =>
            List.length (snd kl) = List.length (st_symbols s))
         (nuclei_props s).

Lemma aligned_initial : aligned initial_state.
Proof. right. repeat constructor. Qed.

Lemma aligned_same s s' :
  nuclei_props s' = nuclei_props s -> st_symbols s' = st_symbols s ->
  zmatrix_type s' = zmatrix_type s -> aligned s -> aligned s'.
Proof. unfold aligned. intros -> -> ->. trivial. Qed.

Lemma save_nuclei_props_arrays line props line' symbol tokens props' :
  _save_nuclei_props chemical_symbols line props
    = Ok (line', symbol, tokens, props') ->
  if String.eqb (upper symbol) "TV" then props' = props
  else exists cur, props' = append_nuclei_props cur props.
Proof.
  unfold _save_nuclei_props.
  destruct (paren_matches line) as [|[[a b] content] ms].
  - destruct (item _ 0) as [t0|]; [|discriminate]. cbn [bind].
    destruct (_convert_to_symbol _ t0) as [sy|]; [|discriminate]. cbn [bind].
    intros [= <- <- <- <-]. destruct (String.eqb (upper sy) "TV"); eauto.
  - destruct (item _ 0) as [t0|]; [|discriminate]. cbn [bind].
    destruct (_convert_to_symbol _ t0) as [sy|]; [|discriminate]. cbn [bind].
    destruct (_get_route_params content) as [raw|]; [|discriminate]. cbn [bind].
    destruct (nuclei_values raw) as [cur|]; [|discriminate]. cbn [bind].
    intros [= <- <- <- <-]. destruct (String.eqb (upper sy) "TV"); eauto.
Qed.

Lemma save_tv_core row s s' :
  save_tv row s = Ok s' ->
  nuclei_props s' = nuclei_props s /\ st_symbols s' = st_symbols s /\
  zmatrix_type s' = zmatrix_type s.
Proof.
  unfold save_tv.
  destruct (set_row _ _ (st_pbc s)); [|discriminate]. cbn [bind].
  destruct row; [|discriminate]. cbn [bind].
  destruct (set_row _ _ (st_cell s)); [|discriminate]. cbn [bind].
  intros [= <-]. repeat split.
Qed.

Lemma atoms_section_line_aligned line s s' o :
  atoms_section_line chemical_symbols line s = Ok (s', o) ->
  aligned s -> aligned s'.
Proof.
  unfold atoms_section_line.
  set (l1 := replace "," " " _).
  destruct (split_ws l1) as [|w ws].
  { now intros [= <- <-]. }
  destruct (zmatrix_type s) eqn:Hz.
  - (* the z-matrix form stays *)
    intros H _. left. revert H. cbn [andb].
    destruct (zmatrix_var_section s); [now intros [= <- <-]|].
    destruct (contains "variables" _); [now intros [= <- <-]|].
    destruct (contains "constants" _); [intros [= <- <-]; exact Hz|].
    destruct (_save_nuclei_props _ _ _) as [[[[l2 sy] tk] props]|]; [|discriminate].
    cbn [bind]. cbn [zmatrix_type set_nuclei_props]. rewrite Hz.
    unfold save_zmatrix_line. destruct (_ && _); [discriminate|].
    cbn [bind]. intros [= <- <-]. exact Hz.
  - cbn [andb].
    destruct (_save_nuclei_props _ _ _) as [[[[l2 sy] tk] props]|] eqn:Hp;
      [|discriminate].
    cbn [bind]. cbn [zmatrix_type set_nuclei_props]. rewrite Hz.
    apply save_nuclei_props_arrays in Hp.
    unfold save_atom_line.
    destruct (_ || _).
    + (* the line opens a z-matrix *)
      intros H _. left. revert H.
      destruct (String.eqb (upper sy) "TV").
      * destruct (save_tv _ _) as [s2|] eqn:Htv; [|discriminate].
        cbn [bind]. intros [= <- <-]. cbn [zmatrix_type set_atoms_saved].
        apply save_tv_core in Htv as (_ & _ & ->). reflexivity.
      * cbn [bind]. now intros [= <- <-].
    + destruct (Nat.ltb 3 _); [discriminate|].
      destruct (cartesian _) as [v|]; [|discriminate]. cbn [bind].
      destruct (String.eqb (upper sy) "TV").
      * subst props.
        destruct (save_tv _ _) as [s2|] eqn:Htv; [|discriminate].
        cbn [bind]. intros [= <- <-].
        apply save_tv_core in Htv as (Hn & Hs & Ht).
        apply aligned_same; cbn; assumption.
      * destruct Hp as [cur ->]. cbn [bind]. intros [= <- <-].
        intros [Hal|Hal]; [congruence|]. right. cbn.
        unfold append_nuclei_props. rewrite Forall_map.
        eapply Forall_impl; [|exact Hal].
        intros kl Hkl. cbn. rewrite !length_app, Hkl. reflexivity.
Qed.


Lemma after_atoms_line_aligned line s s' o :
  after_atoms_line parse_zmatrix line s = Ok (s', o) ->
  aligned s -> aligned s'.
Proof.
  unfold after_atoms_line.
  set (conv := if _ && zmatrix_type s then _ else _).
  assert (Hconv : forall s1, conv = Ok s1 ->
            aligned s -> aligned s1 /\ zmatrix_type s1 = zmatrix_type s).
  { subst conv. intros s1.
    destruct (Nat.eqb _ 0); cbn [andb]; [|now intros [= <-]].
    destruct (zmatrix_type s) eqn:Hz; [|now intros [= <-]].
    destruct (_read_zmatrix _ _ _); [|discriminate]. cbn [bind].
    intros [= <-] _. split; [left|]; exact Hz. }
  destruct conv as [s1|]; [|discriminate]. cbn [bind].
  specialize (Hconv s1 eq_refl).
  intros H Hal. destruct (Hconv Hal) as [Hal1 _]. clear Hconv Hal. revert H.
  assert (Hrest : forall l2,
    (freq_param <- _get_readiso_param (parameters s1) ;;
     let s := set_readiso (is_some freq_param) s1 in
     if prefixb "@" l2
     then Ok (set_parameters (dict_set "basisfile" (PStr l2) (parameters s)) s,
              Some l2)
     else if readiso s && Nat.ltb (count_iso s) (List.length (st_symbols s) + 1)
     then
       p <- (if Nat.eqb (count_iso s) 0
             then p <- _save_readiso_info l2 (parameters s) ;;
                  Ok (dict_set "iso" (PList []) p)
             else iso_append (mass_of_line l2) (parameters s)) ;;
       Ok (set_count_iso (S (count_iso s)) (set_parameters p s), Some l2)
     else
       b <- wants_basis_set (parameters s) ;;
       if b && nonempty (strip l2)
       then Ok (set_basis_set (basis_set s ++ l2 ++ nl) s, Some l2)
       else Ok (s, Some l2)) = Ok (s', o) -> aligned s').
  { intros l2.
    destruct (_get_readiso_param _) as [fp|]; [|discriminate]. cbn [bind].
    destruct (prefixb "@" l2).
    { intros [= <- <-]. revert Hal1. apply aligned_same; reflexivity. }
    destruct (_ && _).
    - match goal with |- context [bind ?x _] => destruct x as [p|] end;
        [|discriminate].
      cbn [bind]. intros [= <- <-]. revert Hal1.
      apply aligned_same; reflexivity.
    - destruct (wants_basis_set _) as [b|]; [|discriminate]. cbn [bind].
      destruct (_ && _); intros [= <- <-]; revert Hal1;
        apply aligned_same; reflexivity. }
  destruct (split_ws line) as [|w ws].
  - apply Hrest.
  - destruct w as [|c w]; [apply Hrest|].
    destruct c as [[] [] [] [] [] [] [] []]; try apply Hrest.
    destruct w; [|apply Hrest].
    now intros [= <- <-].
Qed.

Lemma branch_aligned line s s' o :
  branch chemical_symbols parse_zmatrix line s = Ok (s', o) ->
  aligned s -> aligned s'.
Proof.
  unfold branch.
  assert (Hchg : forall r : res (pstate * option string),
    (s1 <- save_chgmult line s ;; Ok (s1, Some line)) = Ok (s', o) ->
    aligned s -> aligned s').
  { intros _. unfold save_chgmult.
    destruct (item _ 0); [|discriminate]. cbn [bind].
    destruct (int_of_string _); [|discriminate]. cbn [bind].
    destruct (item _ 1); [|discriminate]. cbn [bind].
    destruct (int_of_string _); [|discriminate]. cbn [bind].
    intros [= <- <-]. apply aligned_same; reflexivity. }
  assert (Htail :
    (if re_chgmult line
     then s1 <- save_chgmult line s ;; Ok (s1, Some line)
     else if atoms_section s then atoms_section_line chemical_symbols line s
     else if atoms_saved s then after_atoms_line parse_zmatrix line s
     else Ok (s, Some line)) = Ok (s', o) -> aligned s -> aligned s').
  { destruct (re_chgmult line); [apply Hchg; exact (Err IOError)|].
    destruct (atoms_section s); [apply atoms_section_line_aligned|].
    destruct (atoms_saved s); [apply after_atoms_line_aligned|].
    now intros [= <- <-]. }
  destruct (_ && _).
  { intros [= <- <-]. apply aligned_same; reflexivity. }
  destruct (re_link0 line).
  { intros [= <- <-]. apply aligned_same; reflexivity. }
  destruct (re_output_type line) as [[g0 g1]|]; [|exact Htail].
  destruct (negb (route_section s)); [|exact Htail].
  intros [= <- <-]. apply aligned_same; reflexivity.
Qed.

Lemma parse_line_aligned s line s' :
  parse_line chemical_symbols parse_zmatrix s line = Ok s' ->
  aligned s -> aligned s'.
Proof.
  unfold parse_line.
  destruct (branch _ _ _ _) as [[s1 [l1|]]|] eqn:Hb; [| |discriminate];
    cbn [bind]; pose proof (branch_aligned _ _ _ _ Hb) as Hs1.
  - destruct (route_section s1).
    + destruct (_save_route_params _ _); [|discriminate]. cbn [bind].
      intros [= <-] Hal. apply Hs1 in Hal. revert Hal.
      apply aligned_same; reflexivity.
    + intros [= <-]. exact Hs1.
  - intros [= <-]. exact Hs1.
Qed.

Lemma parse_lines_aligned fd : forall s s',
  parse_lines chemical_symbols parse_zmatrix s fd = Ok s' ->
  aligned s -> aligned s'.
Proof.
  induction fd as [|line fd IH]; intros s s'; cbn [parse_lines].
  - now intros [= <-].
  - destruct (parse_line _ _ s line) as [s1|] eqn:H1; [|discriminate].
    cbn [bind]. intros H2 Hal.
    exact (IH _ _ H2 (parse_line_aligned _ _ _ H1 Hal)).
Qed.

End ReaderFacts.

Definition readiso_file : list string :=
  file ["#P HF/6-31G freq=readiso"; ""; "title"; ""; "0 1";
        "H 0.0 0.0 0.0"; "H 0.0 0.0 0.74"; "F 0.0 0.0 2.0"; "";
        "300.0 1.0"; "2.014"; ""].

Definition state_after (fd : list string) : pstate :=
  match parse_lines periodic_table flat_zmatrix initial_state fd with
  | Ok s => s
  | Err _ => initial_state
  end.

(** ** The claims on the Gaussian reader *)

(** The parameter [iso] the reader returns for a file in which a
    ReadIsotopes section was met: the list of the section fitted to the
    atomic symbols when no atom line gave a mass, and the masses of the
    atom lines otherwise, one per symbol as long as no line of the molecule
    specification was taken for a z-matrix line. *)
Lemma iso_of_reader
    (chemical_symbols : list string)
    (parse_zmatrix : string -> option string -> res (list vec3 * list string))
    (fd : list string) (s : pstate) (atoms : Atoms) (p : dict)
    (l0 : list (option num)) :
  parse_lines chemical_symbols parse_zmatrix initial_state fd = Ok s ->
  readiso s = true ->
  dict_get "iso" (parameters s) = Some (PList l0) ->
  parse_gaussian_input chemical_symbols parse_zmatrix fd = Ok (atoms, p) ->
  match given_masses (nuclei_props s) with
  | None => dict_get "iso" p
            = Some (PList (fitted (List.length (symbols atoms)) l0))
  | Some arr =>
      dict_get "iso" p = Some (PList arr) /\
      (zmatrix_type s = false ->
       List.length arr = List.length (symbols atoms))
  end.
Proof.
  intros Hs Hr Hiso Hp.
  unfold parse_gaussian_input in Hp. rewrite Hs in Hp. cbn [bind] in Hp.
  destruct (finish_iso _ _ _ _ _ Hr Hiso Hp) as [Hsym Hres].
  rewrite Hsym.
  destruct (given_masses (nuclei_props s)) as [arr|] eqn:Hg; [|exact Hres].
  split; [exact Hres|]. intros Hz.
  destruct (parse_lines_aligned _ _ _ _ _ Hs aligned_initial) as [Hzm|Hal].
  - congruence.
  - apply given_masses_in in Hg. rewrite Forall_forall in Hal.
    exact (Hal _ Hg).
Qed.

Definition mass_then_zmatrix_file : list string :=
  file ["#P HF/6-31G freq=readiso"; ""; "title"; ""; "0 1";
        "H(iso=2) 0.0 0.0 0.0"; "H 1 0.9"; "";
        "300.0 1.0"; "1.5"; ""].

Definition mass_on_atom_line_file : list string :=
  file ["#P HF/6-31G freq=readiso"; ""; "title"; ""; "0 1";
        "H(iso=2) 0.0 0.0 0.0"; "H 0.0 0.0 0.74"; "";
        "300.0 1.0"; "1.5"; ""].

(** C8 at two files with a ReadIsotopes section and a mass in parentheses
    on the first atom line.  In the first file a z-matrix line follows the
    atom line: whatever the z-matrix converter, the reader returns one
    symbol, and the parameter [iso] has two entries.  In the second file
    the section gives the mass 1.5 for the first of two atoms: the list of
    the section, fitted to the symbols, is [[1.5, None]], yet the
    parameter [iso] returned is [[2, None]], the masses of the atom
    lines. *)
Theorem iso_replaced_by_atom_line_masses
    (parse_zmatrix : string -> option string -> res (list vec3 * list string)) :
  (exists atoms p,
     parse_gaussian_input periodic_table parse_zmatrix mass_then_zmatrix_file
       = Ok (atoms, p) /\
     symbols atoms = ["H"] /\
     dict_get "iso" p = Some (PList [Some (NInt 2); None])) /\
  (exists s atoms p,
     parse_lines periodic_table parse_zmatrix initial_state
       mass_on_atom_line_file = Ok s /\
     readiso s = true /\
     dict_get "iso" (parameters s) = Some (PList [Some (NFloat 1.5%Q); None]) /\
     parse_gaussian_input periodic_table parse_zmatrix mass_on_atom_line_file
       = Ok (atoms, p) /\
     symbols atoms = ["H"; "H"] /\
     dict_get "iso" p = Some (PList [Some (NInt 2); None])).
Proof.
  split.
  - eexists _, _. vm_compute. repeat split; reflexivity.
  - eexists _, _, _. vm_compute. repeat split; reflexivity.
Qed.

(** C2 at a file written by [write_gaussian_in] itself: the route line
    [#P PBEPBE/6-31G ! ASE formatted method and basis] is read back with
    the method [BEPBE], because [line.strip(group(0))] strips the
    characters of the output type from both ends of the line; and the
    keyword [pm6] of the route [#p pm6 opt] is stored as [m6]. *)
Theorem route_keyword_loses_letters
    (parse_zmatrix : string -> option string -> res (list vec3 * list string)) :
  (exists fd atoms p,
     written_pbepbe = Ok fd /\
     hd "" fd = "#P PBEPBE/6-31G ! ASE formatted method and basis" ++ nl /\
     parse_gaussian_input periodic_table parse_zmatrix fd = Ok (atoms, p) /\
     dict_get "method" p = Some (PStr "BEPBE") /\
     dict_get "basis" p = Some (PStr "6-31G")) /\
  (exists atoms p,
     parse_gaussian_input periodic_table parse_zmatrix
       (file ["#p pm6 opt"; ""; "title"; ""; "0 1"; "H 0.0 0.0 0.0"; ""])
     = Ok (atoms, p) /\
     dict_get "pm6" p = None /\ dict_get "m6" p = Some PNone /\
     dict_get "opt" p = Some PNone).
Proof.
  split.
  - do 3 eexists. split; [vm_compute; reflexivity|].
    split; [reflexivity|]. split; [vm_compute; reflexivity|].
    split; reflexivity.
  - do 2 eexists. split; [vm_compute; reflexivity|]. repeat split.
Qed.

(** C3 at a file whose frequency keyword has the option [noraman] only:
    [_get_readiso_param] answers for every string of options, so the lines
    after the molecule specification are read as a ReadIsotopes section
    (here the first two lines of the basis set), and the removal of the
    option [readiso], which is not there, ends the reading with
    [ValueError]. *)
Theorem readiso_without_option
    (parse_zmatrix : string -> option string -> res (list vec3 * list string)) :
  _get_readiso_param [("freq", PStr "noraman")]
    = Ok (Some ("freq", "noraman")) /\
  (exists s,
     parse_lines periodic_table parse_zmatrix initial_state noraman_file
       = Ok s /\
     readiso s = true /\ count_iso s = 2 /\
     dict_get "temperature" (parameters s) = Some (PStr "H") /\
     dict_get "pressure" (parameters s) = Some (PStr "0") /\
     dict_get "iso" (parameters s) = Some (PList [None])) /\
  parse_gaussian_input periodic_table parse_zmatrix noraman_file
    = Err ValueError.
Proof.
  split; [reflexivity|]. split.
  - eexists. split; [vm_compute; reflexivity|]. repeat split.
  - vm_compute. reflexivity.
Qed.

(** C4 at a z-matrix file that ends with the blank lines closing the
    molecule specification: the z-matrix is converted only when a further
    line is read, so the reader returns a structure without atoms and the
    converter is never called. *)
Theorem zmatrix_left_unread
    (parse_zmatrix : string -> option string -> res (list vec3 * list string)) :
  exists s atoms p,
    parse_lines periodic_table parse_zmatrix initial_state water_zmatrix_file
      = Ok s /\
    zmatrix_type s = true /\
    zmatrix_contents s = "O" ++ nl ++ "H 1 0.96" ++ nl ++ "H 1 0.96 2 104.5"
                         ++ nl /\
    parse_gaussian_input periodic_table parse_zmatrix water_zmatrix_file
      = Ok (atoms, p) /\
    symbols atoms = [] /\ positions atoms = [].
Proof.
  do 3 eexists. split; [vm_compute; reflexivity|].
  split; [reflexivity|]. split; [reflexivity|].
  split; [vm_compute; reflexivity|]. split; reflexivity.
Qed.

(** *** The reader of output files *)

Lemma existsb_permutation {A} (f : A -> bool) (l l' : list A) :
  Permutation l l' -> existsb f l = existsb f l'.
Proof.
  induction 1 as [|x l l' _ IH|x y l|l l' l'' _ IH1 _ IH2]; simpl.
  - reflexivity.
  - now rewrite IH.
  - now rewrite !orb_assoc, (orb_comm (f y)).
  - now rewrite IH1.
Qed.

Section OutputFacts.
Variable Hartree Bohr : Q.
Variable differs : rvalue -> rvalue -> bool.
Variable o1 o2 : list string -> list string.
Hypothesis o1_perm : forall l, Permutation (o1 l) l.
Hypothesis o2_perm : forall l, Permutation (o2 l) l.

Lemma compare_merge_order configs new :
  _compare_merge_configs differs o1 configs new =
  _compare_merge_configs differs o2 configs new.
Proof.
  unfold _compare_merge_configs.
  destruct (List.last _ _) as [old|]; [|reflexivity].
  destruct (negb _); [reflexivity|].
  cbv zeta.
  rewrite (existsb_permutation _ _ _ (o1_perm _)).
  rewrite (existsb_permutation _ _ _ (o2_perm _)).
  reflexivity.
Qed.

Lemma close_image_order st :
  close_image differs o1 st = close_image differs o2 st.
Proof.
  unfold close_image. destruct (o_atoms st); [|reflexivity].
  apply compare_merge_order.
Qed.

Lemma out_line_order line rest st :
  out_line Hartree Bohr differs o1 line rest st =
  out_line Hartree Bohr differs o2 line rest st.
Proof. unfold out_line. now rewrite close_image_order. Qed.

Lemma out_lines_order fd : forall skip st,
  out_lines Hartree Bohr differs o1 skip st fd =
  out_lines Hartree Bohr differs o2 skip st fd.
Proof.
  induction fd as [|line fd IH]; intros skip st; [reflexivity|].
  cbn [out_lines]. destruct skip as [|k]; [|apply IH].
  cbv zeta. destruct (prefixb _ _); [reflexivity|].
  rewrite out_line_order.
  destruct (out_line _ _ _ _ _ _ _) as [[st' n]|]; [|reflexivity].
  cbn [bind fst snd]. apply IH.
Qed.

Lemma read_gaussian_out_order fd index :
  read_gaussian_out Hartree Bohr differs o1 fd index =
  read_gaussian_out Hartree Bohr differs o2 fd index.
Proof.
  unfold read_gaussian_out. rewrite out_lines_order.
  destruct (out_lines _ _ _ _ _ _ _); [|reflexivity].
  cbn [bind]. now rewrite close_image_order.
Qed.

End OutputFacts.

(** C5, as the code has it.  [write_gaussian_in] works on a copy of the
    parameters and leaves the atoms and the parameters of its caller as
    they are, whatever the outcome.  [write_crystal_in] leaves the atoms,
    the point charges and the directory of the calculator as they are; its
    parameters are unchanged when no atom has a magnetic moment, and differ
    at most by [spinpol] set to [True] otherwise. *)
Theorem writers_leave_inputs
    (repr_float : Q -> string) (chemical_symbols : list string)
    (atomic_masses_iupac2016 : list Q) (read_file : string -> res string)
    (np_sum : list Q -> fval) (np_add : fval -> Q -> fval)
    (Hartree : Q) (properties : option (list string)) (filename : string)
    (g : gworld) (w : Crystal.world) :
  let g' := fst (write_gaussian_in repr_float chemical_symbols
                   atomic_masses_iupac2016 read_file np_sum np_add
                   properties g) in
  let c := Crystal.calc w in
  let c' := Crystal.calc
              (fst (Crystal.write_crystal_in Hartree repr_float filename w)) in
  (g_atoms g' = g_atoms g /\ g_params g' = g_params g) /\
  Crystal.atoms c' = Crystal.atoms c /\
  Crystal.pcpot c' = Crystal.pcpot c /\
  Crystal.directory c' = Crystal.directory c /\
  (CrystalFacts.is_magnetic c = false ->
   Crystal.parameters c' = Crystal.parameters c) /\
  (Crystal.parameters c' = Crystal.parameters c \/
   Crystal.parameters c' = Crystal.set_spinpol true (Crystal.parameters c)).
Proof.
  intros g' c c'. split.
  - subst g'. unfold write_gaussian_in.
    destruct (snd (gaussian_lines _ _ _ _ _ _ _ _ _)); split; reflexivity.
  - pose proof (CrystalFacts.settled_write_crystal_in Hartree repr_float
                  filename w _ _ (surjective_pairing _)) as (Ha & Hp & Hd & Hq).
    fold c c' in Ha, Hp, Hd, Hq.
    repeat split; try assumption.
    + intros Hmag. destruct Hq as [Hq | [Hq _]]; [exact Hq | congruence].
    + destruct Hq as [Hq | [_ Hq]]; auto.
Qed.

Definition magnetic_cell : Crystal.world :=
  {| Crystal.calc :=
       CrystalFacts.sample_calc CrystalFacts.sto3g
         (CrystalFacts.sample_atoms [1%Q] (false, false, false));
     Crystal.fs := ∅; Crystal.written := ∅ |}.

Lemma spinpol_switched_counterexample :
  let run := Crystal.write_crystal_in 1%Q CrystalFacts.no_repr "INPUT"
               magnetic_cell in
  snd run = Ok tt /\
  Crystal.spinpol (Crystal.parameters (Crystal.calc magnetic_cell)) = false /\
  Crystal.spinpol (Crystal.parameters (Crystal.calc (fst run))) = true.
Proof. vm_compute. repeat split. Qed.

End GaussianFacts.

(** * Writing a structure and reading it back *)

Module RoundTrip.
Import Text Num Gaussian TextFacts GaussianFacts.





Lemma alpha_facts c :
  is_alpha c = true ->
  is_space c = false /\ is_digit c = false /\ mem "(" c = false /\
  mem ", " c = false /\ Ascii.eqb c NL = false /\ Ascii.eqb c "%" = false /\
  Ascii.eqb c "#" = false /\ Ascii.eqb c "-" = false /\
  Ascii.eqb c "+" = false /\ Ascii.eqb "!" c = false /\
  Ascii.eqb "/" c = false /\ Ascii.eqb "," c = false /\
  Ascii.eqb c "(" = false /\ Ascii.eqb "-" c = false.
Proof.
  destruct c as [[] [] [] [] [] [] [] []]; vm_compute; intros H;
    try discriminate H; repeat split.
Qed.














Section RT.
Variable repr_float : Q -> string.
Variable chemical_symbols : list string.
Variable atomic_masses_iupac2016 : list Q.
Variable read_file : string -> res string.
Variable np_sum : list Q -> fval.
Variable np_add : fval -> Q -> fval.






End RT.

Lemma numeric_line c r :
  is_numeric_char c = true ->
  re_link0 (String c r) = None /\ re_output_type (String c r) = None /\
  String.eqb (String c r) nl = false.
Proof.
  destruct c as [[] [] [] [] [] [] [] []]; intros H;
    try (vm_compute in H; discriminate H); repeat split.
Qed.

Lemma integer_text_parts t :
  is_integer_text t = true ->
  exists (neg : bool) (d : string), t = (if neg then "-" else "") ++ d /\
    split_sign t = (neg, d) /\ all_digits d = true.
Proof.
  unfold is_integer_text. intros H.
  destruct t as [|c t']; [discriminate|].
  destruct (Ascii.eqb c "-") eqn:E.
  - apply Ascii.eqb_eq in E. subst c. exists true, t'. auto.
  - exists false, (String c t').
    assert (Hd : all_digits (String c t') = true).
    { destruct c as [[] [] [] [] [] [] [] []]; try exact H;
        vm_compute in E; discriminate E. }
    split; [reflexivity|]. split; [|exact Hd].
    unfold all_digits in Hd. cbn [nonempty is_empty negb andb forallb_s] in Hd.
    apply andb_prop in Hd as [Hc _].
    destruct c as [[] [] [] [] [] [] [] []]; try reflexivity;
      vm_compute in Hc; discriminate Hc.
Qed.

Lemma integer_text_word t :
  is_integer_text t = true ->
  nonempty t = true /\ forallb_s is_numeric_char t = true.
Proof.
  intros H. destruct (integer_text_parts t H) as (neg & d & -> & _ & Hd).
  unfold all_digits in Hd. apply andb_prop in Hd as [Hne Hd].
  assert (Hn : forallb_s is_numeric_char d = true).
  { revert Hd. apply forallb_s_impl. intros c Hc.
    unfold is_numeric_char. now rewrite Hc. }
  destruct neg; cbn [String.append]; split; try assumption; try reflexivity.
Qed.

Lemma skip_integer_text t x r :
  is_integer_text t = true -> is_digit x = false ->
  skip_integer (t ++ String x r) = Some (String x r).
Proof.
  intros H Hx. destruct (integer_text_parts t H) as (neg & d & -> & Hss & Hd).
  unfold all_digits in Hd. apply andb_prop in Hd as [Hne Hd].
  unfold skip_integer, split_sign_any.
  assert (Hs : split_sign (((if neg then "-" else "") ++ d) ++ String x r)
               = (neg, d ++ String x r)).
  { destruct neg; cbn [String.append] in *; [reflexivity|].
    destruct d as [|c d']; [discriminate|].
    cbn [String.append]. cbn [forallb_s] in Hd.
    apply andb_prop in Hd as [Hc _].
    destruct c as [[] [] [] [] [] [] [] []]; try reflexivity;
      vm_compute in Hc; discriminate Hc. }
  rewrite Hs. rewrite (span_app is_digit d x r Hd Hx).
  destruct d; [discriminate | reflexivity].
Qed.


Lemma chgmult_line c m :
  is_integer_text c = true -> is_integer_text m = true ->
  re_chgmult (c ++ " " ++ m ++ nl) = true /\
  split_ws (c ++ " " ++ m ++ nl) = [c; m].
Proof.
  intros Hc Hm.
  destruct (integer_text_word c Hc) as [Hcn Hcw].
  destruct (integer_text_word m Hm) as [Hmn Hmw].
  split.
  - unfold re_chgmult.
    assert (Hl : lstrip is_space (c ++ " " ++ m ++ nl) = c ++ " " ++ m ++ nl).
    { destruct c as [|x c']; [discriminate|].
      cbn [forallb_s] in Hcw. apply andb_prop in Hcw as [Hx _].
      cbn [String.append]. apply lstrip_first. exact (numeric_not_space x Hx). }
    rewrite Hl. cbn [String.append].
    rewrite (skip_integer_text c " " _ Hc eq_refl).
    destruct m as [|x m']; [discriminate|].
    pose proof Hmw as Hmw0.
    cbn [forallb_s] in Hmw. apply andb_prop in Hmw as [Hx Hmw'].
    cbn [String.append span]. rewrite (numeric_not_space x Hx).
    change (is_space " ") with true. cbn [is_empty].
    change (String x (m' ++ nl)) with (String x m' ++ String NL "").
    rewrite (skip_integer_text (String x m') NL "" Hm eq_refl).
    reflexivity.
  - unfold split_ws. cbn [String.append].
    rewrite tokens_word by (auto using numeric_word).
    unfold nl. rewrite tokens_word by (auto using numeric_word).
    reflexivity.
Qed.
















Lemma contains_dash_alpha s :
  forallb_s is_alpha s = true -> contains "-" s = false.
Proof.
  induction s as [|c s IH]; [reflexivity|].
  cbn [forallb_s]. intros H. apply andb_prop in H as [Hc Hs].
  cbn [contains prefixb].
  destruct (alpha_facts c Hc) as (_&_&_&_&_&_&_&_&_&_&_&_&_&Hd).
  rewrite Hd. cbn [andb orb]. now apply IH.
Qed.

Section Lines.
Variable chemical_symbols : list string.
Variable parse_zmatrix : string -> option string -> res (list vec3 * list string).

















End Lines.











Section Trip.
Variable repr_float : Q -> string.
Variable chemical_symbols : list string.
Variable atomic_masses_iupac2016 : list Q.
Variable read_file : string -> res string.
Variable np_sum : list Q -> fval.
Variable np_add : fval -> Q -> fval.
Variable parse_zmatrix : string -> option string -> res (list vec3 * list string).











End Trip.



(** ** The claim on the round trip *)




End RoundTrip.

(** * Further properties of the reader and of the writers *)

Module Extras.
Import Text Num Gaussian TextFacts GaussianFacts RoundTrip.

(** ** Dictionaries *)

Lemma dict_get_in k d v : dict_get k d = Some v -> In (k, v) d.
Proof.
  induction d as [|[k0 v0] d IH]; simpl; [discriminate|].
  destruct (String.eqb k k0) eqn:E.
  - apply String.eqb_eq in E. subst k0. intros [= <-]. now left.
  - intros H. right. now apply IH.
Qed.

Lemma dict_get_none k d : dict_get k d = None -> ~ In k (map fst d).
Proof.
  induction d as [|[k0 v0] d IH]; simpl; [tauto|].
  destruct (String.eqb k k0) eqn:E; [discriminate|].
  intros H [Hk|Hk].
  - subst k0. now rewrite String.eqb_refl in E.
  - now apply IH.
Qed.

Lemma dict_get_absent k d : ~ In k (map fst d) -> dict_get k d = None.
Proof.
  induction d as [|[k0 v0] d IH]; simpl; [reflexivity|].
  intros H. destruct (String.eqb k k0) eqn:E.
  - apply String.eqb_eq in E. subst k0. tauto.
  - apply IH. tauto.
Qed.

Lemma dict_get_del_same k d :
  NoDup (map fst d) -> dict_get k (dict_del k d) = None.
Proof.
  induction d as [|[k0 v0] d IH]; simpl; [reflexivity|].
  intros Hnd. inversion Hnd as [|? ? Hk0 Hd]; subst.
  destruct (String.eqb k k0) eqn:E.
  - apply String.eqb_eq in E. subst k0. now apply dict_get_absent.
  - simpl. rewrite E. now apply IH.
Qed.

Lemma first_key_found p d k :
  first_key p d = Some k -> exists v, dict_get k d = Some v.
Proof.
  induction d as [|[k0 v0] d IH]; simpl; [discriminate|].
  destruct (p k0) eqn:E.
  - intros [= <-]. rewrite String.eqb_refl. eauto.
  - intros H. destruct (String.eqb k k0); eauto.
Qed.

(** ** The check of the parameters read *)

(** X1.  When a key of the parameters read contains [popt],
    [_validate_params] moves the options of the first such key to the key
    [Opt]: they are found under [Opt], the key itself is gone, and every
    other parameter is as it was. *)
Theorem popt_moved_to_opt (d d' : dict) (k : string) :
  NoDup (map fst d) ->
  first_key (fun k => contains "popt" (lower k)) d = Some k ->
  _validate_params d = Ok d' ->
  dict_get "Opt" d' = dict_get k d /\
  dict_get k d' = None /\
  (forall k', k' <> k -> k' <> "Opt" -> dict_get k' d' = dict_get k' d).
Proof.
  intros Hnd Hk. unfold _validate_params.
  destruct (existsb _ unsupported_settings); [discriminate|].
  rewrite Hk. unfold dict_pop. intros [= <-].
  destruct (first_key_found _ _ _ Hk) as [v Hv].
  pose proof (first_key_holds _ _ _ Hk) as Hp. cbv beta in Hp.
  assert (Hne : String.eqb k "Opt" = false).
  { destruct (String.eqb k "Opt") eqn:E; [|reflexivity].
    apply String.eqb_eq in E. subst k. discriminate Hp. }
  repeat split.
  - rewrite dict_get_set, String.eqb_refl, Hv. reflexivity.
  - rewrite dict_get_set, Hne. now apply dict_get_del_same.
  - intros k' H1 H2. rewrite dict_get_set.
    destruct (String.eqb k' "Opt") eqn:E.
    + apply String.eqb_eq in E. contradiction.
    + apply dict_get_del_ne. destruct (String.eqb k' k) eqn:E'; [|reflexivity].
      apply String.eqb_eq in E'. contradiction.
Qed.

Lemma popt_moved_to_opt_witness :
  let d := [("popt", PStr "tight"); ("charge", PNum (NInt 0))] in
  exists d', _validate_params d = Ok d' /\
    dict_get "Opt" d' = Some (PStr "tight") /\ dict_get "popt" d' = None.
Proof.
  intros d. exists [("charge", PNum (NInt 0)); ("Opt", PStr "tight")].
  split; [reflexivity|].
  destruct (popt_moved_to_opt d
              [("charge", PNum (NInt 0)); ("Opt", PStr "tight")] "popt")
    as (H1 & H2 & _).
  - repeat constructor; simpl; intuition discriminate.
  - reflexivity.
  - reflexivity.
  - split; [exact H1 | exact H2].
Defined.

(** A file whose route asks for redundant internal coordinates. *)
Definition modredundant_file : list string :=
  file ["#P HF/6-31G opt=modredundant"; ""; "title"; ""; "0 1";
        "H 0.0 0.0 0.0"; ""].

(** X2.  A file read to its end is refused with [IOError] when a value
    among the parameters read mentions one of the unsupported settings
    (Z-matrix, ModRedun, AddRedun, ReadOpt, RdOpt), whatever the case of
    its letters. *)
Theorem unsupported_setting_refused
    (chemical_symbols : list string)
    (parse_zmatrix : string -> option string -> res (list vec3 * list string))
    (fd : list string) (s : pstate) (k t u : string) :
  parse_lines chemical_symbols parse_zmatrix initial_state fd = Ok s ->
  In (k, PStr t) (parameters s) ->
  In u unsupported_settings ->
  contains (lower u) (lower t) = true ->
  parse_gaussian_input chemical_symbols parse_zmatrix fd = Err IOError.
Proof.
  intros Hs Hin Hu Hc. unfold parse_gaussian_input. rewrite Hs. cbn [bind].
  unfold finish, _validate_params.
  replace (existsb _ unsupported_settings) with true; [reflexivity|].
  symmetry. apply existsb_exists. exists u. split; [exact Hu|].
  apply existsb_exists. exists (k, PStr t). split; [exact Hin|]. exact Hc.
Qed.

Lemma unsupported_setting_refused_witness :
  parse_gaussian_input periodic_table flat_zmatrix modredundant_file
    = Err IOError.
Proof.
  apply (unsupported_setting_refused periodic_table flat_zmatrix
           modredundant_file (state_after modredundant_file)
           "opt" "modredundant" "ModRedun").
  - vm_compute. reflexivity.
  - vm_compute. auto 10.
  - vm_compute. auto 10.
  - vm_compute. reflexivity.
Defined.

(** ** Symbols and integers *)

Lemma contains_char c s :
  contains (String c "") s = existsb_s (Ascii.eqb c) s.
Proof.
  induction s as [|b s IH]; [reflexivity|].
  cbn [contains prefixb existsb_s]. now rewrite IH, andb_true_r.
Qed.

Lemma digits_no_dash s : forallb_s is_digit s = true -> contains "-" s = false.
Proof.
  rewrite contains_char. induction s as [|c s IH]; [reflexivity|].
  cbn [forallb_s existsb_s]. intros H. apply andb_prop in H as [Hc Hs].
  rewrite (IH Hs), orb_false_r.
  destruct c as [[] [] [] [] [] [] [] []]; try reflexivity;
    vm_compute in Hc; discriminate Hc.
Qed.

Lemma contains_app_none sub a b :
  String.length sub = 1 ->
  contains sub a = false -> contains sub b = false ->
  contains sub (a ++ b) = false.
Proof.
  destruct sub as [|c [|c' sub]]; try discriminate. intros _.
  rewrite !contains_char, existsb_s_app. now intros -> ->.
Qed.

Lemma span_alpha_digits a r :
  forallb_s is_alpha a = true -> forallb_s is_digit r = true ->
  span is_alpha (a ++ r) = (a, r).
Proof.
  intros Ha Hr. destruct r as [|c r].
  - rewrite append_nil_r. now apply span_all.
  - apply span_app; [exact Ha|].
    cbn [forallb_s] in Hr. apply andb_prop in Hr as [Hc _].
    destruct c as [[] [] [] [] [] [] [] []]; try reflexivity;
      vm_compute in Hc; discriminate Hc.
Qed.

(** X3.  A label made of letters followed by digits, such as [C12], is
    converted to its letters; a string with a hyphen (a molecular-mechanics
    atom type) is refused with [IOError]. *)
Theorem label_converted_to_letters
    (chemical_symbols : list string) (a r : string) :
  nonempty a = true ->
  forallb_s is_alpha a = true ->
  forallb_s is_digit r = true ->
  _convert_to_symbol chemical_symbols (a ++ r) = Ok a /\
  (forall s, contains "-" s = true ->
     _convert_to_symbol chemical_symbols s = Err IOError).
Proof.
  intros Hne Ha Hr. split.
  - unfold _convert_to_symbol, _validate_symbol_string.
    rewrite (contains_app_none "-" a r eq_refl
               (contains_dash_alpha a Ha) (digits_no_dash r Hr)).
    cbn [bind]. rewrite (span_alpha_digits a r Ha Hr).
    replace (isnumeric (a ++ r)) with false.
    + destruct a; [discriminate | reflexivity].
    + destruct a as [|c a]; [discriminate|].
      cbn [forallb_s] in Ha. apply andb_prop in Ha as [Hc _].
      unfold isnumeric, all_digits.
      cbn [String.append nonempty is_empty negb forallb_s andb].
      destruct (alpha_facts c Hc) as (_ & Hd & _). now rewrite Hd.
  - intros s Hs. unfold _convert_to_symbol, _validate_symbol_string.
    now rewrite Hs.
Qed.

Lemma label_converted_to_letters_witness :
  _convert_to_symbol periodic_table "C12" = Ok "C".
Proof.
  apply (label_converted_to_letters periodic_table "C" "12"); reflexivity.
Defined.

(** X4.  An atom given by its atomic number is converted to the entry of
    the table of chemical symbols at that index, and refused with
    [IndexError] when the table is shorter. *)
Theorem atomic_number_converted (chemical_symbols : list string) (n : nat) :
  _convert_to_symbol chemical_symbols (str_nat (Z.of_nat n)) =
  match nth_error chemical_symbols n with
  | Some x => Ok x
  | None => Err IndexError
  end.
Proof.
  pose proof (str_nat_all_digits (Z.of_nat n)) as Hd.
  unfold _convert_to_symbol, _validate_symbol_string.
  rewrite digits_no_dash
    by (unfold all_digits in Hd; now apply andb_prop in Hd).
  cbn [bind]. unfold isnumeric. rewrite Hd.
  rewrite int_of_str_nat by lia. cbn [bind]. now rewrite Nat2Z.id.
Qed.

(** ** The charge and the multiplicity *)

(** X5.  The line of the charge and the multiplicity as the writer forms
    it, two numbers written with [{:.0f}], is read back as the two
    integers nearest to them (a tie goes to the even one); it opens the
    molecule specification and changes nothing else. *)
Theorem written_charge_read_back
    (chemical_symbols : list string)
    (parse_zmatrix : string -> option string -> res (list vec3 * list string))
    (x y : Q) (s : pstate) :
  route_section s = false ->
  parse_line chemical_symbols parse_zmatrix s
    (fmt_f 0 x ++ " " ++ fmt_f 0 y ++ nl) =
  Ok (set_atoms_section true
        (set_parameters
           (dict_set "mult" (PNum (NInt (round_half_even y)))
              (dict_set "charge" (PNum (NInt (round_half_even x)))
                 (parameters s))) s)).
Proof.
  intros Hr.
  set (c := fmt_f 0 x). set (m := fmt_f 0 y).
  pose proof (fmt_f_0_integer x) as Hc. pose proof (fmt_f_0_integer y) as Hm.
  fold c in Hc. fold m in Hm.
  destruct (chgmult_line c m Hc Hm) as [Hre Htok].
  assert (Hfirst : re_link0 (c ++ " " ++ m ++ nl) = None /\
                   re_output_type (c ++ " " ++ m ++ nl) = None /\
                   String.eqb (c ++ " " ++ m ++ nl) nl = false).
  { destruct (integer_text_word c Hc) as [Hne Hw].
    destruct c as [|a c']; [discriminate|].
    cbn [forallb_s] in Hw. apply andb_prop in Hw as [Ha _].
    cbn [String.append]. now apply numeric_line. }
  destruct Hfirst as (H1 & H2 & H3).
  unfold parse_line, branch. rewrite H1, H2, H3, Hre. cbn [andb].
  unfold save_chgmult. rewrite Htok. cbn [item nth_error bind].
  subst c m. rewrite !int_of_fmt_f_0. cbn [bind].
  destruct s. cbn in Hr. subst. reflexivity.
Qed.

Lemma written_charge_read_back_witness :
  exists s,
    parse_line periodic_table flat_zmatrix initial_state ("-1 2" ++ nl) = Ok s
    /\ dict_get "charge" (parameters s) = Some (PNum (NInt (-1))) /\
    dict_get "mult" (parameters s) = Some (PNum (NInt 2)) /\
    atoms_section s = true.
Proof.
  eexists. split.
  - exact (written_charge_read_back periodic_table flat_zmatrix
             (-1)%Q (3 # 2)%Q initial_state eq_refl).
  - repeat split.
Defined.

(** ** The coordinates *)






(** ** The images of an output file *)

Lemma res_get_set k k' v d :
  res_get k (res_set k' v d) =
  if String.eqb k k' then Some v else res_get k d.
Proof.
  induction d as [|[k0 v0] d IH]; simpl.
  - reflexivity.
  - destruct (String.eqb k' k0) eqn:E'; simpl.
    + apply String.eqb_eq in E'. subst k0.
      destruct (String.eqb k k'); reflexivity.
    + destruct (String.eqb k k0) eqn:E0.
      * apply String.eqb_eq in E0. subst k0.
        rewrite String.eqb_sym, E'. reflexivity.
      * exact IH.
Qed.

Lemma res_get_absent k (d : results) :
  ~ In k (map fst d) -> res_get k d = None.
Proof.
  induction d as [|[k0 v0] d IH]; simpl; [reflexivity|].
  intros H. destruct (String.eqb k k0) eqn:E.
  - apply String.eqb_eq in E. subst k0. tauto.
  - apply IH. tauto.
Qed.

Lemma res_get_key k (d : results) v :
  res_get k d = Some v -> In k (map fst d).
Proof.
  induction d as [|[k0 v0] d IH]; simpl; [discriminate|].
  destruct (String.eqb k k0) eqn:E.
  - apply String.eqb_eq in E. subst k0. now left.
  - intros H. right. now apply IH.
Qed.

(** [old.update(new)]: the values of [new], and those of [old] under the
    keys [new] does not have. *)
Lemma res_get_update k (e : results) : forall d,
  NoDup (map fst e) ->
  res_get k (res_update d e) =
  match res_get k e with
  | Some b => Some b
  | None => res_get k d
  end.
Proof.
  unfold res_update.
  induction e as [|[k0 v0] e IH]; intros d Hnd; [reflexivity|].
  cbn [map fst] in Hnd. inversion Hnd as [|? ? Hk0 He]; subst.
  cbn [fold_left fst snd res_get]. rewrite (IH _ He), res_get_set.
  destruct (String.eqb k k0) eqn:E; [|reflexivity].
  apply String.eqb_eq in E. subst k0.
  now rewrite (res_get_absent _ _ Hk0).
Qed.

(** X7.  With a last image, [_compare_merge_configs] either appends the new
    one, or, the two structures being equal, replaces the results of the
    last image by their update with the new results and leaves the images
    before it as they are.  The update has every new value, and an old
    value is kept or replaced by one that does not differ from it: merging
    never changes a value calculated before. *)
Theorem merge_changes_no_value
    (differs : rvalue -> rvalue -> bool)
    (key_order : list string -> list string)
    (configs : list config) (old new : config) :
  (forall l, Permutation (key_order l) l) ->
  NoDup (map fst (snd new)) ->
  List.last (map Some configs) None = Some old ->
  let r := _compare_merge_configs differs key_order configs new in
  let merged := res_update (snd old) (snd new) in
  r = (configs ++ [new])%list \/
  (atoms_eqb (fst old) (fst new) = true /\
   r = (removelast configs ++ [(fst old, merged)])%list /\
   (forall k b, res_get k (snd new) = Some b -> res_get k merged = Some b) /\
   (forall k a, res_get k (snd old) = Some a ->
      match res_get k (snd new) with
      | Some b => differs a b = false
      | None => res_get k merged = Some a
      end)).
Proof.
  intros Hperm Hnd Hlast r merged. subst r.
  unfold _compare_merge_configs. rewrite Hlast.
  destruct (atoms_eqb (fst old) (fst new)) eqn:Heq; cbn [negb]; [|now left].
  cbv zeta.
  rewrite (existsb_permutation _ _ _ (Hperm _)).
  destruct (existsb _ _) eqn:Hex; [now left|].
  right. split; [reflexivity|]. split; [reflexivity|]. split.
  - intros k b Hb. subst merged. now rewrite res_get_update, Hb.
  - intros k a Ha. subst merged.
    destruct (res_get k (snd new)) as [b|] eqn:Hb.
    + assert (Hin : In k (filter (fun k => is_some (res_get k (snd new)))
                            (map fst (snd old)))).
      { apply filter_In. split; [now apply (res_get_key k _ a)|].
        now rewrite Hb. }
      rewrite <- not_true_iff_false in Hex.
      destruct (differs a b) eqn:Hd; [|reflexivity].
      exfalso. apply Hex. apply existsb_exists. exists k.
      split; [exact Hin|]. now rewrite Ha, Hb.
    + now rewrite res_get_update, Hb.
Qed.

Definition first_image : config :=
  ({| numbers := [1%Z]; na_positions := [zero3];
      na_pbc := (false, false, false);
      na_cell := (zero3, zero3, zero3) |},
   [("energy", RFloat 1%Q)]).

Definition same_image_with_forces : config :=
  (fst first_image, [("energy", RFloat 1%Q); ("forces", RMatrix [zero3])]).

Lemma merge_changes_no_value_witness :
  _compare_merge_configs values_differ (fun l => l) [first_image]
    same_image_with_forces = [same_image_with_forces].
Proof.
  destruct (merge_changes_no_value values_differ (fun l => l) [first_image]
              first_image same_image_with_forces) as [H|(_ & H & _)].
  - intros l. apply Permutation_refl.
  - repeat constructor; simpl; intuition discriminate.
  - reflexivity.
  - vm_compute in H. discriminate H.
  - exact H.
Defined.

(** A line that opens the block of a structure. *)
Definition opens_orientation (line : string) : bool :=
  String.eqb (strip line) "Input orientation:"
  || String.eqb (strip line) "Z-Matrix orientation:".

Section NoOrientation.
Variable Hartree Bohr : Q.
Variable differs : rvalue -> rvalue -> bool.
Variable key_order : list string -> list string.

Definition no_structure (st : ostate) : Prop :=
  configs st = [] /\ o_atoms st = None.

Lemma out_line_no_structure line rest st r :
  String.eqb line "Input orientation:"
    || String.eqb line "Z-Matrix orientation:" = false ->
  out_line Hartree Bohr differs key_order line rest st = Ok r ->
  no_structure st -> no_structure (fst r).
Proof.
  intros Hno. unfold out_line. rewrite Hno.
  destruct (starts_any _ line).
  { destruct (item _ 1); [|discriminate]. cbn [bind].
    destruct (item _ 0); [|discriminate]. cbn [bind].
    destruct (float_of_string _); [|discriminate]. cbn [bind].
    now intros [= <-]. }
  destruct (starts_any _ line).
  { destruct (number_after_last_equals _); [|discriminate]. cbn [bind].
    now intros [= <-]. }
  destruct (prefixb _ line).
  { destruct (number_after_last_equals _); [|discriminate]. cbn [bind].
    now intros [= <-]. }
  destruct (re_l716 line).
  { destruct (negb _); [now intros [= <-]|].
    destruct (read_dipole _); [|discriminate]. cbn [bind].
    now intros [= <-]. }
  destruct (re_forceblock line).
  { destruct (force_rows _); [|discriminate]. cbn [bind].
    now intros [= <-]. }
  now intros [= <-].
Qed.

Lemma out_lines_no_structure fd : forall skip st st',
  existsb opens_orientation fd = false ->
  out_lines Hartree Bohr differs key_order skip st fd = Ok st' ->
  no_structure st -> no_structure st'.
Proof.
  induction fd as [|line fd IH]; intros skip st st' Hno.
  - cbn [out_lines]. now intros [= <-].
  - cbn [existsb] in Hno. apply orb_false_elim in Hno as [Hl Hfd].
    cbn [out_lines]. destruct skip as [|k].
    + cbv zeta. destruct (prefixb _ _); [now intros [= <-]|].
      destruct (out_line _ _ _ _ _ _ _) as [r|] eqn:Hr; [|discriminate].
      cbn [bind]. intros H Hst.
      apply (IH _ _ _ Hfd H).
      exact (out_line_no_structure _ _ _ _ Hl Hr Hst).
    + apply IH. exact Hfd.
Qed.

End NoOrientation.

Definition energy_only : list string :=
  file [" SCF Done:  E(RHF) =  -75.98     A.U. after    9 cycles"].

(** X8.  An output file with no line [Input orientation:] or
    [Z-Matrix orientation:] holds no image: [read_gaussian_out] returns
    none, whatever the index asked for, and when its lines are read
    without an error the exception raised is [IndexError]. *)
Theorem no_orientation_no_image
    (Hartree Bohr : Q) (differs : rvalue -> rvalue -> bool)
    (key_order : list string -> list string)
    (fd : list string) (index : Z) :
  existsb opens_orientation fd = false ->
  (exists e, read_gaussian_out Hartree Bohr differs key_order fd index
             = Err e) /\
  (forall st,
     out_lines Hartree Bohr differs key_order 0
       {| configs := []; o_atoms := None; energy := None; dipole := None;
          forces := None |} fd = Ok st ->
     read_gaussian_out Hartree Bohr differs key_order fd index
       = Err IndexError).
Proof.
  intros Hno.
  assert (Hall : forall st,
     out_lines Hartree Bohr differs key_order 0
       {| configs := []; o_atoms := None; energy := None; dipole := None;
          forces := None |} fd = Ok st ->
     read_gaussian_out Hartree Bohr differs key_order fd index
       = Err IndexError).
  { intros st Hst. unfold read_gaussian_out. rewrite Hst. cbn [bind].
    destruct (out_lines_no_structure Hartree Bohr differs key_order fd 0 _ st
                Hno Hst) as [Hc Ha]; [split; reflexivity|].
    unfold close_image. rewrite Ha, Hc. unfold index_config.
    cbn [List.length Z.of_nat]. rewrite Z.add_0_l.
    destruct (Z.ltb_spec index 0) as [Hi|Hi].
    - now rewrite (proj2 (Z.ltb_lt index 0) Hi).
    - rewrite (proj2 (Z.ltb_ge index 0) Hi).
      unfold item. now destruct (Z.to_nat index). }
  split; [|exact Hall].
  destruct (out_lines Hartree Bohr differs key_order 0
              {| configs := []; o_atoms := None; energy := None;
                 dipole := None; forces := None |} fd) as [st|e] eqn:Hst.
  - exists IndexError. now apply (Hall st).
  - exists e. unfold read_gaussian_out. now rewrite Hst.
Qed.

Lemma no_orientation_no_image_witness :
  read_gaussian_out 2%Q (1 # 2)%Q values_differ (fun l => l) energy_only
    (-1)%Z = Err IndexError.
Proof.
  refine (proj2 (no_orientation_no_image 2%Q (1 # 2)%Q values_differ
                   (fun l => l) energy_only (-1)%Z _) _ _).
  - vm_compute. reflexivity.
  - vm_compute. reflexivity.
Defined.

End Extras.

(** * Further properties of the CRYSTAL calculator *)

Module CrystalExtras.
Import Text Num Crystal TextFacts CrystalFacts.

(** ** The files a run writes to *)

(** The files of a run for the calculator [c]: the input file and, with
    point charges, their file. *)
Definition written_by (c : CRYSTAL) (filename p : string) : Prop :=
  p = filename \/
  exists pc, pcpot c = Some pc /\
             p = path_join (pc_directory pc) "POINTCHG.INP".

Lemma geometry_block_files filename w w' r p :
  write_geometry_block filename w = (w', r) ->
  ~ written_by (calc w) filename p -> fs w' !! p = fs w !! p.
Proof.
  unfold write_geometry_block. intros Hrun Hp.
  assert (Hout : written_by (calc w) filename filename) by now left.
  apply mbind_inv in Hrun as [(w1 & f & H1 & Hrun) | (e & H1 & _)];
    [|discriminate H1].
  rewrite <- (touches_open_w (written_by (calc w) filename) _ Hout
                _ _ _ H1 p Hp).
  pose proof (keeps_open_w _ _ _ _ H1) as Hc1.
  apply mbind_inv in Hrun as [(w2 & [] & H2 & Hrun) | (e & H2 & _)];
    [|discriminate H2].
  injection H2 as <-.
  apply mbind_inv in Hrun as [(w3 & [] & H3 & Hrun) | (e & H3 & _)];
    [|discriminate H3].
  injection H3 as <-.
  apply mbind_inv in Hrun as [(w4 & w5 & H4 & Hrun) | (e & H4 & _)];
    [|discriminate H4].
  injection H4 as <- <-. cbn [calc] in Hrun. rewrite Hc1 in Hrun.
  destruct (pcpot (calc w)) as [pc|] eqn:Hpc.
  - assert (Ht : touches (written_by (calc w) filename)
                   (write f ("POINTCHG " ++ nl) ;;;
                    write_mmcharges pc "POINTCHG.INP" ;;; ret f)).
    { apply touches_bind; [now apply touches_write | intros _].
      apply touches_bind; [|intros _; apply (touches_pure _ (Ok f))].
      apply touches_write_mmcharges. right. exists pc.
      split; [exact Hpc | reflexivity]. }
    rewrite (Ht _ _ _ Hrun p) by exact Hp. reflexivity.
  - injection Hrun as <- _. reflexivity.
Qed.

(** X9.  A run of [write_crystal_in], finished or stopped by an
    exception, changes no file but the input file and, when the calculator
    has point charges, the file [POINTCHG.INP] of their directory. *)
Theorem only_input_files_written
    (Hartree : Q) (repr_float : Q -> string) (filename : string)
    (w : world) (p : string) :
  p <> filename ->
  (forall pc, pcpot (calc w) = Some pc ->
     p <> path_join (pc_directory pc) "POINTCHG.INP") ->
  fs (fst (write_crystal_in Hartree repr_float filename w)) !! p
    = fs w !! p.
Proof.
  intros H1 H2.
  assert (Hp : ~ written_by (calc w) filename p).
  { intros [->|(pc & Hpc & ->)]; [now apply H1 | now apply (H2 pc)]. }
  destruct (write_crystal_in Hartree repr_float filename w) as [w' r] eqn:Hrun.
  cbn [fst]. rewrite write_crystal_in_split in Hrun.
  apply mbind_inv in Hrun as [(w1 & out & Hg & Hrest) | (e & Hg & _)].
  - destruct (geometry_block_opens filename _ _ _ Hg) as [Hname _].
    rewrite (touches_after_geometry _ _ _ _ _ _ Hrest p)
      by (rewrite Hname; exact H1).
    exact (geometry_block_files _ _ _ _ _ Hg Hp).
  - exact (geometry_block_files _ _ _ _ _ Hg Hp).
Qed.

Lemma only_input_files_written_witness :
  fs (fst (write_crystal_in 1%Q no_repr "INPUT"
             (at_start (sample_calc sto3g
                          (sample_atoms [] (true, true, true)))
                       {["fort.34" := "geometry"]}))) !! "fort.34"
  = Some "geometry".
Proof.
  rewrite (only_input_files_written 1%Q no_repr "INPUT" _ "fort.34").
  - reflexivity.
  - discriminate.
  - intros pc Hpc. discriminate Hpc.
Defined.

(** X10.  The input file of a run that finishes ends with the lines
    [GRADCAL] and [END], when it is not the file of the point charges as
    well. *)
Theorem input_ends_with_gradcal
    (Hartree : Q) (repr_float : Q -> string) (filename : string)
    (w : world) :
  (forall pc, pcpot (calc w) = Some pc ->
     filename <> path_join (pc_directory pc) "POINTCHG.INP") ->
  let run := write_crystal_in Hartree repr_float filename w in
  snd run = Ok tt ->
  exists text,
    fs (fst run) !! filename
      = Some (text ++ ("GRADCAL " ++ nl) ++ ("END " ++ nl)).
Proof.
  intros Hne run. subst run.
  destruct (write_crystal_in Hartree repr_float filename w) as [w' r] eqn:Hrun.
  cbn [fst snd]. intros ->. unfold write_crystal_in in Hrun.
  apply mbind_inv in Hrun as [(w1 & out & Hb & Hrun) | (e & _ & He)];
    [|discriminate He].
  apply mbind_inv in Hrun as [(w2 & [] & Hk & Hrun) | (e & _ & He)];
    [|discriminate He].
  destruct (last_lines_run out w2) as (w3 & H3 & _ & T3 & F3).
  rewrite H3 in Hrun. injection Hrun as <-.
  pose proof (blocks_open_file _ _ _ _ _ _ Hb) as Hname.
  assert (Hdisk : fs w2 !! filename = Some "").
  { destruct (evolves_kpoints Hartree repr_float out _ _ _ Hk) as (_ & -> & _).
    unfold write_blocks in Hb.
    apply mbind_inv in Hb as [(wa & f & Hg & Hb) | (e & _ & He)];
      [|discriminate He].
    destruct (geometry_block_opens filename _ _ _ Hg) as [_ Hempty].
    assert (He : evolves settled
              (write_basis_block f ;;;
               write_parameter_block Hartree repr_float f ;;; ret f)).
    { apply evolves_bind;
        [apply settled_trans | apply evolves_basis_block | intros _].
      apply evolves_bind;
        [apply settled_trans | apply evolves_parameter_block | intros _].
      apply evolves_ret, settled_refl. }
    destruct (He _ _ _ Hb) as (_ & -> & _). exact (Hempty Hne). }
  rewrite F3, Hname, lookup_insert_eq, Hdisk.
  unfold default, from_option, id. rewrite overlay_nil, T3.
  exists (text_of w2 out). reflexivity.
Qed.

Lemma input_ends_with_gradcal_witness :
  exists text,
    fs (fst (write_crystal_in 1%Q no_repr "INPUT"
               (at_start (sample_calc sto3g
                            (sample_atoms [] (false, false, false))) ∅)))
      !! "INPUT"
    = Some (text ++ ("GRADCAL " ++ nl) ++ ("END " ++ nl)).
Proof.
  apply (input_ends_with_gradcal 1%Q no_repr "INPUT").
  - intros pc Hpc. discriminate Hpc.
  - vm_compute. reflexivity.
Defined.

(** ** The smearing *)

(** [passes m]: [m] finishes from every state and leaves the calculator
    as it is. *)
Definition passes (m : M world unit) : Prop :=
  forall w, exists w', m w = (w', Ok tt) /\ calc w' = calc w.

Lemma passes_write f text : passes (write f text).
Proof. intros w. eexists. split; reflexivity. Qed.

Lemma passes_ret : passes (ret tt).
Proof. intros w. exists w. split; reflexivity. Qed.

Lemma passes_bind (m k : M world unit) :
  passes m -> passes k -> passes (m ;;; k).
Proof.
  intros Hm Hk w. destruct (Hm w) as (w1 & H1 & C1).
  destruct (Hk w1) as (w2 & H2 & C2). exists w2.
  split; [now rewrite (mbind_ok _ _ _ _ _ H1) | congruence].
Qed.

Lemma passes_when b m : passes m -> passes (when b m).
Proof. intros Hm. destruct b; [exact Hm | apply passes_ret]. Qed.

Lemma passes_hamiltonian out x sp : passes (write_hamiltonian out x sp).
Proof.
  unfold write_hamiltonian. destruct x as [name|x c].
  - destruct (String.eqb name "HF"); [destruct sp; apply passes_write|].
    destruct (String.eqb name "MP2");
      repeat first [apply passes_write | apply passes_when | apply passes_bind].
  - repeat first [apply passes_write | apply passes_when | apply passes_bind].
Qed.

Lemma passes_guess out b :
  passes (when b (found <~ isfile "fort.20" ;;
                  when found (write out ("GUESSP " ++ nl)))).
Proof.
  apply passes_when. intros w. unfold mbind, isfile.
  destruct (bool_decide _); [apply passes_write | apply passes_ret].
Qed.

Section Smearing.
Variable Hartree : Q.
Variable repr_float : Q -> string.
Variable out : file.

Lemma parameter_block_smearing w a kind width :
  atoms (calc w) = Some a ->
  smearing (parameters (calc w)) = Some (kind, width) ->
  String.eqb kind "Fermi-Dirac" = false ->
  snd (write_parameter_block Hartree repr_float out w) = Err ValueError.
Proof.
  intros Ha Hs Hk. unfold write_parameter_block.
  unfold mbind at 1, get at 1. rewrite Ha.
  set (w0 := if magnetic a then spin_on w else w).
  assert (Hwhen : when (magnetic a) (modify spin_on) w = (w0, Ok tt)).
  { subst w0. now destruct (magnetic a). }
  assert (Hs0 : smearing (parameters (calc w0)) = Some (kind, width)).
  { subst w0. now destruct (magnetic a). }
  rewrite (mbind_ok _ _ _ _ _ Hwhen). unfold mbind at 1, get at 1.
  destruct (passes_hamiltonian out (xc (parameters (calc w0)))
              (spinpol (parameters (calc w0))) w0) as (w2 & H2 & _).
  rewrite (mbind_ok _ _ _ _ _ H2).
  destruct (passes_guess out (guess (parameters (calc w0))) w2)
    as (w3 & H3 & _).
  rewrite (mbind_ok _ _ _ _ _ H3).
  rewrite Hs0. unfold write_smearing. rewrite Hk. reflexivity.
Qed.

End Smearing.

Definition gaussian_smearing : Parameters :=
  {| xc := XcStr "PBE"; spinpol := false; guess := true; kpts := None;
     isp := 1%Z; basis := "sto-3g"; smearing := Some ("Gaussian", 1 # 100)%Q;
     otherkeys := [] |}.

(** X11.  Once the first two blocks are written, a run whose parameters
    ask for a smearing other than [Fermi-Dirac] is stopped by
    [ValueError]. *)
Theorem other_smearing_refused
    (Hartree : Q) (repr_float : Q -> string) (filename : string)
    (w w0 w1 : world) (out : file) (a : Atoms) (kind : string) (width : Q) :
  write_geometry_block filename w = (w0, Ok out) ->
  write_basis_block out w0 = (w1, Ok tt) ->
  atoms (calc w) = Some a ->
  smearing (parameters (calc w)) = Some (kind, width) ->
  kind <> "Fermi-Dirac" ->
  snd (write_crystal_in Hartree repr_float filename w) = Err ValueError.
Proof.
  intros Hg Hb Ha Hs Hk.
  pose proof (keeps_geometry_block filename _ _ _ Hg) as Hc0.
  destruct (evolves_basis_block out _ _ _ Hb) as ((Ha1 & _ & _ & Hp) & _).
  assert (Hs1 : smearing (parameters (calc w1)) = Some (kind, width)).
  { rewrite Hc0 in Hp. destruct Hp as [-> | [_ ->]]; exact Hs. }
  assert (Hpar : snd (write_parameter_block Hartree repr_float out w1)
                 = Err ValueError).
  { apply (parameter_block_smearing _ _ _ _ a kind width).
    - now rewrite Ha1, Hc0.
    - exact Hs1.
    - destruct (String.eqb kind "Fermi-Dirac") eqn:E; [|reflexivity].
      apply String.eqb_eq in E. contradiction. }
  unfold write_crystal_in, write_blocks.
  rewrite mbind_assoc, (mbind_ok _ _ _ _ _ Hg).
  rewrite mbind_assoc, (mbind_ok _ _ _ _ _ Hb).
  unfold mbind.
  destruct (write_parameter_block Hartree repr_float out w1)
    as [w2 [[]|e]]; cbn [snd] in Hpar; [discriminate Hpar|].
  cbn [snd]. exact Hpar.
Qed.

Lemma other_smearing_refused_witness :
  snd (write_crystal_in 1%Q no_repr "INPUT"
         (at_start (sample_calc gaussian_smearing
                      (sample_atoms [] (false, false, false))) ∅))
  = Err ValueError.
Proof.
  eapply (other_smearing_refused 1%Q no_repr "INPUT").
  - reflexivity.
  - reflexivity.
  - reflexivity.
  - reflexivity.
  - discriminate.
Defined.

(** ** The basis-set file and the point charges *)




(** X13.  [write_mmcharges] pairs the positions with the charges: when
    fewer positions than charges are set, the first line of the file still
    gives the number of charges, and one line follows for each position
    only. *)
Theorem fewer_positions_than_charges
    (pc : PointChargePotential) (filename : string)
    (ch : list Q) (pos : list vec3) (w : world) :
  mmcharges pc = Some ch -> mmpositions pc = Some pos ->
  List.length pos < List.length ch ->
  let run := write_mmcharges pc filename w in
  let paired := combine pos (firstn (List.length pos) ch) in
  snd run = Ok tt /\
  fs (fst run) !! path_join (pc_directory pc) filename =
    Some ((str_int (Z.of_nat (List.length ch)) ++ " " ++ nl)
          ++ concat_str (map charge_line paired)) /\
  List.length paired = List.length pos.
Proof.
  intros Hc Hp Hlen run paired. subst run paired.
  rewrite (write_mmcharges_some pc filename ch pos w Hc Hp).
  cbn [fst snd fs]. split; [reflexivity|]. split.
  - rewrite lookup_insert_eq. unfold charge_file_text.
    now rewrite <- combine_firstn_l.
  - rewrite List.length_combine, List.length_firstn. lia.
Qed.

Lemma fewer_positions_than_charges_witness :
  let pc := {| mmcharges := Some [1%Q; (-1)%Q]; pc_directory := ".";
               mmpositions := Some [(0, 0, 1)%Q] |} in
  fs (fst (write_mmcharges pc "POINTCHG.INP"
             (at_start (sample_calc sto3g
                          (sample_atoms [] (false, false, false))) ∅)))
    !! "./POINTCHG.INP"
  = Some (("2 " ++ nl)
          ++ ("    0.000000     0.000000     1.000000     1.000000 " ++ nl)).
Proof.
  intros pc.
  destruct (fewer_positions_than_charges pc "POINTCHG.INP"
              [1%Q; (-1)%Q] [(0, 0, 1)%Q]
              (at_start (sample_calc sto3g
                           (sample_atoms [] (false, false, false))) ∅)
              eq_refl eq_refl) as (_ & H & _).
  - simpl. lia.
  - exact H.
Defined.

End CrystalExtras.
